(** * acyclicloader: a shallow embedding of the component loader

    The development follows the Go package [acyclicloader]: the definition
    errors of [errors.go], the validation done by [New], the cycle search
    [detectCycles], the cache derivations [WithOverwrites] and [Clone], and
    the concurrent [Load], which is modelled as a transition system whose
    steps are the critical sections of the loader's mutex. *)

From stdpp Require Import gmap strings list sorting fin_maps pretty.

Set Warnings "-register-all".
Open Scope string_scope.
Open Scope list_scope.
Open Scope nat_scope.

(** ** Reflection: the fragment of [reflect.Type] the loader inspects *)

Inductive type : Type :=
| TInt
| TFloat64
| TString
| TError
| TStruct (fields : list (string * type))
| TFunc (ins outs : list type).

Inductive Kind : Type := Int | Float64 | String_ | Interface | Struct | Func.

Definition kind (t : type) : Kind :=
  match t with
  | TInt => Int
  | TFloat64 => Float64
  | TString => String_
  | TError => Interface
  | TStruct _ => Struct
  | TFunc _ _ => Func
  end.

Definition is_func (t : type) : bool :=
  match t with TFunc _ _ => true | _ => false end.

Definition is_struct (t : type) : bool :=
  match t with TStruct _ => true | _ => false end.

(** [t.NumIn()], [t.In(i)], [t.NumOut()], [t.Out(i)] read these lists. *)
Definition In_ (t : type) : list type :=
  match t with TFunc ins _ => ins | _ => [] end.

Definition Out (t : type) : list type :=
  match t with TFunc _ outs => outs | _ => [] end.

(** [strings.Join]. *)
Fixpoint Join (elems : list string) (sep : string) : string :=
  match elems with
  | [] => ""
  | [e] => e
  | e :: rest => e +:+ sep +:+ Join rest sep
  end.

(** [reflect.Type.String]. *)
Fixpoint type_String (t : type) : string :=
  match t with
  | TInt => "int"
  | TFloat64 => "float64"
  | TString => "string"
  | TError => "error"
  | TStruct fields =>
      match fields with
      | [] => "struct {}"
      | _ => "struct { " +:+
             Join (List.map (fun f => fst f +:+ " " +:+ type_String (snd f)) fields) "; "
             +:+ " }"
      end
  | TFunc ins outs =>
      "func(" +:+ Join (List.map type_String ins) ", " +:+ ")" +:+
      match outs with
      | [] => ""
      | [o] => " " +:+ type_String o
      | _ => " (" +:+ Join (List.map type_String outs) ", " +:+ ")"
      end
  end.

(** Identity of types, as [==] on [reflect.Type] decides it. *)
Fixpoint type_eqb (t1 t2 : type) : bool :=
  match t1, t2 with
  | TInt, TInt | TFloat64, TFloat64 | TString, TString | TError, TError => true
  | TStruct f1, TStruct f2 =>
      (fix fields_eqb (f1 f2 : list (string * type)) : bool :=
         match f1, f2 with
         | [], [] => true
         | x1 :: r1, x2 :: r2 =>
             String.eqb (fst x1) (fst x2) && type_eqb (snd x1) (snd x2) && fields_eqb r1 r2
         | _, _ => false
         end) f1 f2
  | TFunc i1 o1, TFunc i2 o2 =>
      (fix types_eqb (l1 l2 : list type) : bool :=
         match l1, l2 with
         | [], [] => true
         | x1 :: r1, x2 :: r2 => type_eqb x1 x2 && types_eqb r1 r2
         | _, _ => false
         end) i1 i2
      &&
      (fix types_eqb (l1 l2 : list type) : bool :=
         match l1, l2 with
         | [], [] => true
         | x1 :: r1, x2 :: r2 => type_eqb x1 x2 && types_eqb r1 r2
         | _, _ => false
         end) o1 o2
  | _, _ => false
  end.

Definition typeOfError : type := TError.

(** ** errors.go *)

(** Non-nil values of Go's [error] interface; the interface itself is
    [option error], with [None] for [nil]. *)
Inductive error : Type :=
| ForeignError (msg : string)
| DependencyLoadError (trace : list string) (err : option error)
| UndefinedComponentError (Component : string)
| ComponentDefinitionError (Component : string) (message : string).

Definition extend (e_trace : list string) (e_err : option error) (component : string) : error :=
  DependencyLoadError ([component] ++ e_trace) e_err.

(** The error [Load] stores for [component] when its dependency [dep]
    has the error [e]: the type switch on [*DependencyLoadError]. *)
Definition wrap (component dep : string) (e : error) : error :=
  match e with
  | DependencyLoadError trace e' => extend trace e' component
  | _ => DependencyLoadError [component; dep] (Some e)
  end.

Definition is_DependencyLoadError (e : error) : bool :=
  match e with
  | DependencyLoadError _ _ => true
  | _ => false
  end.

(** ** Values of [interface{}] *)

Inductive any : Type :=
| ANil
| AInt (n : Z)
| AString (s : string)
| AError (e : error).

(** [reflect.Value.Set] accepts a value only when it is assignable to the
    field's type; [reflect.ValueOf(nil)] is the zero [Value] and is refused. *)
Definition assignable (v : any) (t : type) : bool :=
  match v, t with
  | AInt _, TInt => true
  | AString _, TString => true
  | AError _, TError => true
  | _, _ => false
  end.

(** [unicode.IsUpper] of the first rune of a name whose first byte is not
    ASCII.  The table of the upper-case letters belongs to Go, not to the
    loader: the development holds whatever the table is. *)
Class Unicode : Type := { IsUpper : string -> bool }.

(** A struct field can be set through reflection only when it is exported:
    its name starts with an upper-case letter.  For a first byte below 0x80
    these are the letters A to Z; beyond, the first rune is looked up in
    the table. *)
Definition exported {U : Unicode} (name : string) : bool :=
  match name with
  | String c _ =>
      if (Ascii.nat_of_ascii c <? 128)%nat
      then (65 <=? Ascii.nat_of_ascii c)%nat && (Ascii.nat_of_ascii c <=? 90)%nat
      else IsUpper name
  | EmptyString => false
  end.

(** ** Outcomes of the package's functions *)

Inductive outcome (A : Type) : Type :=
| Ok (a : A)
| Fail (e : error)
| Panic
| OutOfFuel.

Arguments Ok {A} a.
Arguments Fail {A} e.
Arguments Panic {A}.
Arguments OutOfFuel {A}.

Definition bind {A B : Type} (m : outcome A) (k : A -> outcome B) : outcome B :=
  match m with
  | Ok a => k a
  | Fail e => Fail e
  | Panic => Panic
  | OutOfFuel => OutOfFuel
  end.

Notation "'do' x <- m ; k" := (bind m (fun x => k))
  (at level 10, x name, m at level 100, k at level 200).
Notation "'do' ' p <- m ; k" := (bind m (fun x => match x with p => k end))
  (at level 10, p pattern, m at level 100, k at level 200).

(** A method called on a nil interface or a field read through a nil
    pointer panics. *)
Definition nil_guard {A : Type} (x : option A) : outcome A :=
  match x with
  | Some a => Ok a
  | None => Panic
  end.

(** [r != t] for a possibly nil [reflect.Type] [r] and a field's type. *)
Definition same_type (r : option type) (t : type) : bool :=
  match r with
  | Some r => type_eqb r t
  | None => false
  end.

(** The order [sort.Strings] sorts by: bytewise lexicographic. *)
Definition string_le (s1 s2 : string) : Prop := String.leb s1 s2 = true.

#[export] Instance string_le_dec : RelDecision string_le.
Proof. intros s1 s2. unfold string_le. apply _. Defined.

Abbreviation loc := nat (only parsing).

Section Loader.

(** The state user constructors can read and change (captured variables,
    files, connections): Go functions are not pure. *)
Variable World : Type.
Context {U : Unicode}.

(** A non-nil [interface{}] as [New] and [Load] use it: its dynamic type,
    and what calling it does when it is a function.  The arguments of a
    call are the fields of the struct parameter, in order. *)
Record dyn : Type := Dyn {
  dyn_type : type;
  dyn_call : World -> list any -> list any * World
}.

Record component : Type := Component {
  fn : dyn;
  result : option type;
  dependencies : list string;
  value : any;
  err : option error;
  loaded : bool;
  loading : bool
}.

(** Cells of type [*component] live in a heap; an [AcyclicLoader] is its
    map from names to cells.  Its mutex and condition variable have no
    data: they show in the step relation of [Load]. *)
Abbreviation heap := (list component).

Definition cell (h : heap) (a : gmap string loc) (name : string) : option component :=
  match a !! name with
  | Some l => h !! l
  | None => None
  end.

(** *** New *)

(** [Components]: a Go map from names to [interface{}]; [None] is a nil
    definition. *)
Abbreviation Components := (gmap string (option dyn)).

Definition fresh_component (f : dyn) (r : option type) : component :=
  {| fn := f; result := r; dependencies := []; value := ANil; err := None;
     loaded := false; loading := false |}.

Definition set_dependencies (c : component) (deps : list string) : component :=
  {| fn := fn c; result := result c; dependencies := deps; value := value c;
     err := err c; loaded := loaded c; loading := loading c |}.

(** The [switch t.NumOut()] of the first loop. *)
Definition declared_result (name : string) (t : type) : outcome (option type) :=
  match Out t with
  | [] => Ok None
  | [o] => Ok (if type_eqb o typeOfError then None else Some o)
  | [o0; o1] =>
      if type_eqb o1 typeOfError then Ok (Some o0)
      else Fail (ComponentDefinitionError name
             ("expected 2nd result from '" +:+ name +:+
              "' to have error type, but found " +:+ type_String o1))
  | outs =>
      Fail (ComponentDefinitionError name
             ("expected no more than 2 results from '" +:+ name +:+
              "', but found " +:+ pretty (length outs) +:+ " outputs"))
  end.

(** Body of the first loop of [New]: the component made for [name]. *)
Definition define (components : Components) (name : string) : outcome component :=
  match components !! name with
  | None | Some None =>
      Fail (ComponentDefinitionError name
             ("expected definition of '" +:+ name +:+
              "' to be a function, but found nil"))
  | Some (Some f) =>
      let t := dyn_type f in
      if negb (is_func t) then
        Fail (ComponentDefinitionError name
               ("expected definition of '" +:+ name +:+
                "' to be a function, but found " +:+ type_String t))
      else
        do r <- declared_result name t;
        Ok (fresh_component f r)
  end.

(** First loop of [New]: populate components. *)
Fixpoint populate (components : Components) (componentNames : list string)
    (h : heap) (a : gmap string loc) : outcome (heap * gmap string loc) :=
  match componentNames with
  | [] => Ok (h, a)
  | name :: rest =>
      do c <- define components name;
      populate components rest (h ++ [c]) (<[name := length h]> a)
  end.

(** The loop over the fields of the struct parameter. *)
Fixpoint check_fields (h : heap) (a : gmap string loc) (name : string)
    (fields : list (string * type)) (deps : list string) : outcome (list string) :=
  match fields with
  | [] => Ok deps
  | field :: rest =>
      match a !! fst field with
      | None =>
          Fail (ComponentDefinitionError name
                 ("'" +:+ name +:+ "' depends on undefined component '" +:+
                  fst field +:+ "'"))
      | Some l =>
          match h !! l with
          | None => Panic
          | Some dep =>
              if negb (same_type (result dep) (snd field)) then
                do r <- nil_guard (result dep);
                Fail (ComponentDefinitionError name
                       ("'" +:+ name +:+ "' depends on component '" +:+ fst field +:+
                        "' with type " +:+ type_String r +:+ ", but '" +:+ name +:+
                        "' expects " +:+ type_String (snd field)))
              else check_fields h a name rest (deps ++ [fst field])
          end
      end
  end.

(** Body of the second loop of [New]: the heap after the dependencies of
    [name] are checked and stored. *)
Definition resolve_one (h : heap) (a : gmap string loc) (name : string) : outcome heap :=
  do l <- nil_guard (a !! name);
  do c <- nil_guard (h !! l);
  let t := dyn_type (fn c) in
  match In_ t with
  | [] => Ok h
  | [input] =>
      match input with
      | TStruct fields =>
          do deps <- check_fields h a name fields [];
          Ok (<[l := set_dependencies c deps]> h)
      | _ =>
          Fail (ComponentDefinitionError name
                 ("expected input parameter for '" +:+ name +:+
                  "' to be a struct, but found " +:+ type_String input))
      end
  | ins =>
      Fail (ComponentDefinitionError name
             ("expected no more than 1 input parameter for '" +:+ name +:+
              "', but found " +:+ pretty (length ins)))
  end.

(** Second loop of [New]: populate and check dependencies. *)
Fixpoint resolve (componentNames : list string) (h : heap) (a : gmap string loc)
    : outcome heap :=
  match componentNames with
  | [] => Ok h
  | name :: rest => do h' <- resolve_one h a name; resolve rest h' a
  end.

(** The inner loop of [detectCycles]: the index of the first [name] of
    [path] equal to [dep]. *)
Fixpoint index_of (dep : string) (path : list string) : option nat :=
  match path with
  | [] => None
  | name :: rest =>
      if String.eqb name dep then Some 0 else S <$> index_of dep rest
  end.

(** The loop [for _, dep := range c.dependencies] of [detectCycles], with
    [recur] the recursive call. *)
Fixpoint detect_over (recur : string -> list string -> outcome (option (list string)))
    (path : list string) (deps : list string) : outcome (option (list string)) :=
  match deps with
  | [] => Ok None
  | dep :: deps' =>
      match index_of dep path with
      | Some i => Ok (Some (drop i path ++ [dep]))
      | None =>
          match recur dep (path ++ [dep]) with
          | Ok None => detect_over recur path deps'
          | ret => ret
          end
      end
  end.

(** [detectCycles]; the recursion is on the depth of the traversal, which
    [fuel] bounds. *)
Fixpoint detectCycles (fuel : nat) (h : heap) (a : gmap string loc)
    (c : option loc) (path : list string) : outcome (option (list string)) :=
  match fuel with
  | O => OutOfFuel
  | S fuel' =>
      do c <- nil_guard (c ≫= (fun l => h !! l));
      detect_over (fun dep path' => detectCycles fuel' h a (a !! dep) path')
                  path (dependencies c)
  end.

Definition cycle_message (cycle : list string) : string :=
  "dependency cycle detected: '" +:+ Join cycle "' -> '" +:+ "'".

(** Third loop of [New]: check for cycles. *)
Fixpoint check_cycles (fuel : nat) (componentNames : list string) (h : heap)
    (a : gmap string loc) : outcome unit :=
  match componentNames with
  | [] => Ok tt
  | name :: rest =>
      do cycle <- detectCycles fuel h a (a !! name) [name];
      match cycle with
      | Some cycle =>
          Fail (ComponentDefinitionError (default "" (head cycle)) (cycle_message cycle))
      | None => check_cycles fuel rest h a
      end
  end.

(** [New].  [order] is the order in which the [range] over the Go map
    yields the names; [h] is the heap the new cells are allocated in.  A
    path without repetition visits at most every component once, hence
    the fuel. *)
Definition New (h : heap) (components : Components) (order : list string)
    : outcome (heap * gmap string loc) :=
  let componentNames := merge_sort string_le order in
  do '(h1, a) <- populate components componentNames h ∅;
  do h2 <- resolve componentNames h1 a;
  do _ <- check_cycles (S (size a)) componentNames h2 a;
  Ok (h2, a).

(** *** WithOverwrites *)

(** The loop over the dependencies in the closure [needsPurging], with
    [recur] the recursive call. *)
Fixpoint purge_over (recur : string -> outcome bool) (deps : list string) : outcome bool :=
  match deps with
  | [] => Ok false
  | dep :: deps' =>
      do purge <- recur dep;
      if purge then Ok true else purge_over recur deps'
  end.

(** The closure [needsPurging]; its recursion follows dependency edges,
    and [fuel] bounds its depth. *)
Fixpoint needsPurging (fuel : nat) (h : heap) (a : gmap string loc)
    (values : gmap string any) (component : string) : outcome bool :=
  match fuel with
  | O => OutOfFuel
  | S fuel' =>
      match values !! component with
      | Some _ => Ok true
      | None =>
          do c <- nil_guard (cell h a component);
          purge_over (needsPurging fuel' h a values) (dependencies c)
      end
  end.

(** The component [WithOverwrites] stores for [name]. *)
Definition overwritten (values : gmap string any) (name : string) (c : component)
    (purge : bool) : component :=
  let value0 := if negb purge then value c else ANil in
  let err0 := if negb purge then err c else None in
  let value1 := match values !! name with Some val => val | None => value0 end in
  let err1 := match values !! name with Some _ => None | None => err0 end in
  {| fn := fn c; result := result c; dependencies := dependencies c;
     value := value1; err := err1; loaded := loaded c; loading := loaded c |}.

(** The loop [for name, c := range a.components] of [WithOverwrites], over
    the entries still to visit; [h] holds the cells of [a] and receives
    the new ones, [a2] is the map being filled. *)
Fixpoint overwrite_all (fuel : nat) (a : gmap string loc) (values : gmap string any)
    (entries : list (string * loc)) (h : heap) (a2 : gmap string loc)
    : outcome (heap * gmap string loc) :=
  match entries with
  | [] => Ok (h, a2)
  | entry :: rest =>
      do c <- nil_guard (h !! snd entry);
      do purge <- needsPurging fuel h a values (fst entry);
      overwrite_all fuel a values rest
        (h ++ [overwritten values (fst entry) c purge])
        (<[fst entry := length h]> a2)
  end.

(** [WithOverwrites].  A Go map is ranged over in no specified order;
    the order only decides the addresses of the new cells. *)
Definition WithOverwrites (h : heap) (a : gmap string loc) (values : gmap string any)
    : outcome (heap * gmap string loc) :=
  overwrite_all (S (size a)) a values (map_to_list a) h ∅.

(** *** Clone *)

Definition cloned (c : component) : component :=
  {| fn := fn c; result := result c; dependencies := dependencies c;
     value := value c; err := err c; loaded := loaded c; loading := loaded c |}.

Fixpoint clone_all (entries : list (string * loc)) (h : heap) (a2 : gmap string loc)
    : outcome (heap * gmap string loc) :=
  match entries with
  | [] => Ok (h, a2)
  | entry :: rest =>
      do c <- nil_guard (h !! snd entry);
      clone_all rest (h ++ [cloned c]) (<[fst entry := length h]> a2)
  end.

Definition Clone (h : heap) (a : gmap string loc) : outcome (heap * gmap string loc) :=
  clone_all (map_to_list a) h ∅.

(** *** Load *)

(** Where a call of [Load] stands.  The mutex [a.m] is held exactly during
    a transition, so every transition is one critical section (or, for
    [Calling], the unlocked call of the constructor). *)
Inductive thread : Type :=
| Start (a : gmap string loc) (component : string)
    (* before [a.m.Lock()] *)
| Waiting (a : gmap string loc) (component : string) (i : nat) (input : list any)
    (* inside [a.c.Wait()] for dependency [i]; the fields before [i] are set *)
| Woken (a : gmap string loc) (component : string) (i : nat) (input : list any)
    (* woken by a broadcast, before [Wait] has the mutex again *)
| Calling (a : gmap string loc) (component : string) (in_ : list (list any))
    (* after [a.m.Unlock()], before [c.fn.Call(in)] *)
| Called (a : gmap string loc) (component : string) (value : any) (err : option error)
    (* after the call, before [a.m.Lock()] *)
| Returned (value : any) (err : option error).

(** A constructor invocation: the cell, the arguments, the results. *)
Record call : Type := Call { call_cell : loc; call_in : list any; call_ret : list any }.

Record machine : Type := Machine {
  cells : heap;
  world : World;
  threads : list thread;
  calls : list call
}.

Definition set_loading (c : component) : component :=
  {| fn := fn c; result := result c; dependencies := dependencies c;
     value := value c; err := err c; loaded := loaded c; loading := true |}.

Definition set_done (c : component) (v : any) (e : option error) : component :=
  {| fn := fn c; result := result c; dependencies := dependencies c;
     value := v; err := e; loaded := true; loading := loading c |}.

(** [go a.Load(dep)] for every dependency that is not loading. *)
Fixpoint spawn_loads (h : heap) (a : gmap string loc) (deps : list string)
    : outcome (list thread) :=
  match deps with
  | [] => Ok []
  | dep :: rest =>
      do d <- nil_guard (cell h a dep);
      do ts <- spawn_loads h a rest;
      Ok (if negb (loading d) then Start a dep :: ts else ts)
  end.

(** How the loop that waits for the dependencies leaves the critical
    section. *)
Inductive waited : Type :=
| MustWait (i : nat) (input : list any)
| DependencyFailed (err : error)
| AllLoaded (input : list any).

(** The loop [for i, dep := range c.dependencies], entered at index [i]
    with [deps] the dependencies from [i] on and [fields] the fields of
    the argument struct from [i] on. *)
Fixpoint wait_for (h : heap) (a : gmap string loc) (component : string)
    (deps : list string) (fields : list (string * type)) (i : nat) (input : list any)
    : outcome waited :=
  match deps with
  | [] => Ok (AllLoaded input)
  | dep :: rest =>
      do d <- nil_guard (cell h a dep);
      if negb (loaded d) then Ok (MustWait i input)
      else
        match err d with
        | Some e => Ok (DependencyFailed (wrap component dep e))
        | None =>
            match fields with
            | [] => Panic
            | field :: fields' =>
                if exported (fst field) && assignable (value d) (snd field)
                then wait_for h a component rest fields' (S i) (input ++ [value d])
                else Panic
            end
        end
  end.

(** [a.c.Broadcast()]. *)
Definition wake (a : gmap string loc) (t : thread) : thread :=
  match t with
  | Waiting a' component i input =>
      if decide (a' = a) then Woken a' component i input else t
  | _ => t
  end.

(** The fields of the struct that [reflect.New(c.fn.Type().In(0))] makes;
    a value that is no struct has no field to set. *)
Definition input_fields (c : component) : outcome (list (string * type)) :=
  match In_ (dyn_type (fn c)) with
  | [] => Panic
  | TStruct fields :: _ => Ok fields
  | _ :: _ => Ok []
  end.

(** From the wait loop to the end of the critical section. *)
Definition after_wait (m : machine) (tid : nat) (a : gmap string loc)
    (name : string) (l : loc) (c : component) (extra : list thread)
    (w : waited) : machine :=
  match w with
  | MustWait i input =>
      {| cells := cells m; world := world m;
         threads := (<[tid := Waiting a name i input]> (threads m)) ++ extra;
         calls := calls m |}
  | AllLoaded input =>
      {| cells := <[l := set_loading c]> (cells m); world := world m;
         threads := (<[tid := Calling a name [input]]> (threads m)) ++ extra;
         calls := calls m |}
  | DependencyFailed e =>
      {| cells := <[l := set_done (set_loading c) ANil (Some e)]> (cells m);
         world := world m;
         threads := wake a <$> ((<[tid := Returned ANil (Some e)]> (threads m)) ++ extra);
         calls := calls m |}
  end.

(** [x.Interface().(error)]: the assertion panics on a nil interface. *)
Definition assert_error (x : option any) : outcome (option error) :=
  match x with
  | Some (AError e) => Ok (Some e)
  | _ => Panic
  end.

(** The outputs of the constructor read as the pair (value, err). *)
Definition interpret (c : component) (ret : list any) : outcome (any * option error) :=
  match result c with
  | Some _ =>
      do v <- nil_guard (ret !! 0);
      if decide (1 < length ret)
      then do e <- assert_error (ret !! 1); Ok (v, e)
      else Ok (v, None)
  | None =>
      if decide (length ret = 1)
      then do e <- assert_error (ret !! 0); Ok (ANil, e)
      else Ok (ANil, None)
  end.

(** One transition of thread [tid]; a thread that cannot move (blocked in
    [Wait], returned, or absent) leaves the machine as it is.  A panic in
    any goroutine ends the program. *)
Definition step (tid : nat) (m : machine) : outcome machine :=
  match threads m !! tid with
  | Some (Start a component) =>
      match a !! component with
      | None =>
          Ok {| cells := cells m; world := world m;
                threads := <[tid := Returned ANil (Some (UndefinedComponentError component))]>
                             (threads m);
                calls := calls m |}
      | Some l =>
          do c <- nil_guard (cells m !! l);
          if loaded c then
            Ok {| cells := cells m; world := world m;
                  threads := <[tid := Returned (value c) (err c)]> (threads m);
                  calls := calls m |}
          else if decide (0 < length (dependencies c)) then
            do fields <- input_fields c;
            do extra <- spawn_loads (cells m) a (dependencies c);
            do w <- wait_for (cells m) a component (dependencies c) fields 0 [];
            Ok (after_wait m tid a component l c extra w)
          else
            Ok {| cells := <[l := set_loading c]> (cells m); world := world m;
                  threads := <[tid := Calling a component []]> (threads m);
                  calls := calls m |}
      end
  | Some (Woken a component i input) =>
      do l <- nil_guard (a !! component);
      do c <- nil_guard (cells m !! l);
      do fields <- input_fields c;
      do w <- wait_for (cells m) a component (drop i (dependencies c)) (drop i fields) i input;
      Ok (after_wait m tid a component l c [] w)
  | Some (Calling a component in_) =>
      do c <- nil_guard (cell (cells m) a component);
      do l <- nil_guard (a !! component);
      if negb (length in_ =? length (In_ (dyn_type (fn c))))%nat then Panic
      else
        let args := concat in_ in
        let ret := dyn_call (fn c) (world m) args in
        do '(v, e) <- interpret c (fst ret);
        Ok {| cells := cells m; world := snd ret;
              threads := <[tid := Called a component v e]> (threads m);
              calls := calls m ++ [Call l args (fst ret)] |}
  | Some (Called a component v e) =>
      do l <- nil_guard (a !! component);
      do c <- nil_guard (cells m !! l);
      Ok {| cells := <[l := set_done c v e]> (cells m); world := world m;
            threads := wake a <$> (<[tid := Returned v e]> (threads m));
            calls := calls m |}
  | Some (Waiting _ _ _ _) | Some (Returned _ _) | None => Ok m
  end.

(** A schedule names the thread that moves at each transition. *)
Fixpoint run (schedule : list nat) (m : machine) : outcome machine :=
  match schedule with
  | [] => Ok m
  | tid :: rest => do m' <- step tid m; run rest m'
  end.

(** A caller invoking [a.Load(component)]. *)
Definition go_Load (a : gmap string loc) (component : string) (m : machine) : machine :=
  {| cells := cells m; world := world m;
     threads := threads m ++ [Start a component]; calls := calls m |}.

End Loader.

Abbreviation heap World := (list (component World)).
Abbreviation Components World := (gmap string (option (dyn World))).

Arguments Dyn {World}.
Arguments dyn_type {World}.
Arguments dyn_call {World}.
Arguments Component {World}.
Arguments fn {World}.
Arguments result {World}.
Arguments dependencies {World}.
Arguments value {World}.
Arguments err {World}.
Arguments loaded {World}.
Arguments loading {World}.
Arguments cell {World}.
Arguments fresh_component {World}.
Arguments set_dependencies {World}.
Arguments define {World}.
Arguments populate {World}.
Arguments resolve_one {World}.
Arguments check_fields {World}.
Arguments resolve {World}.
Arguments detectCycles {World}.
Arguments check_cycles {World}.
Arguments New {World}.
Arguments needsPurging {World}.
Arguments overwritten {World}.
Arguments overwrite_all {World}.
Arguments WithOverwrites {World}.
Arguments cloned {World}.
Arguments clone_all {World}.
Arguments Clone {World}.
Arguments Machine {World}.
Arguments cells {World}.
Arguments world {World}.
Arguments threads {World}.
Arguments calls {World}.
Arguments set_loading {World}.
Arguments set_done {World}.
Arguments spawn_loads {World}.
Arguments wait_for {World U}.
Arguments input_fields {World}.
Arguments after_wait {World}.
Arguments interpret {World}.
Arguments step {World U}.
Arguments run {World U}.
Arguments go_Load {World}.

(** ** The dependency graph and the cache of a loader *)

Section Graph.
Context {World : Type} {U : Unicode}.
Implicit Types (h : heap World) (a : gmap string loc).

(** [x] lists [y] among its dependencies. *)
Definition edge h a (x y : string) : Prop :=
  exists c, cell h a x = Some c /\ y ∈ dependencies c.

(** A list of names each of which depends on the next. *)
Fixpoint walk h a (p : list string) : Prop :=
  match p with
  | x :: p' => match p' with y :: _ => edge h a x y | [] => True end /\ walk h a p'
  | [] => True
  end.

(** Every dependency is a component of the loader. *)
Definition closed h a : Prop :=
  forall x y, edge h a x y -> is_Some (cell h a y).

(** Every component of the loader has its cell. *)
Definition allocated h a : Prop :=
  forall n l, a !! n = Some l -> l < length h.

(** No walk comes back to a name it has visited. *)
Definition acyclic h a : Prop :=
  forall x q, is_Some (cell h a x) -> walk h a (x :: q) -> NoDup (x :: q).

(** The LoadState a cell stands for. *)
Inductive LoadState : Type :=
| Pending
| InFlight
| Done (v : any) (e : option error).

Definition state (c : component World) : LoadState :=
  if loaded c then Done (value c) (err c)
  else if loading c then InFlight else Pending.

(** The loader a call of [Load] runs on. *)
Definition loader_of (t : thread) : option (gmap string loc) :=
  match t with
  | Start a _ | Waiting a _ _ _ | Woken a _ _ _ | Calling a _ _ | Called a _ _ _ => Some a
  | Returned _ _ => None
  end.

(** Two names never share a cell. *)
Definition injective a : Prop :=
  forall n n' l, a !! n = Some l -> a !! n' = Some l -> n = n'.

(** The dependencies of a cell are the fields of its constructor's struct. *)
Definition wired h a : Prop :=
  forall name c, cell h a name = Some c -> dependencies c <> [] ->
    exists fields, In_ (dyn_type (fn c)) = [TStruct fields] /\ dependencies c = fields.*1.

(** Nothing is loaded yet. *)
Definition fresh h a : Prop :=
  forall name c, cell h a name = Some c -> loaded c = false.

Definition well_formed h a : Prop :=
  allocated h a /\ closed h a /\ injective a /\ wired h a.

(** [c'] is [c] up to its cache: what [Load] may change. *)
Definition same_spec (c c' : component World) : Prop :=
  fn c' = fn c /\ result c' = result c /\ dependencies c' = dependencies c.

(** The overwrite mapping without the keys that name no component. *)
Definition defined_keys a (values : gmap string any) : gmap string any :=
  filter (fun kv => is_Some (a !! kv.1)) values.

(** The fields of the struct the constructor of [c] takes. *)
Definition struct_fields (c : component World) : list (string * type) :=
  match In_ (dyn_type (fn c)) with
  | TStruct fields :: _ => fields
  | _ => []
  end.

(** Dependency [k] of [c] is loaded without error and its value can be
    set into field [k]. *)
Definition ready h a (c : component World) (k : nat) : Prop :=
  exists dk ck fk, dependencies c !! k = Some dk /\ cell h a dk = Some ck /\
    loaded ck = true /\ err ck = None /\ struct_fields c !! k = Some fk /\
    exported fk.1 = true /\ assignable (value ck) fk.2 = true.

(** *** Where a cached error comes from *)









(** The first caller's [Load] has not returned. *)
Definition not_returned (m : machine World) : Prop :=
  forall v e, threads m !! 0 <> Some (Returned v e).

(** The third check of the specification fails for [name]: a field of its
    struct names no component of the mapping. *)
Definition has_undefined_dependency (components : Components World) (name : string) : Prop :=
  exists f fields field, components !! name = Some (Some f) /\
    In_ (dyn_type f) = [TStruct fields] /\ field ∈ fields /\ components !! field.1 = None.

End Graph.

(** ** Inputs

    The names of the inputs below start with ASCII letters, for which
    [exported] does not read the table of the upper-case letters: what is
    computed on them holds for every table. *)
#[global] Instance ASCII_names : Unicode | 100 := {| IsUpper := fun _ => false |}.

(** The tests of loader_test.go. *)
Module Tests.

Definition int_of (args : list any) (i : nat) : Z :=
  match args !! i with Some (AInt n) => n | _ => 0%Z end.

Definition plus5 (field : string) : option (dyn unit) :=
  Some (Dyn (TFunc [TStruct [(field, TInt)]] [TInt])
            (fun w args => ([AInt (int_of args 0 + 5)], w))).

Definition TestCyclicDependencies : Components unit :=
  <["A" := plus5 "B"]> (<["B" := plus5 "C"]> (<["C" := plus5 "B"]> ∅)).

Definition TestLongCyclicDependencies : Components unit :=
  <["A" := plus5 "B"]> (<["B" := plus5 "C"]> (<["C" := plus5 "A"]> ∅)).

Definition TestSelfDependency : Components unit :=
  <["A" := plus5 "A"]> ∅.

Definition TestMissingDependency : Components unit :=
  <["A" := plus5 "B"]> ∅.

Definition TestDependencyTypeMismatch : Components unit :=
  <["A" := plus5 "B"]>
    (<["B" := Some (Dyn (TFunc [] [TFloat64]) (fun w _ => ([ANil], w)))]> ∅).

End Tests.

(** Inputs and scenarios the theorems below are evaluated on. *)
Module Cases.

(** A constructor without dependencies that returns [ret] and leaves the
    world alone. *)
Definition constant {W} (outs : list type) (ret : list any) : option (dyn W) :=
  Some (Dyn (TFunc [] outs) (fun w _ => (ret, w))).

(** A constructor that adds up the dependencies named by [fields]. *)
Definition plus {W} (fields : list (string * type)) : option (dyn W) :=
  Some (Dyn (TFunc [TStruct fields] [TInt])
            (fun w args =>
               ([AInt (foldr Z.add 0%Z (Tests.int_of args <$> seq 0 (length args)))], w))).

(** [func() (int, error) { return 1, nil }] *)
Definition value_and_nil_error : Components unit :=
  {[ "Database" := constant [TInt; TError] [AInt 1; ANil] ]}.

(** [func() error { return nil }] *)
Definition only_nil_error : Components unit :=
  {[ "Init" := constant [TError] [ANil] ]}.

(** [func() int { return 1 }] *)
Definition only_value : Components unit :=
  {[ "Port" := constant [TInt] [AInt 1] ]}.

(** [func() int { n++; return n - 1 }] for a captured counter [n]. *)
Definition counter : Components nat :=
  {[ "Port" := Some (Dyn (TFunc [] [TInt]) (fun n _ => ([AInt (Z.of_nat n)], S n))) ]}.

(** A depends on B and C, B depends on C. *)
Definition diamond : Components unit :=
  <["A" := plus [("B", TInt); ("C", TInt)]]>
    (<["B" := plus [("C", TInt)]]> (<["C" := constant [TInt] [AInt 1]]> ∅)).





(** A component that depends on one whose constructor has no result type. *)
Definition depends_on_error_only : Components unit :=
  <["Init" := constant [TError] [ANil]]> (<["Server" := plus [("Init", TInt)]]> ∅).

Definition depends_on_no_output : Components unit :=
  <["Init" := constant [] []]> (<["Server" := plus [("Init", TInt)]]> ∅).

(** A depends on the undefined X, B is nil. *)
Definition two_faults : Components unit :=
  <["A" := plus [("X", TInt)]]> (<["B" := None]> ∅).

(** A expects a string B, which is an int, and depends on the undefined X. *)
Definition two_faults_in_one : Components unit :=
  <["A" := plus [("B", TString); ("X", TInt)]]> (<["B" := constant [TInt] [AInt 1]]> ∅).

(** TestAcyclicLoader of loader_test.go; the world is the
    variable [i] that [StaticInt] returns. *)
Definition TestAcyclicLoader : Components Z :=
  <["StaticInt" := Some (Dyn (TFunc [] [TInt]) (fun i _ => ([AInt i], i)))]>
    (<["Plus7" := Some (Dyn (TFunc [TStruct [("StaticInt", TInt)]] [TInt])
                            (fun i args => ([AInt (Tests.int_of args 0 + 7)], i)))]> ∅).

(** The loader built from [components], nothing loaded. *)
Definition built {W} (components : Components W) (order : list string) (w : W)
    : outcome (machine W * gmap string nat) :=
  do '(h, a) <- New [] components order;
  Ok (Machine h w [] [], a).

(** A caller invokes [Load(name)]. *)
Definition and_Load {W} (name : string) (s : outcome (machine W * gmap string nat))
    : outcome (machine W * gmap string nat) :=
  do '(m, a) <- s; Ok (go_Load a name m, a).

Definition one_Load {W} (components : Components W) (order : list string) (w : W)
    (name : string) : outcome (machine W * gmap string nat) :=
  and_Load name (built components order w).

(** Two callers invoke [Load(name)] before either has the mutex. *)
Definition two_Loads {W} (components : Components W) (order : list string) (w : W)
    (name : string) : outcome (machine W * gmap string nat) :=
  and_Load name (and_Load name (built components order w)).

Definition then_run {W} (schedule : list nat) (s : outcome (machine W * gmap string nat))
    : outcome (machine W * gmap string nat) :=
  do '(m, a) <- s;
  do m' <- run schedule m;
  Ok (m', a).

(** [a.WithOverwrites(values)], the calls of [Load] going on as they are. *)
Definition with_overwrites {W} (values : gmap string any)
    (s : outcome (machine W * gmap string nat)) : outcome (machine W * gmap string nat) :=
  do '(m, a) <- s;
  do '(h, a2) <- WithOverwrites (cells m) a values;
  Ok (Machine h (world m) (threads m) (calls m), a2).

Definition result_of {W} (tid : nat) (s : outcome (machine W * gmap string nat))
    : outcome (option thread) :=
  do '(m, a) <- s; Ok (threads m !! tid).

Definition state_of {W} (name : string) (s : outcome (machine W * gmap string nat))
    : outcome (option LoadState) :=
  do '(m, a) <- s; Ok (state <$> cell (cells m) a name).

Definition calls_of {W} (s : outcome (machine W * gmap string nat)) : outcome (list call) :=
  do '(m, a) <- s; Ok (calls m).

(** What a call returned that did not fail. *)
Definition get {A} (d : A) (o : outcome A) : A :=
  match o with Ok x => x | _ => d end.



(** The heap and the loader [New] builds from [TestAcyclicLoader]. *)
Definition test_built : heap Z * gmap string nat :=
  get ([], ∅) (New [] TestAcyclicLoader ["StaticInt"; "Plus7"]).

(** [TestSelfDependency] after the first and the second loop of [New]. *)
Definition self_populated : heap unit * gmap string nat :=
  get ([], ∅) (populate Tests.TestSelfDependency (merge_sort string_le ["A"]) [] ∅).

Definition self_resolved : heap unit :=
  get [] (resolve (merge_sort string_le ["A"]) self_populated.1 self_populated.2).

(** [loader.Load("Plus7")] has returned 12. *)
Definition Plus7_loaded : outcome (machine Z * gmap string nat) :=
  then_run [0; 1; 1; 1; 0; 0; 0]
    (one_Load TestAcyclicLoader ["StaticInt"; "Plus7"] 5%Z "Plus7").

(** The two callers of [Load("Port")] have both called the constructor;
    the first has stored its result. *)
Definition racing : outcome (machine nat * gmap string nat) :=
  then_run [0; 1; 0; 1; 0] (two_Loads counter ["Port"] 0 "Port").

End Cases.

Import Cases.

(** ** Messages and callers that panic *)

(** The [Error] methods of errors.go.  [fmt] prints a nil error under [%s]
    as [%!s(<nil>)]; an error of another package prints its own message. *)
Fixpoint Error (e : error) : string :=
  match e with
  | ForeignError msg => msg
  | DependencyLoadError trace err =>
      "failed to load dependency " +:+ Join trace " -> " +:+ ": " +:+
      match err with
      | Some e' => Error e'
      | None => "%!s(<nil>)"
      end
  | UndefinedComponentError name =>
      "cannot load undefined component '" +:+ name +:+ "'"
  | ComponentDefinitionError _ message => message
  end.

(** What a function does that returns one value or panics: [panic(err)]
    carries the error, a run-time panic carries none. *)
Inductive must (A : Type) : Type :=
| Returns (x : A)
| PanicsWith (e : error)
| PanicsAtRunTime
| Unfinished.

Arguments Returns {A} x.
Arguments PanicsWith {A} e.
Arguments PanicsAtRunTime {A}.
Arguments Unfinished {A}.

Section Callers.
Context {World : Type} {U : Unicode}.
Implicit Types (h : heap World) (a : gmap string loc) (m : machine World).

(** [Components.AsLoader]. *)
Definition AsLoader h (c : Components World) (order : list string)
    : must (heap World * gmap string loc) :=
  match New h c order with
  | Ok a => Returns a
  | Fail err => PanicsWith err
  | Panic => PanicsAtRunTime
  | OutOfFuel => Unfinished
  end.

(** [AcyclicLoader.MustLoad] after its call of [Load]: what it does with
    the pair once [Load] stands at [t], nothing before [Load] returned. *)
Definition MustLoad (t : thread) : option (must any) :=
  match t with
  | Returned v None => Some (Returns v)
  | Returned _ (Some err) => Some (PanicsWith err)
  | _ => None
  end.

(** [Components.MustLoad] up to its call of [Load]: the loader is built in
    the heap of [m] and the call is the new last thread; [MustLoad] reads
    its result. *)
Definition Components_MustLoad (c : Components World) (order : list string)
    (component : string) m : must (machine World * gmap string loc) :=
  match AsLoader (cells m) c order with
  | Returns (h, a) =>
      Returns (go_Load a component
                 {| cells := h; world := world m; threads := threads m; calls := calls m |},
               a)
  | PanicsWith err => PanicsWith err
  | PanicsAtRunTime => PanicsAtRunTime
  | Unfinished => Unfinished
  end.

(** ** Mappings as [New] reads them *)

(** [order] lists the keys of the mapping, each once: an order in which
    [range] may yield them. *)
Definition ranges (c : Components World) (order : list string) : Prop :=
  NoDup order /\ dom c = list_to_set order.

(** The result type the first loop of [New] stores for a function of
    type [t]. *)
Definition value_type (t : type) : option type :=
  match Out t with
  | [o] => if type_eqb o typeOfError then None else Some o
  | [o0; _] => Some o0
  | _ => None
  end.

(** [x] has a struct parameter with a field named [y]. *)
Definition depends_on (c : Components World) (x y : string) : Prop :=
  exists f fields, c !! x = Some (Some f) /\ In_ (dyn_type f) = [TStruct fields] /\
    y ∈ fields.*1.

Fixpoint chain (c : Components World) (p : list string) : Prop :=
  match p with
  | x :: p' => match p' with y :: _ => depends_on c x y | [] => True end /\ chain c p'
  | [] => True
  end.

(** The definition of [name] passes every check of the first two loops of
    [New]: a function with at most two results, the second an error, and
    with no parameter or one struct whose fields name components of the
    field's type. *)
Definition valid_component (c : Components World) (name : string) : Prop :=
  exists f, c !! name = Some (Some f) /\ is_func (dyn_type f) = true /\
    length (Out (dyn_type f)) <= 2 /\
    (forall o, Out (dyn_type f) !! 1 = Some o -> o = typeOfError) /\
    (In_ (dyn_type f) = [] \/
     exists fields, In_ (dyn_type f) = [TStruct fields] /\
       forall field, field ∈ fields ->
         exists g, c !! field.1 = Some (Some g) /\ value_type (dyn_type g) = Some field.2).

(** What every cell of a loader under construction holds. *)
Definition built_from (c : Components World) h a : Prop :=
  forall n k, cell h a n = Some k ->
    c !! n = Some (Some (fn k)) /\ result k = value_type (dyn_type (fn k)) /\
    value k = ANil /\ err k = None /\ loaded k = false /\ loading k = false.

(** The dependencies of [k] are resolved: its constructor takes nothing or
    one struct, the dependencies are the fields of the struct, and each
    field names a component of the field's type. *)
Definition resolved h a (k : component World) : Prop :=
  (In_ (dyn_type (fn k)) = [] \/ exists fields, In_ (dyn_type (fn k)) = [TStruct fields]) /\
  dependencies k = (struct_fields k).*1 /\
  Forall (fun field => exists d, cell h a field.1 = Some d /\ result d = Some field.2)
         (struct_fields k).

(** ** The checks of [New], one at a time *)

(** The definition of [name] passes the checks of the first loop: it is a
    function with at most two results, the second one an error. *)
Definition well_defined (c : Components World) (name : string) : Prop :=
  exists f, c !! name = Some (Some f) /\ is_func (dyn_type f) = true /\
    length (Out (dyn_type f)) <= 2 /\
    (forall o, Out (dyn_type f) !! 1 = Some o -> o = typeOfError).

(** The definition of [name] fails a check of the first loop, and [e] is
    the error of that check. *)
Inductive definition_error (c : Components World) (name : string) : error -> Prop :=
| nil_definition :
    c !! name = None \/ c !! name = Some None ->
    definition_error c name
      (ComponentDefinitionError name
         ("expected definition of '" +:+ name +:+ "' to be a function, but found nil"))
| not_a_function f :
    c !! name = Some (Some f) -> is_func (dyn_type f) = false ->
    definition_error c name
      (ComponentDefinitionError name
         ("expected definition of '" +:+ name +:+ "' to be a function, but found " +:+
          type_String (dyn_type f)))
| too_many_results f :
    c !! name = Some (Some f) -> is_func (dyn_type f) = true ->
    2 < length (Out (dyn_type f)) ->
    definition_error c name
      (ComponentDefinitionError name
         ("expected no more than 2 results from '" +:+ name +:+ "', but found " +:+
          pretty (length (Out (dyn_type f))) +:+ " outputs"))
| second_result_no_error f o0 o1 :
    c !! name = Some (Some f) -> is_func (dyn_type f) = true ->
    Out (dyn_type f) = [o0; o1] -> o1 <> typeOfError ->
    definition_error c name
      (ComponentDefinitionError name
         ("expected 2nd result from '" +:+ name +:+ "' to have error type, but found " +:+
          type_String o1)).

(** The field names one of the components [names], and the result type of
    that component is the type of the field. *)
Definition field_ok (c : Components World) (names : list string)
    (field : string * type) : Prop :=
  field.1 ∈ names /\
  exists g, c !! field.1 = Some (Some g) /\ value_type (dyn_type g) = Some field.2.

(** The definition of [name] passes the checks of the second loop: no
    parameter, or one struct every field of which is fine. *)
Definition dependencies_ok (c : Components World) (names : list string)
    (name : string) : Prop :=
  exists f, c !! name = Some (Some f) /\
    (In_ (dyn_type f) = [] \/
     exists fields, In_ (dyn_type f) = [TStruct fields] /\ Forall (field_ok c names) fields).

(** The definition of [name] fails a check of the second loop, and [e] is
    the error of that check.  The fields are checked in their order, each
    for being defined and then for its type: the error is the one of the
    first field that fails, [before] being the fields that pass. *)
Inductive dependency_error (c : Components World) (names : list string) (name : string)
    : error -> Prop :=
| too_many_parameters f :
    c !! name = Some (Some f) -> 1 < length (In_ (dyn_type f)) ->
    dependency_error c names name
      (ComponentDefinitionError name
         ("expected no more than 1 input parameter for '" +:+ name +:+ "', but found " +:+
          pretty (length (In_ (dyn_type f)))))
| parameter_no_struct f input :
    c !! name = Some (Some f) -> In_ (dyn_type f) = [input] -> is_struct input = false ->
    dependency_error c names name
      (ComponentDefinitionError name
         ("expected input parameter for '" +:+ name +:+ "' to be a struct, but found " +:+
          type_String input))
| undefined_dependency f before field after :
    c !! name = Some (Some f) ->
    In_ (dyn_type f) = [TStruct (before ++ field :: after)] ->
    Forall (field_ok c names) before ->
    field.1 ∉ names ->
    dependency_error c names name
      (ComponentDefinitionError name
         ("'" +:+ name +:+ "' depends on undefined component '" +:+ field.1 +:+ "'"))
| dependency_type_mismatch f before field after g r :
    c !! name = Some (Some f) ->
    In_ (dyn_type f) = [TStruct (before ++ field :: after)] ->
    Forall (field_ok c names) before ->
    field.1 ∈ names -> c !! field.1 = Some (Some g) ->
    value_type (dyn_type g) = Some r -> r <> field.2 ->
    dependency_error c names name
      (ComponentDefinitionError name
         ("'" +:+ name +:+ "' depends on component '" +:+ field.1 +:+ "' with type " +:+
          type_String r +:+ ", but '" +:+ name +:+ "' expects " +:+ type_String field.2)).

(** ** Derived loaders and calls *)

(** Some walk from [x] ends in a key of the overwrite mapping. *)
Definition reaches_overwrite h a (values : gmap string any) (x : string) : Prop :=
  exists q y, walk h a (x :: q) /\ last (x :: q) = Some y /\ is_Some (values !! y).

(** The values of the components [deps], in order: what [Load] sets in
    the fields of the argument struct. *)
Definition values_of h a (deps : list string) : list any :=
  omap (fun dep => value <$> cell h a dep) deps.

(** The calls of [Load] that [Load] starts for [deps]: one for every
    dependency that is not loading. *)
Definition spawned h a (deps : list string) : list thread :=
  omap (fun dep => match cell h a dep with
                   | Some d => if loading d then None else Some (Start a dep)
                   | None => None
                   end) deps.

(** ** When Load cannot panic *)






End Callers.

(** More inputs and scenarios. *)
Module Scenarios.
Import Cases.

(** [func(options struct{}) int { return 1 }] *)
Definition empty_struct : Components unit :=
  {[ "A" := Some (Dyn (TFunc [TStruct []] [TInt]) (fun w _ => ([AInt 1], w))) ]}.

Definition empty_struct_built : heap unit * gmap string nat :=
  get ([], ∅) (New [] empty_struct ["A"]).

(** Server depends on port through a field that is not exported:
    [func(options struct{ port int }) int]. *)
Definition unexported_field : Components unit :=
  <["Server" := plus [("port", TInt)]]> (<["port" := constant [TInt] [AInt 1]]> ∅).

Definition field_built : heap unit * gmap string nat :=
  get ([], ∅) (New [] unexported_field ["Server"; "port"]).

(** [Load("Server")] waited for port; [Load("port")] ran and woke it. *)
Definition field_woken : machine unit :=
  get (Machine [] tt [] [])
      (run [0; 1; 1; 1] (go_Load field_built.2 "Server" (Machine field_built.1 tt [] []))).

(** The loader of TestAcyclicLoader, nothing loaded, [StaticInt] being 5. *)
Definition test_fresh : machine Z := Machine test_built.1 5%Z [] [].

(** [Load("Plus7")] has returned 12, and so has the [Load("StaticInt")] it
    started. *)
Definition test_loaded : machine Z :=
  get test_fresh (run [0; 1; 1; 1; 0; 0; 0] (go_Load test_built.2 "Plus7" test_fresh)).

(** [Load("StaticInt")] has returned 5. *)
Definition StaticInt_loaded : machine Z :=
  get test_fresh (run [0; 0; 0] (go_Load test_built.2 "StaticInt" test_fresh)).

(** Then a caller invokes [Load("Plus7")]. *)
Definition test_ready : machine Z := go_Load test_built.2 "Plus7" StaticInt_loaded.

(** The machine after a first [counter.MustLoad("Port")] has returned 0. *)
Definition counter_once : machine nat :=
  match Components_MustLoad counter ["Port"] "Port" (Machine [] 0 [] []) with
  | Returns (m1, _) => get m1 (run [0; 0; 0] m1)
  | _ => Machine [] 0 [] []
  end.

(** The second [counter.MustLoad("Port")]. *)
Definition counter_twice : machine nat * gmap string nat :=
  match Components_MustLoad counter ["Port"] "Port" counter_once with
  | Returns r => r
  | _ => (counter_once, ∅)
  end.

End Scenarios.

Import Scenarios.

(** * Proofs *)

Set Warnings "-clear-no-such-hyp".

(** ** Exported names *)

(** On a name that starts with an ASCII character the table of the
    upper-case letters is not read. *)
Lemma exported_ASCII (U1 U2 : Unicode) c name :
  Ascii.nat_of_ascii c < 128 →
  @exported U1 (String c name) = @exported U2 (String c name).
Proof. intros H. unfold exported. by rewrite (proj2 (Nat.ltb_lt _ _) H). Qed.

(** ** Outcomes *)

Lemma outcome_bind_ok {A B} (m : outcome A) (k : A → outcome B) b :
  bind m k = Ok b ↔ ∃ x, m = Ok x ∧ k x = Ok b.
Proof. destruct m; simpl; naive_solver. Qed.

Lemma nil_guard_ok {A} (x : option A) y : nil_guard x = Ok y ↔ x = Some y.
Proof. destruct x; simpl; naive_solver. Qed.

Lemma outcome_bind_fail {A B} (m : outcome A) (k : A → outcome B) e :
  bind m k = Fail e ↔ m = Fail e ∨ ∃ x, m = Ok x ∧ k x = Fail e.
Proof. destruct m; simpl; naive_solver. Qed.

Ltac inv_bind H :=
  let x := fresh "x" in let Hx := fresh "H" x in
  apply outcome_bind_ok in H as (x & Hx & H).


(** ** The order of the names and the identity of types *)

Lemma ascii_compare_trans c1 c2 c3 r :
  Ascii.compare c1 c2 = r -> Ascii.compare c2 c3 = r -> Ascii.compare c1 c3 = r.
Proof.
  unfold Ascii.compare. intros H1 H2. destruct r.
  - apply N.compare_eq_iff in H1, H2. apply N.compare_eq_iff. congruence.
  - rewrite N.compare_lt_iff in *. lia.
  - rewrite N.compare_gt_iff in *. lia.
Qed.

Lemma string_compare_le_trans s1 : forall s2 s3,
  String.compare s1 s2 <> Gt -> String.compare s2 s3 <> Gt -> String.compare s1 s3 <> Gt.
Proof.
  induction s1 as [|c1 s1 IH]; intros [|c2 s2] [|c3 s3]; simpl; try congruence.
  destruct (Ascii.compare c1 c2) eqn:E12; try congruence;
  destruct (Ascii.compare c2 c3) eqn:E23; try congruence; intros H1 H2.
  - rewrite (ascii_compare_trans _ _ _ _ E12 E23). eauto.
  - apply Ascii.compare_eq_iff in E12. subst. rewrite E23. congruence.
  - apply Ascii.compare_eq_iff in E23. subst. rewrite E12. congruence.
  - rewrite (ascii_compare_trans _ _ _ _ E12 E23). congruence.
Qed.

#[export] Instance string_le_trans : Transitive string_le.
Proof.
  intros s1 s2 s3. unfold string_le, String.leb. intros H1 H2.
  pose proof (string_compare_le_trans s1 s2 s3).
  destruct (String.compare s1 s2), (String.compare s2 s3), (String.compare s1 s3); try done; exfalso; apply H; congruence.
Qed.
#[export] Instance string_le_total : Total string_le.
Proof. intros s1 s2. apply String.leb_total. Qed.
#[export] Instance string_le_antisym : AntiSymm eq string_le.
Proof. intros s1 s2. apply String.leb_antisym. Qed.

Lemma sort_order (o1 o2 : list string) : o1 ≡ₚ o2 -> merge_sort string_le o1 = merge_sort string_le o2.
Proof.
  intros Hp. apply (Sorted_unique string_le); try apply Sorted_merge_sort; try apply _.
  by rewrite !merge_sort_Permutation.
Qed.

Lemma type_eqb_eq : ∀ t1 t2, type_eqb t1 t2 = true ↔ t1 = t2.
Proof.
  fix IH 1. intros [ | | | |f1|i1 o1] [ | | | |f2|i2 o2]; simpl; try (split; congruence).
  - revert f2. induction f1 as [|[n1 t1] f1 IHf]; intros [|[n2 t2] f2]; try (split; congruence).
    simpl. rewrite !andb_true_iff, String.eqb_eq, (IH t1 t2), IHf.
    split; [intros [[-> ->] [= ->]]; done|intros [= -> -> ->]; done].
  - assert (∀ l1 l2 : list type,
      (fix types_eqb (l1 l2 : list type) : bool :=
         match l1, l2 with
         | [], [] => true
         | x1 :: r1, x2 :: r2 => type_eqb x1 x2 && types_eqb r1 r2
         | _, _ => false
         end) l1 l2 = true ↔ l1 = l2) as Hl.
    { induction l1 as [|x1 l1 IHl]; intros [|x2 l2]; try (split; congruence).
      rewrite andb_true_iff, (IH x1 x2), IHl. split; [intros [-> ->]; done|intros [= -> ->]; done]. }
    rewrite andb_true_iff, !Hl. split; [intros [-> ->]; done|intros [= -> ->]; done].
Qed.

Section Facts.
Context {World : Type} {U : Unicode}.
Implicit Types (h : heap World) (a : gmap string nat) (m : machine World).

(** ** detectCycles *)

Lemma index_of_None dep path : index_of dep path = None ↔ dep ∉ path.
Proof.
  induction path as [|n path IH]; simpl.
  - split; [intros _; apply not_elem_of_nil | done].
  - destruct (String.eqb_spec n dep) as [->|Hne].
    + split; [done | intros []; left].
    + rewrite not_elem_of_cons, <- IH. destruct (index_of dep path); simpl; naive_solver.
Qed.

Lemma index_of_Some dep path i :
  index_of dep path = Some i → path !! i = Some dep ∧ dep ∉ take i path.
Proof.
  revert i. induction path as [|n path IH]; simpl; intros i; [done|].
  destruct (String.eqb_spec n dep) as [->|Hne].
  - intros [= <-]. split; [done | apply not_elem_of_nil].
  - destruct (index_of dep path) as [j|]; simpl; [|done].
    intros [= <-]. destruct (IH j eq_refl) as [? ?]. simpl.
    split; [done|]. rewrite not_elem_of_cons. naive_solver.
Qed.

Lemma walk_app_edge h a p x y :
  walk h a (p ++ [x]) → edge h a x y → walk h a (p ++ [x; y]).
Proof.
  induction p as [|z p IH]; simpl.
  - intros _ He. done.
  - intros [Hz Hw] He. split; [|by apply IH].
    destruct p; simpl in *; done.
Qed.

Lemma walk_cons_inv h a x y q : walk h a (x :: y :: q) → edge h a x y ∧ walk h a (y :: q).
Proof. simpl. naive_solver. Qed.

Lemma detect_over_none recur path deps :
  detect_over recur path deps = Ok None →
  Forall (λ d, index_of d path = None ∧ recur d (path ++ [d]) = Ok None) deps.
Proof.
  induction deps as [|d deps IH]; simpl; [constructor|].
  destruct (index_of d path) eqn:Hi; [done|].
  destruct (recur d (path ++ [d])) as [[cy|]| | |] eqn:Hr; try done.
  intros H. constructor; auto.
Qed.

Lemma detect_over_some recur path deps cycle :
  detect_over recur path deps = Ok (Some cycle) →
  ∃ d, d ∈ deps ∧
    ((∃ i, index_of d path = Some i ∧ cycle = drop i path ++ [d]) ∨
     (index_of d path = None ∧ recur d (path ++ [d]) = Ok (Some cycle))).
Proof.
  induction deps as [|d deps IH]; simpl; [done|].
  destruct (index_of d path) as [i|] eqn:Hi.
  - intros [= <-]. exists d. split; [left|]. left. eauto.
  - destruct (recur d (path ++ [d])) as [[cy|]| | |] eqn:Hr; try done.
    + intros [= <-]. exists d. split; [left|]. right. eauto.
    + intros H. destruct (IH H) as (d' & ? & ?). exists d'. split; [by right|done].
Qed.

Lemma cell_bind h a x : (a !! x) ≫= (λ l, h !! l) = cell h a x.
Proof. unfold cell. by destruct (a !! x). Qed.

Lemma detectCycles_none fuel h a : ∀ p x,
  NoDup (p ++ [x]) →
  detectCycles fuel h a (a !! x) (p ++ [x]) = Ok None →
  ∀ q, walk h a (x :: q) → NoDup (p ++ x :: q).
Proof.
  induction fuel as [|fuel IH]; intros p x Hnd; simpl; [done|].
  rewrite cell_bind. intros H q.
  apply outcome_bind_ok in H as (c & Hc & H). apply nil_guard_ok in Hc.
  apply detect_over_none in H.
  destruct q as [|y q]; [done|].
  intros [[c' [Hc' Hy]] Hw]. rewrite Hc in Hc'. injection Hc' as <-.
  rewrite Forall_forall in H. destruct (H y Hy) as [Hi Hr].
  apply index_of_None in Hi.
  replace (p ++ x :: y :: q) with ((p ++ [x]) ++ y :: q) by (by rewrite <- app_assoc).
  apply IH; [|done|done].
  apply NoDup_app. split_and!; [done| |apply NoDup_singleton].
  intros z Hz Hz'%list_elem_of_singleton. by subst.
Qed.

Lemma detectCycles_some fuel h a : ∀ p x cycle,
  NoDup (p ++ [x]) →
  detectCycles fuel h a (a !! x) (p ++ [x]) = Ok (Some cycle) →
  ∃ q d i, walk h a (x :: q ++ [d]) ∧ NoDup (p ++ x :: q) ∧
           (p ++ x :: q) !! i = Some d ∧ cycle = drop i (p ++ x :: q) ++ [d].
Proof.
  induction fuel as [|fuel IH]; intros p x cycle Hnd; simpl; [done|].
  rewrite cell_bind. intros H.
  apply outcome_bind_ok in H as (c & Hc & H). apply nil_guard_ok in Hc.
  apply detect_over_some in H as (d & Hd & [(i & Hi & ->)|[Hi Hr]]).
  - exists [], d, i. apply index_of_Some in Hi as [? ?].
    split; [simpl; split; [by exists c|done]|]. done.
  - apply index_of_None in Hi.
    assert (NoDup ((p ++ [x]) ++ [d])) as Hnd'.
    { apply NoDup_app. split_and!; [done| |apply NoDup_singleton].
      intros z Hz Hz'%list_elem_of_singleton. by subst. }
    destruct (IH _ _ _ Hnd' Hr) as (q & d' & i & Hw & Hn & Hl & ->).
    exists (d :: q), d', i.
    replace (p ++ x :: d :: q) with ((p ++ [x]) ++ d :: q) by (by rewrite <- app_assoc).
    split; [|done]. split; [by exists c|]. apply Hw.
Qed.

Lemma detect_over_never_fails recur path deps e :
  (∀ d p, recur d p ≠ Fail e) → detect_over recur path deps ≠ Fail e.
Proof.
  intros Hr. induction deps as [|d deps IH]; simpl; [done|].
  destruct (index_of d path); [done|].
  destruct (recur d (path ++ [d])) as [[cy|]| | |] eqn:E; try done.
  intros [= ->]. by eapply Hr.
Qed.

Lemma NoDup_within_size a (p : list string) :
  NoDup p → (∀ y, y ∈ p → is_Some (a !! y)) → (List.length p ≤ size a)%nat.
Proof.
  intros Hnd Hin.
  rewrite <- size_dom, <- (size_list_to_set (C:=gset string) p) by done.
  apply subseteq_size. intros y Hy%elem_of_list_to_set. apply elem_of_dom. auto.
Qed.

Lemma detectCycles_ok fuel h a :
  closed h a → ∀ p x,
  NoDup (p ++ [x]) → (∀ y, y ∈ p ++ [x] → is_Some (cell h a y)) →
  (size a ≤ fuel + List.length p)%nat →
  ∃ r, detectCycles fuel h a (a !! x) (p ++ [x]) = Ok r.
Proof.
  intros Hcl. induction fuel as [|fuel IH]; intros p x Hnd Hin Hsz.
  - exfalso. pose proof (NoDup_within_size a (p ++ [x]) Hnd) as Hle.
    rewrite length_app in Hle. simpl in *.
    assert (length p + 1 ≤ size a); [|lia]. apply Hle.
    intros y Hy. destruct (Hin y Hy) as [c Hc]. unfold cell in Hc.
    destruct (a !! y); [eauto|done].
  - simpl. rewrite cell_bind.
    destruct (Hin x) as [c Hc]; [apply elem_of_app; right; left|].
    rewrite Hc. simpl.
    assert (∀ d, d ∈ dependencies c → edge h a x d) as He by (intros; by exists c).
    revert He. generalize (dependencies c) as deps.
    induction deps as [|d deps IHd]; intros He; simpl; [eauto|].
    destruct (index_of d (p ++ [x])) as [i|] eqn:Hi; [eauto|].
    apply index_of_None in Hi.
    destruct (IH (p ++ [x]) d) as [r Hr].
    + apply NoDup_app. split_and!; [done| |apply NoDup_singleton].
      intros z Hz Hz'%list_elem_of_singleton. by subst.
    + intros y [Hy|Hy%list_elem_of_singleton]%elem_of_app; [auto|]. subst y.
      apply (Hcl x). apply He. left.
    + rewrite length_app. simpl. lia.
    + rewrite Hr. destruct r; [eauto|]. apply IHd. intros d' Hd'. apply He. by right.
Qed.

(** ** New *)

Lemma define_no_dependencies (comps : Components World) name c :
  define comps name = Ok c → dependencies c = [] ∧ loaded c = false ∧ loading c = false.
Proof.
  unfold define. destruct (comps !! name) as [[f|]|]; try done.
  destruct (negb _); [done|].
  intros (r & _ & [= <-])%outcome_bind_ok. done.
Qed.

Lemma populate_spec (comps : Components World) names : ∀ h a h1 a1,
  populate comps names h a = Ok (h1, a1) →
  (∀ n l, a !! n = Some l → l < length h) →
  (∀ n l, a1 !! n = Some l → l < length h1) ∧
  dom a1 = dom a ∪ list_to_set names ∧
  (∀ n l, a1 !! n = Some l →
     (a !! n = Some l ∧ h1 !! l = h !! l) ∨ (∃ c, h1 !! l = Some c ∧ define comps n = Ok c)).
Proof.
  induction names as [|name rest IH]; intros h a h1 a1; simpl.
  - intros [= <- <-] Hb. split_and!; [done|set_solver|].
    intros n l Hl. left. done.
  - intros (c & Hc & H)%outcome_bind_ok Hb.
    apply IH in H as (H1 & H2 & H4).
    2:{ intros n l. rewrite lookup_insert. case_decide.
        - intros [= <-]. rewrite length_app. simpl. lia.
        - intros ?%Hb. rewrite length_app. lia. }
    split_and!; [done| |].
    + rewrite H2, dom_insert_L. set_solver.
    + intros n l Hl. destruct (H4 n l Hl) as [[Hs Hh]|?]; [|by right].
      rewrite lookup_insert in Hs. case_decide.
      * injection Hs as <-. subst n. right. exists c. split; [|done].
        rewrite Hh. by rewrite lookup_app_r, Nat.sub_diag.
      * left. split; [done|]. rewrite Hh. apply lookup_app_l. eauto.
Qed.

Lemma populate_closed (comps : Components World) names h h1 a1 :
  populate comps names h ∅ = Ok (h1, a1) →
  closed h1 a1 ∧ (∀ n, n ∈ names ↔ is_Some (cell h1 a1 n)) ∧ dom a1 = list_to_set names.
Proof.
  intros H. apply populate_spec in H as (H1 & H2 & H3); [|by intros ???%lookup_empty_Some].
  assert (∀ n c, cell h1 a1 n = Some c → define comps n = Ok c) as Hdef.
  { intros n c. unfold cell. destruct (a1 !! n) as [l|] eqn:E; [|done].
    destruct (H3 n l E) as [[?%lookup_empty_Some _]|(c' & Hc' & ?)]; [done|]. congruence. }
  split_and!.
  - intros x y (c & Hc & Hy). apply Hdef, define_no_dependencies in Hc as [Hd _].
    rewrite Hd in Hy. by apply elem_of_nil in Hy.
  - intros n. rewrite <- (elem_of_list_to_set (C:=gset string)).
    replace (list_to_set names) with (dom a1) by set_solver.
    rewrite elem_of_dom. unfold cell. split.
    + intros [l Hl]. rewrite Hl. apply lookup_lt_is_Some. eauto.
    + destruct (a1 !! n); [eauto|by intros []].
  - set_solver.
Qed.

Lemma check_fields_spec h a name fields : ∀ deps deps',
  check_fields h a name fields deps = Ok deps' →
  deps' = deps ++ fields.*1 ∧ ∀ f, f ∈ fields.*1 → is_Some (cell h a f).
Proof.
  induction fields as [|field fields IH]; intros deps deps'; simpl.
  - intros [= <-]. rewrite app_nil_r. split; [done|by intros ??%elem_of_nil].
  - destruct (a !! field.1) as [l|] eqn:Ea; [|done].
    destruct (h !! l) as [dep|] eqn:Eh; [|done].
    destruct (negb _); [by destruct (nil_guard _)|].
    intros H. apply IH in H as [-> H]. rewrite <- app_assoc. split; [done|].
    intros f [->|?]%elem_of_cons; [|auto]. unfold cell. rewrite Ea, Eh. eauto.
Qed.

Lemma cell_insert_is_Some h a l c n :
  is_Some (cell (<[l := c]> h) a n) ↔ is_Some (cell h a n).
Proof.
  unfold cell. destruct (a !! n) as [l'|]; [|done].
  rewrite !lookup_lt_is_Some, length_insert. done.
Qed.

Lemma resolve_one_closed h a name h' :
  resolve_one h a name = Ok h' →
  closed h a → closed h' a ∧ (∀ n, is_Some (cell h' a n) ↔ is_Some (cell h a n)).
Proof.
  unfold resolve_one.
  intros (l & Hl%nil_guard_ok & (c & Hc%nil_guard_ok & H)%outcome_bind_ok)%outcome_bind_ok Hcl.
  destruct (In_ (dyn_type (fn c))) as [|input [|]]; [injection H as <-; done| |done].
  destruct input; try done.
  apply outcome_bind_ok in H as (deps & Hdeps & [= <-]).
  apply check_fields_spec in Hdeps as [-> Hdeps]. simpl in *.
  split; [|intros; apply cell_insert_is_Some].
  intros x y (c' & Hc' & Hy). apply cell_insert_is_Some.
  unfold cell in Hc'. destruct (a !! x) as [lx|] eqn:Ex; [|done].
  destruct (decide (lx = l)) as [->|Hne].
  - rewrite list_lookup_insert_eq in Hc' by (by eapply lookup_lt_Some). 
    injection Hc' as <-. simpl in Hy. auto.
  - rewrite list_lookup_insert_ne in Hc' by done.
    apply (Hcl x). exists c'. unfold cell. rewrite Ex. done.
Qed.

Lemma resolve_closed names : ∀ h a h',
  resolve names h a = Ok h' →
  closed h a → closed h' a ∧ (∀ n, is_Some (cell h' a n) ↔ is_Some (cell h a n)).
Proof.
  induction names as [|name rest IH]; intros h a h'; simpl.
  - intros [= <-]. done.
  - intros (h1 & H1 & H)%outcome_bind_ok Hcl.
    apply resolve_one_closed in H1 as [Hcl1 Hs1]; [|done].
    apply IH in H as [Hcl2 Hs2]; [|done]. split; [done|].
    intros n. by rewrite Hs2, Hs1.
Qed.


Lemma check_cycles_spec fuel h a : closed h a → size a ≤ fuel → ∀ names,
  (∀ n, n ∈ names → is_Some (cell h a n)) →
  (check_cycles fuel names h a = Ok tt ∧
     ∀ n q, n ∈ names → walk h a (n :: q) → NoDup (n :: q)) ∨
  (∃ p d i, walk h a (p ++ [d]) ∧ NoDup p ∧ p !! i = Some d ∧
     (∃ n, n ∈ names ∧ head p = Some n) ∧
     check_cycles fuel names h a =
       Fail (ComponentDefinitionError d (cycle_message (drop i p ++ [d])))).
Proof.
  intros Hcl Hsz. induction names as [|name rest IH]; intros Hin; simpl.
  - left. split; [done|]. by intros ?? ?%elem_of_nil.
  - destruct (detectCycles_ok fuel h a Hcl [] name) as [r Hr].
    { apply NoDup_singleton. }
    { intros y ->%list_elem_of_singleton. apply Hin. left. }
    { simpl. lia. }
    simpl in Hr. rewrite Hr. simpl. destruct r as [cycle|].
    + right. apply (detectCycles_some fuel h a [] name) in Hr as (q & d & i & Hw & Hn & Hl & ->);
        [|apply NoDup_singleton].
      simpl app in *. exists (name :: q), d, i. split_and!; try done.
      * exists name. split; [left|done].
      * rewrite (drop_S _ _ _ Hl). done.
    + destruct IH as [[-> Hwalks]|(p & d & i & ? & ? & ? & (n & ? & ?) & ->)].
      * intros n Hn. apply Hin. by right.
      * left. split; [done|]. intros n q [Heq|Hn]%elem_of_cons; [subst n|by apply Hwalks].
        intros Hw. apply (detectCycles_none fuel h a [] name); [apply NoDup_singleton|done|done].
      * right. exists p, d, i. split_and!; try done. exists n. split; [by right|done].
Qed.

Lemma NoDup_closed_walk (x : string) q : ¬ NoDup (x :: q ++ [x]).
Proof.
  intros [Hx _]%NoDup_cons. apply Hx. apply elem_of_app. right. left.
Qed.

Lemma merge_sort_elem (order : list string) n : n ∈ merge_sort string_le order ↔ n ∈ order.
Proof. by rewrite merge_sort_Permutation. Qed.

Lemma cycle_reported_general h (comps : Components World) order h1 a h2 :
  populate comps (merge_sort string_le order) h ∅ = Ok (h1, a) →
  resolve (merge_sort string_le order) h1 a = Ok h2 →
  (∃ x q, x ∈ order ∧ walk h2 a (x :: q ++ [x])) →
  ∃ p d i, walk h2 a (p ++ [d]) ∧ NoDup p ∧ p !! i = Some d ∧
    New h comps order =
      Fail (ComponentDefinitionError d (cycle_message (drop i p ++ [d]))).
Proof.
  intros Hp Hr (x & q & Hx & Hw). unfold New. rewrite Hp. simpl. rewrite Hr. simpl.
  apply populate_closed in Hp as (Hcl1 & Hn1 & Hd1).
  apply resolve_closed in Hr as [Hcl2 Hn2]; [|done].
  destruct (check_cycles_spec (S (size a)) h2 a Hcl2 ltac:(lia) (merge_sort string_le order))
    as [[_ Hwalks]|(p & d & i & ? & ? & ? & _ & ->)].
  - intros n Hn. apply Hn2, Hn1. done.
  - exfalso. apply (NoDup_closed_walk x q). apply Hwalks; [|done]. by apply merge_sort_elem.
  - exists p, d, i. done.
Qed.

Lemma populate_terminates (comps : Components World) names : ∀ h a,
  populate comps names h a ≠ OutOfFuel.
Proof.
  induction names as [|name rest IH]; intros h a; simpl; [done|].
  unfold define. destruct (comps !! name) as [[f|]|]; try done.
  destruct (negb _); [done|]. unfold declared_result.
  destruct (Out (dyn_type f)) as [|o0 [|o1 [|]]]; simpl; try done; try apply IH.
  destruct (type_eqb o1 typeOfError); simpl; [apply IH|done].
Qed.

Lemma check_fields_terminates h a name fields : ∀ deps,
  check_fields h a name fields deps ≠ OutOfFuel.
Proof.
  induction fields as [|field fields IH]; intros deps; simpl; [done|].
  destruct (a !! field.1); [|done]. destruct (h !! _); [|done].
  destruct (negb _); [|apply IH]. by destruct (result _).
Qed.

Lemma resolve_terminates names : ∀ h a, resolve names h a ≠ OutOfFuel.
Proof.
  induction names as [|name rest IH]; intros h a; simpl; [done|].
  unfold resolve_one. destruct (a !! name) as [l|]; simpl; [|done].
  destruct (h !! l) as [c|]; simpl; [|done].
  destruct (In_ (dyn_type (fn c))) as [|input [|]]; simpl; [apply IH| |done].
  destruct input; simpl; try done.
  pose proof (check_fields_terminates h a name fields []).
  destruct (check_fields h a name fields []); simpl; done.
Qed.

(** The fuel [New] gives [detectCycles] always suffices. *)
Lemma New_terminates h (comps : Components World) order :
  New h comps order ≠ OutOfFuel.
Proof.
  unfold New.
  pose proof (populate_terminates comps (merge_sort string_le order) h ∅) as Hp.
  destruct (populate _ _ _ _) as [[h1 a]| | |] eqn:Ep; simpl; try done.
  pose proof (resolve_terminates (merge_sort string_le order) h1 a) as Hr.
  destruct (resolve _ _ _) as [h2| | |] eqn:Er; simpl; try done.
  apply populate_closed in Ep as (Hcl1 & Hn1 & Hd1).
  apply resolve_closed in Er as [Hcl2 Hn2]; [|done].
  destruct (check_cycles_spec (S (size a)) h2 a Hcl2 ltac:(lia) (merge_sort string_le order))
    as [[-> _]|(p & d & i & ? & ? & ? & _ & ->)]; try done.
  intros n Hn. apply Hn2, Hn1. done.
Qed.

Lemma populate_fail (comps : Components World) names : ∀ h a e,
  populate comps names h a = Fail e →
  ∃ pre n post, names = pre ++ n :: post ∧
    Forall (λ n', ∃ c, define comps n' = Ok c) pre ∧ define comps n = Fail e.
Proof.
  induction names as [|name rest IH]; intros h a e; simpl; [done|].
  intros [H|(c & Hc & H)]%outcome_bind_fail.
  - exists [], name, rest. split_and!; [done|constructor|done].
  - apply IH in H as (pre & n & post & -> & Hpre & Hn).
    exists (name :: pre), n, post. split_and!; [done| |done]. constructor; eauto.
Qed.

Lemma resolve_fail names : ∀ h a e,
  resolve names h a = Fail e →
  ∃ pre n post h', names = pre ++ n :: post ∧
    resolve pre h a = Ok h' ∧ resolve_one h' a n = Fail e.
Proof.
  induction names as [|name rest IH]; intros h a e; simpl; [done|].
  intros [H|(h1 & Hh1 & H)]%outcome_bind_fail.
  - exists [], name, rest, h. done.
  - apply IH in H as (pre & n & post & h' & -> & Hpre & Hn).
    exists (name :: pre), n, post, h'. split_and!; [done| |done]. simpl. by rewrite Hh1.
Qed.

Lemma detectCycles_never_fails fuel h a : ∀ c path e,
  detectCycles fuel h a c path ≠ Fail e.
Proof.
  induction fuel as [|fuel IH]; intros c path e; simpl; [done|].
  destruct (c ≫= _) as [c'|]; simpl; [|done].
  apply detect_over_never_fails. intros d p. apply IH.
Qed.

Lemma check_cycles_fail fuel names h a : ∀ e,
  check_cycles fuel names h a = Fail e →
  ∃ pre n post cycle, names = pre ++ n :: post ∧
    check_cycles fuel pre h a = Ok tt ∧
    detectCycles fuel h a (a !! n) [n] = Ok (Some cycle) ∧
    e = ComponentDefinitionError (default "" (head cycle)) (cycle_message cycle).
Proof.
  induction names as [|name rest IH]; intros e; simpl; [done|].
  intros [H|(r & Hr & H)]%outcome_bind_fail; [by apply detectCycles_never_fails in H|].
  destruct r as [cycle|].
  - injection H as <-. exists [], name, rest, cycle. done.
  - apply IH in H as (pre & n & post & cycle & -> & Hpre & Hn & ->).
    exists (name :: pre), n, post, cycle. split_and!; try done. simpl. by rewrite Hr.
Qed.

Lemma resolve_length names : ∀ h a h', resolve names h a = Ok h' → length h' = length h.
Proof.
  induction names as [|name rest IH]; intros h a h'; simpl; [by intros [= <-]|].
  intros (h1 & H1 & H)%outcome_bind_ok. apply IH in H. rewrite H.
  unfold resolve_one in H1.
  apply outcome_bind_ok in H1 as (l & _ & (c & _ & H1)%outcome_bind_ok).
  destruct (In_ (dyn_type (fn c))) as [|input [|]]; [by injection H1 as <-| |done].
  destruct input; try done.
  apply outcome_bind_ok in H1 as (deps & _ & [= <-]). by rewrite length_insert.
Qed.

Lemma New_wf h0 (comps : Components World) order h a :
  New h0 comps order = Ok (h, a) →
  allocated h a ∧ closed h a ∧ acyclic h a ∧ dom a = list_to_set order.
Proof.
  unfold New. intros H.
  apply outcome_bind_ok in H as ([h1 a1] & Hp & H).
  apply outcome_bind_ok in H as (h2 & Hr & H).
  apply outcome_bind_ok in H as ([] & Hc & [= <- <-]).
  pose proof (populate_spec comps _ _ _ _ _ Hp) as (Hb & _ & _); [by intros ???%lookup_empty_Some|].
  apply populate_closed in Hp as (Hcl1 & Hn1 & Hd1).
  pose proof (resolve_length _ _ _ _ Hr) as Hlen.
  apply resolve_closed in Hr as [Hcl2 Hn2]; [|done].
  split_and!.
  - intros n l Hl. rewrite Hlen. by apply (Hb n).
  - done.
  - destruct (check_cycles_spec (S (size a1)) h2 a1 Hcl2 ltac:(lia) (merge_sort string_le order))
      as [[_ Hwalks]|(p & d & i & ? & ? & ? & _ & Hf)].
    + intros n Hn. apply Hn2, Hn1. done.
    + intros x q Hx Hw. apply Hwalks; [|done]. apply Hn1, Hn2. done.
    + congruence.
  - rewrite Hd1. apply set_eq. intros n. rewrite !elem_of_list_to_set. apply merge_sort_elem.
Qed.

(** *** Updating a cell without touching its spec keeps the graph *)

Lemma cell_insert h a l c' x :
  cell (<[l := c']> h) a x =
  match a !! x with
  | Some lx => if decide (lx = l) then (if decide (l < length h) then Some c' else None) else h !! lx
  | None => None
  end.
Proof.
  unfold cell. destruct (a !! x) as [lx|]; [|done]. case_decide as E.
  - subst. case_decide.
    + by apply list_lookup_insert_eq.
    + rewrite list_insert_ge by lia. apply lookup_ge_None. lia.
  - by apply list_lookup_insert_ne.
Qed.

Lemma edge_insert h a l c c' x y :
  h !! l = Some c → same_spec c c' → edge (<[l := c']> h) a x y ↔ edge h a x y.
Proof.
  intros Hc (_ & _ & Hd). unfold edge. rewrite cell_insert. unfold cell.
  destruct (a !! x) as [lx|]; [|done]. case_decide; [|done]. subst lx.
  rewrite decide_True by (by eapply lookup_lt_Some). rewrite Hc.
  split; intros (c0 & [= <-] & Hy); eexists; (split; [done|]); congruence.
Qed.


Lemma populate_injective (comps : Components World) names : ∀ h a h1 a1,
  populate comps names h a = Ok (h1, a1) →
  (∀ n l, a !! n = Some l → l < length h) → injective a → injective a1.
Proof.
  induction names as [|name rest IH]; intros h a h1 a1; simpl.
  - by intros [= <- <-].
  - intros H Hb Hinj. inv_bind H. eapply IH; [done| |].
    + intros n l. rewrite lookup_insert. case_decide.
      * intros [= <-]. rewrite length_app. simpl. lia.
      * intros ?%Hb. rewrite length_app. lia.
    + intros n n' l. rewrite !lookup_insert. repeat case_decide; subst; try done.
      * intros [= <-] ?%Hb. lia.
      * intros ?%Hb [= <-]. lia.
      * apply Hinj.
Qed.

Lemma resolve_one_wired h a name h' :
  resolve_one h a name = Ok h' →
  (wired h a → wired h' a) ∧ (fresh h a → fresh h' a).
Proof.
  unfold resolve_one. intros H. inv_bind H. apply nil_guard_ok in Hx.
  inv_bind H. apply nil_guard_ok in Hx0.
  destruct (In_ (dyn_type (fn x0))) as [|input [|]] eqn:Ein; [by injection H as <-| |done].
  destruct input; try done. inv_bind H. injection H as <-.
  apply check_fields_spec in Hx1 as [-> _]. simpl.
  split.
  - intros Hw n c. rewrite cell_insert. destruct (a !! n) as [lx|] eqn:E; [|done].
    case_decide.
    + case_decide; [|done]. intros [= <-] _. simpl. rewrite Ein. eauto.
    + intros Hc. apply (Hw n). unfold cell. by rewrite E.
  - intros Hf n c. rewrite cell_insert. destruct (a !! n) as [lx|] eqn:E; [|done].
    case_decide.
    + subst lx. case_decide; [|done]. intros [= <-]. simpl. apply (Hf n).
      unfold cell. by rewrite E.
    + intros Hc. apply (Hf n). unfold cell. by rewrite E.
Qed.

Lemma resolve_wired names : ∀ h a h',
  resolve names h a = Ok h' →
  (wired h a → wired h' a) ∧ (fresh h a → fresh h' a).
Proof.
  induction names as [|name rest IH]; intros h a h'; simpl.
  - by intros [= <-].
  - intros H. inv_bind H. apply resolve_one_wired in Hx as [??].
    apply IH in H as [??]. split; auto.
Qed.

Lemma New_well_formed h0 (comps : Components World) order h a :
  New h0 comps order = Ok (h, a) → well_formed h a ∧ fresh h a ∧ acyclic h a.
Proof.
  intros HN. pose proof (New_wf _ _ _ _ _ HN) as (Hal & Hcl & Hac & _).
  unfold New in HN. inv_bind HN. destruct x as [h1 a1]. inv_bind HN. inv_bind HN.
  injection HN as <- <-.
  pose proof (populate_spec comps _ _ _ _ _ Hx) as (_ & _ & Hcells);
    [by intros ???%lookup_empty_Some|].
  assert (∀ n c, cell h1 a1 n = Some c → define comps n = Ok c) as Hdef.
  { intros n c. unfold cell. destruct (a1 !! n) as [l|] eqn:E; [|done].
    destruct (Hcells n l E) as [[?%lookup_empty_Some _]|(c' & Hc' & ?)]; [done|]. congruence. }
  apply resolve_wired in Hx0 as [Hw Hf].
  split_and!; try done.
  - split_and!; try done.
    + eapply populate_injective; [done|by intros ???%lookup_empty_Some|].
      by intros ??? ?%lookup_empty_Some.
    + apply Hw. intros n c Hc Hd. apply Hdef, define_no_dependencies in Hc as [? _]. done.
  - apply Hf. intros n c Hc. apply Hdef, define_no_dependencies in Hc as (_ & ? & _). done.
Qed.

Lemma define_fn (comps : Components World) name c :
  define comps name = Ok c → comps !! name = Some (Some (fn c)).
Proof.
  unfold define. destruct (comps !! name) as [[f|]|]; try done.
  destruct (negb _); [done|].
  intros (r & _ & [= <-])%outcome_bind_ok. done.
Qed.

Lemma resolve_one_fn h a name h' :
  resolve_one h a name = Ok h' →
  ∀ n c', cell h' a n = Some c' → ∃ c, cell h a n = Some c ∧ fn c' = fn c.
Proof.
  unfold resolve_one. intros H. inv_bind H. apply nil_guard_ok in Hx.
  inv_bind H. apply nil_guard_ok in Hx0.
  destruct (In_ (dyn_type (fn x0))) as [|input [|]] eqn:Ein; [injection H as <-; eauto| |done].
  destruct input; try done. inv_bind H. injection H as <-.
  intros n c'. rewrite cell_insert. unfold cell.
  destruct (a !! n) as [lx|] eqn:E; [|done]. case_decide.
  - subst lx. case_decide; [|done]. intros [= <-]. eauto.
  - eauto.
Qed.

Lemma resolve_fn names : ∀ h a h',
  resolve names h a = Ok h' →
  ∀ n c', cell h' a n = Some c' → ∃ c, cell h a n = Some c ∧ fn c' = fn c.
Proof.
  induction names as [|name rest IH]; intros h a h'; simpl.
  - intros [= <-]. eauto.
  - intros H n c' Hc'. inv_bind H.
    destruct (IH _ _ _ H n c' Hc') as (c1 & Hc1 & ->).
    destruct (resolve_one_fn _ _ _ _ Hx n c1 Hc1) as (c & ? & ->). eauto.
Qed.

(** The constructor a loader built by [New] holds for a name is the
    definition the mapping gives that name. *)
Lemma New_fn h0 (comps : Components World) order h a :
  New h0 comps order = Ok (h, a) →
  ∀ name c, cell h a name = Some c → comps !! name = Some (Some (fn c)).
Proof.
  unfold New. intros HN name c Hc.
  inv_bind HN. destruct x as [h1 a1]. inv_bind HN. inv_bind HN. injection HN as <- <-.
  pose proof (populate_spec comps _ _ _ _ _ Hx) as (_ & _ & Hcells);
    [by intros ???%lookup_empty_Some|].
  destruct (resolve_fn _ _ _ _ Hx0 name c Hc) as (c1 & Hc1 & ->).
  apply define_fn. unfold cell in Hc1. destruct (a1 !! name) as [l|] eqn:E; [|done].
  destruct (Hcells name l E) as [[?%lookup_empty_Some _]|(c' & Hc' & ?)]; [done|]. congruence.
Qed.

(** ** WithOverwrites and Clone *)

Lemma cell_app h k a x : allocated h a → cell (h ++ k) a x = cell h a x.
Proof.
  intros Hal. unfold cell. destruct (a !! x) as [l|] eqn:E; [|done].
  apply lookup_app_l. eauto.
Qed.

Lemma edge_app h k a x y : allocated h a → edge (h ++ k) a x y ↔ edge h a x y.
Proof. intros Hal. unfold edge. by setoid_rewrite (cell_app h k a x Hal). Qed.

Lemma allocated_app h k a : allocated h a → allocated (h ++ k) a.
Proof. intros Hal n l Hl. rewrite length_app. apply Hal in Hl. lia. Qed.

Lemma closed_app h k a : allocated h a → closed h a → closed (h ++ k) a.
Proof.
  intros Hal Hcl x y He. rewrite cell_app by done. apply (Hcl x).
  by apply (edge_app h k a x y Hal).
Qed.

Lemma walk_app_heap h k a p : allocated h a → walk (h ++ k) a p ↔ walk h a p.
Proof.
  intros Hal. induction p as [|x [|y p] IH]; simpl in *; [done|done|].
  rewrite IH. by rewrite edge_app.
Qed.

Lemma acyclic_app h k a : allocated h a → acyclic h a → acyclic (h ++ k) a.
Proof.
  intros Hal Hac x q Hx Hw. rewrite cell_app in Hx by done.
  apply Hac; [done|]. by apply (walk_app_heap h k a).
Qed.

(** needsPurging only depends on the cells of [a]. *)
Lemma purge_over_ext (r1 r2 : string → outcome bool) deps :
  (∀ d, d ∈ deps → r1 d = r2 d) → purge_over r1 deps = purge_over r2 deps.
Proof.
  induction deps as [|d deps IH]; intros H; simpl; [done|].
  rewrite (H d) by left. destruct (r2 d) as [[]| | |]; simpl; try done.
  apply IH. intros. apply H. by right.
Qed.

Lemma needsPurging_app fuel h k a values : allocated h a → ∀ x,
  needsPurging fuel (h ++ k) a values x = needsPurging fuel h a values x.
Proof.
  intros Hal. induction fuel as [|fuel IH]; intros x; simpl; [done|].
  destruct (values !! x); [done|]. rewrite cell_app by done.
  destruct (cell h a x) as [c|]; simpl; [|done].
  apply purge_over_ext. auto.
Qed.

Lemma defined_keys_lookup a values x :
  is_Some (a !! x) → defined_keys a values !! x = values !! x.
Proof.
  intros Hx. unfold defined_keys. destruct (values !! x) as [v|] eqn:E.
  - by apply map_lookup_filter_Some_2.
  - apply map_lookup_filter_None_2. by left.
Qed.

Lemma cell_is_Some_dom h a x : is_Some (cell h a x) → is_Some (a !! x).
Proof. unfold cell. destruct (a !! x); [eauto|by intros []]. Qed.

Lemma needsPurging_defined_keys fuel h a values : closed h a → ∀ x,
  is_Some (a !! x) →
  needsPurging fuel h a (defined_keys a values) x = needsPurging fuel h a values x.
Proof.
  intros Hcl. induction fuel as [|fuel IH]; intros x Hx; simpl; [done|].
  rewrite defined_keys_lookup by done. destruct (values !! x); [done|].
  destruct (cell h a x) as [c|] eqn:Hc; simpl; [|done].
  apply purge_over_ext. intros d Hd. apply IH.
  apply (cell_is_Some_dom h). apply (Hcl x). by exists c.
Qed.

Lemma overwritten_defined_keys a values name (c : component World) purge :
  is_Some (a !! name) →
  overwritten (defined_keys a values) name c purge = overwritten values name c purge.
Proof. intros Hn. unfold overwritten. by rewrite defined_keys_lookup. Qed.

Lemma overwrite_all_defined_keys fuel a values entries : ∀ h a2,
  allocated h a → closed h a → (∀ e, e ∈ entries → is_Some (a !! e.1)) →
  overwrite_all fuel a (defined_keys a values) entries h a2 =
  overwrite_all fuel a values entries h a2.
Proof.
  induction entries as [|entry rest IH]; intros h a2 Hal Hcl Hin; simpl; [done|].
  destruct (h !! entry.2) as [c|]; simpl; [|done].
  rewrite needsPurging_defined_keys by (done || apply Hin; left).
  destruct (needsPurging fuel h a values entry.1) as [purge| | |]; simpl; try done.
  rewrite overwritten_defined_keys by (apply Hin; left).
  apply IH; [by apply allocated_app|by apply closed_app|].
  intros. apply Hin. by right.
Qed.

(** enough fuel *)
Lemma walk_in_dom h a : closed h a → ∀ q x,
  is_Some (cell h a x) → walk h a (x :: q) → ∀ y, y ∈ x :: q → is_Some (a !! y).
Proof.
  intros Hcl. induction q as [|z q IH]; intros x Hx Hw y.
  - intros ->%list_elem_of_singleton. by eapply cell_is_Some_dom.
  - intros [->|Hy]%elem_of_cons; [by eapply cell_is_Some_dom|].
    destruct Hw as [He Hw]. apply (IH z); [by apply (Hcl x)|done|done].
Qed.

Lemma acyclic_walk_length h a x q :
  closed h a → acyclic h a → is_Some (cell h a x) → walk h a (x :: q) →
  length (x :: q) ≤ size a.
Proof.
  intros Hcl Hac Hx Hw. apply NoDup_within_size; [by apply Hac|].
  by apply (walk_in_dom h a Hcl q x).
Qed.

Lemma needsPurging_ok h a values : closed h a → ∀ fuel x,
  is_Some (cell h a x) →
  (∀ q, walk h a (x :: q) → length (x :: q) ≤ fuel) →
  ∃ b, needsPurging fuel h a values x = Ok b.
Proof.
  intros Hcl. induction fuel as [|fuel IH]; intros x [c Hc] Hlen.
  - specialize (Hlen [] (conj I I)). simpl in Hlen. lia.
  - simpl. destruct (values !! x); [eauto|]. rewrite Hc. simpl.
    assert (∀ d, d ∈ dependencies c → edge h a x d) as He by (intros; by exists c).
    revert He. generalize (dependencies c). intros deps.
    induction deps as [|d deps IHd]; intros He; simpl; [eauto|].
    destruct (IH d) as [b Hb].
    + apply (Hcl x). apply He. left.
    + intros q Hw. specialize (Hlen (d :: q)). simpl in Hlen.
      simpl. apply Nat.succ_le_mono. apply Hlen. split; [apply He; left|done].
    + rewrite Hb. simpl. destruct b; [eauto|]. apply IHd. intros. apply He. by right.
Qed.

Lemma clone_all_spec entries : ∀ h acc,
  Forall (λ e : string * nat, e.2 < length h) entries → NoDup entries.*1 →
  ∃ news a2, clone_all entries h acc = Ok (h ++ news, a2) ∧
    (∀ n, n ∉ entries.*1 → a2 !! n = acc !! n) ∧
    (∀ n l, (n, l) ∈ entries →
       ∃ l2 c, a2 !! n = Some l2 ∧ length h ≤ l2 ∧ h !! l = Some c ∧
               (h ++ news) !! l2 = Some (cloned c)).
Proof.
  induction entries as [|[n0 l0] rest IH]; intros h acc Hall Hnd; simpl.
  - exists [], acc. rewrite app_nil_r. split_and!; [done|done|by intros ???%elem_of_nil].
  - apply Forall_cons in Hall as [Hl0 Hall]. apply NoDup_cons in Hnd as [Hn0 Hnd].
    simpl in Hl0. destruct (lookup_lt_is_Some_2 h l0 Hl0) as [c0 Hc0]. rewrite Hc0. simpl.
    destruct (IH (h ++ [cloned c0]) (<[n0 := length h]> acc)) as (news & a2 & -> & Hout & Hin).
    { eapply Forall_impl; [done|]. intros e He. rewrite length_app. simpl in *. lia. }
    { done. }
    exists (cloned c0 :: news), a2. rewrite <- app_assoc. simpl.
    split_and!; [done| |].
    + intros n [Hne Hn]%not_elem_of_cons. rewrite Hout by done. by rewrite lookup_insert_ne.
    + intros n l [[= -> ->]|Hnl]%elem_of_cons.
      * exists (length h), c0. rewrite Hout by done. rewrite lookup_insert_eq.
        split_and!; [done|done|done|]. by rewrite lookup_app_r, Nat.sub_diag.
      * destruct (Hin n l Hnl) as (l2 & c & ? & Hle & Hc & Hc2).
        rewrite length_app in Hle. simpl in Hle.
        exists l2, c. rewrite <- app_assoc in Hc2. simpl in Hc2.
        split_and!; [done|lia| |done].
        rewrite lookup_app_l in Hc; [done|].
        rewrite Forall_forall in Hall. apply (Hall (n, l)). done.
Qed.

Lemma overwrite_all_spec fuel a values entries : ∀ h acc,
  allocated h a →
  Forall (λ e : string * nat, e.2 < length h ∧ ∃ b, needsPurging fuel h a values e.1 = Ok b) entries →
  NoDup entries.*1 →
  ∃ news a2, overwrite_all fuel a values entries h acc = Ok (h ++ news, a2) ∧
    (∀ n, n ∉ entries.*1 → a2 !! n = acc !! n) ∧
    (∀ n l, (n, l) ∈ entries →
       ∃ l2 c purge, a2 !! n = Some l2 ∧ length h ≤ l2 ∧ h !! l = Some c ∧
               needsPurging fuel h a values n = Ok purge ∧
               (h ++ news) !! l2 = Some (overwritten values n c purge)).
Proof.
  induction entries as [|[n0 l0] rest IH]; intros h acc Hal Hall Hnd; simpl.
  - exists [], acc. rewrite app_nil_r. split_and!; [done|done|by intros ???%elem_of_nil].
  - apply Forall_cons in Hall as [[Hl0 [b0 Hb0]] Hall]. apply NoDup_cons in Hnd as [Hn0 Hnd].
    simpl in Hl0, Hb0. destruct (lookup_lt_is_Some_2 h l0 Hl0) as [c0 Hc0]. rewrite Hc0. simpl.
    rewrite Hb0. simpl.
    destruct (IH (h ++ [overwritten values n0 c0 b0]) (<[n0 := length h]> acc))
      as (news & a2 & -> & Hout & Hin).
    { by apply allocated_app. }
    { eapply Forall_impl; [done|]. intros e [He1 He2]. rewrite length_app. simpl in *.
      split; [lia|]. by rewrite needsPurging_app. }
    { done. }
    exists (overwritten values n0 c0 b0 :: news), a2. rewrite <- app_assoc. simpl.
    split_and!; [done| |].
    + intros n [Hne Hn]%not_elem_of_cons. rewrite Hout by done. by rewrite lookup_insert_ne.
    + intros n l [[= -> ->]|Hnl]%elem_of_cons.
      * exists (length h), c0, b0. rewrite Hout by done. rewrite lookup_insert_eq.
        split_and!; [done|done|done|done|]. by rewrite lookup_app_r, Nat.sub_diag.
      * destruct (Hin n l Hnl) as (l2 & c & purge & ? & Hle & Hc & Hp & Hc2).
        rewrite length_app in Hle. simpl in Hle.
        exists l2, c, purge. rewrite <- app_assoc in Hc2. simpl in Hc2.
        rewrite needsPurging_app in Hp by done.
        split_and!; [done|lia| |done|done].
        rewrite lookup_app_l in Hc; [done|].
        rewrite Forall_forall in Hall. apply (Hall (n, l)). done.
Qed.

Lemma Clone_spec h a : allocated h a →
  ∃ news a2, Clone h a = Ok (h ++ news, a2) ∧ dom a2 = dom a ∧
    ∀ n l, a !! n = Some l →
      ∃ l2 c, a2 !! n = Some l2 ∧ length h ≤ l2 ∧ h !! l = Some c ∧
              (h ++ news) !! l2 = Some (cloned c).
Proof.
  intros Hal. unfold Clone.
  destruct (clone_all_spec (map_to_list a) h ∅) as (news & a2 & -> & Hout & Hin).
  { apply Forall_forall. intros [n l] Hnl%elem_of_map_to_list. by apply (Hal n). }
  { apply NoDup_fst_map_to_list. }
  exists news, a2. split_and!; [done| |].
  - apply set_eq. intros n. rewrite !elem_of_dom.
    destruct (a !! n) as [l|] eqn:E.
    + destruct (Hin n l) as (l2 & ? & -> & _); [by apply elem_of_map_to_list|]. split; eauto.
    + rewrite Hout; [by rewrite lookup_empty|].
      intros ([n' l] & Heq & Hnl%elem_of_map_to_list)%list_elem_of_fmap. simpl in *. congruence.
  - intros n l Hl. apply Hin. by apply elem_of_map_to_list.
Qed.

Lemma WithOverwrites_spec h a values : allocated h a → closed h a → acyclic h a →
  ∃ news a2, WithOverwrites h a values = Ok (h ++ news, a2) ∧ dom a2 = dom a ∧
    ∀ n l, a !! n = Some l →
      ∃ l2 c purge, a2 !! n = Some l2 ∧ length h ≤ l2 ∧ h !! l = Some c ∧
              needsPurging (S (size a)) h a values n = Ok purge ∧
              (h ++ news) !! l2 = Some (overwritten values n c purge).
Proof.
  intros Hal Hcl Hac. unfold WithOverwrites.
  destruct (overwrite_all_spec (S (size a)) a values (map_to_list a) h ∅)
    as (news & a2 & -> & Hout & Hin).
  { done. }
  { apply Forall_forall. intros [n l] Hnl%elem_of_map_to_list. cbn [fst snd].
    split; [by apply (Hal n)|]. apply needsPurging_ok; [done| |].
    - unfold cell. rewrite Hnl. apply lookup_lt_is_Some. by apply (Hal n).
    - intros q Hw. etrans; [apply (acyclic_walk_length h a n q)|]; try done; [|lia].
      unfold cell. rewrite Hnl. apply lookup_lt_is_Some. by apply (Hal n). }
  { apply NoDup_fst_map_to_list. }
  exists news, a2. split_and!; [done| |].
  - apply set_eq. intros n. rewrite !elem_of_dom.
    destruct (a !! n) as [l|] eqn:E.
    + destruct (Hin n l) as (l2 & ? & ? & -> & _); [by apply elem_of_map_to_list|]. split; eauto.
    + rewrite Hout; [by rewrite lookup_empty|].
      intros ([n' l] & Heq & Hnl%elem_of_map_to_list)%list_elem_of_fmap. simpl in *. congruence.
  - intros n l Hl. apply Hin. by apply elem_of_map_to_list.
Qed.

(** ** Load *)

Lemma after_wait_cells m tid a name l c extra w :
  cells m !! l = Some c →
  cells (after_wait m tid a name l c extra w) = cells m ∨
  ∃ c', same_spec c c' ∧ cells (after_wait m tid a name l c extra w) = <[l := c']> (cells m).
Proof.
  intros Hc. destruct w; simpl; [by left| |]; right; eexists; (split; [|done]); done.
Qed.

Lemma step_cells tid m m' t :
  threads m !! tid = Some t → step tid m = Ok m' →
  cells m' = cells m ∨
  ∃ a name l c c', loader_of t = Some a ∧ a !! name = Some l ∧ cells m !! l = Some c ∧
     same_spec c c' ∧ cells m' = <[l := c']> (cells m).
Proof.
  intros Ht. unfold step. rewrite Ht. destruct t as [a name|a name i input|a name i input|a name in_|a name v e|v e].
  - destruct (a !! name) as [l|] eqn:El; [|intros [= <-]; by left].
    intros H. inv_bind H. apply nil_guard_ok in Hx.
    destruct (loaded x); [injection H as <-; by left|].
    case_decide.
    + inv_bind H. inv_bind H. inv_bind H. injection H as <-.
      destruct (after_wait_cells m tid a name l x x1 x2 Hx) as [?|(c' & ? & ?)]; [by left|].
      right. exists a, name, l, x, c'. done.
    + injection H as <-. right. exists a, name, l, x, (set_loading x). done.
  - intros [= <-]. by left.
  - intros H. inv_bind H. apply nil_guard_ok in Hx. inv_bind H. apply nil_guard_ok in Hx0.
    inv_bind H. inv_bind H. injection H as <-.
    destruct (after_wait_cells m tid a name x x0 [] x2 Hx0) as [?|(c' & ? & ?)]; [by left|].
    right. exists a, name, x, x0, c'. done.
  - intros H. inv_bind H. inv_bind H. destruct (negb _); [done|].
    inv_bind H. destruct x1. injection H as <-. by left.
  - intros H. inv_bind H. apply nil_guard_ok in Hx. inv_bind H. apply nil_guard_ok in Hx0.
    injection H as <-. right. exists a, name, x, x0, (set_done x0 v e). done.
  - intros [= <-]. by left.
Qed.

(** A transition only writes to cells of the loader the thread runs on. *)
Lemma step_frame tid m m' t b :
  threads m !! tid = Some t → loader_of t = Some b → step tid m = Ok m' →
  ∀ l, (∀ n, b !! n ≠ Some l) → cells m' !! l = cells m !! l.
Proof.
  intros Ht Hb Hs l Hl.
  destruct (step_cells tid m m' t Ht Hs) as [->|(a & name & l' & c & c' & Ha & Hn & _ & _ & ->)]; [done|].
  rewrite Hb in Ha. injection Ha as <-.
  apply list_lookup_insert_ne. intros ->. by apply (Hl name).
Qed.

Lemma state_cloned (c : component World) :
  state (cloned c) = match state c with Done v e => Done v e | _ => Pending end.
Proof. unfold state, cloned. simpl. destruct (loaded c), (loading c); done. Qed.

(** Steps keep the loader well formed. *)
Lemma well_formed_insert h a l c c' :
  h !! l = Some c → same_spec c c' → well_formed h a → well_formed (<[l := c']> h) a.
Proof.
  intros Hc Hs (Hal & Hcl & Hinj & Hw). pose proof Hs as (Hfn & Hres & Hdeps).
  split_and!.
  - intros n lx ?. rewrite length_insert. eauto.
  - intros x y He. apply cell_insert_is_Some. apply (Hcl x). by eapply edge_insert.
  - done.
  - intros n cx. rewrite cell_insert. destruct (a !! n) as [lx|] eqn:E; [|done].
    case_decide.
    + subst lx. case_decide; [|done]. intros [= <-]. rewrite Hfn, Hdeps.
      apply (Hw n). unfold cell. by rewrite E.
    + intros Hx. apply (Hw n). unfold cell. by rewrite E.
Qed.

Lemma step_well_formed m a tid m' :
  well_formed (cells m) a → step tid m = Ok m' → well_formed (cells m') a.
Proof.
  intros Hwf Hs. destruct (threads m !! tid) as [t|] eqn:Et.
  - destruct (step_cells tid m m' t Et Hs) as [->|(b & name & l & c & c' & _ & _ & Hc & Hsp & ->)];
      [done|]. by eapply well_formed_insert.
  - unfold step in Hs. rewrite Et in Hs. by injection Hs as <-.
Qed.

(** *** Monotonicity *)





(** *** The error a failed dependency gives *)






















Lemma step_other m tid : length (threads m) ≤ tid → step tid m = Ok m.
Proof. intros H. unfold step. by rewrite lookup_ge_None_2. Qed.

Lemma panics_before_returning (m0 m1 : machine World) :
  step 0 m0 = Ok m1 → step 0 m1 = Panic →
  length (threads m0) = 1 → length (threads m1) = 1 →
  not_returned m0 → not_returned m1 →
  ∀ schedule, run schedule m0 = Panic ∨
    ∃ m', run schedule m0 = Ok m' ∧ not_returned m'.
Proof.
  intros E1 E2 L0 L1 H0 H1.
  assert (∀ schedule, run schedule m1 = Panic ∨
     ∃ m', run schedule m1 = Ok m' ∧ not_returned m') as R1.
  { induction schedule as [|tid rest IH]; simpl; [right; eauto|].
    destruct tid as [|tid]; [rewrite E2; by left|].
    rewrite step_other by (rewrite L1; lia). apply IH. }
  induction schedule as [|tid rest IH]; simpl; [right; eauto|].
  destruct tid as [|tid]; [rewrite E1; apply R1|].
  rewrite step_other by (rewrite L0; lia). apply IH.
Qed.

(** ** The claims that hold of every loader *)


(** Claim C8.  [Clone] of a loader whose cells are allocated returns, in fresh
    cells, a loader with the same names, constructors, result types and
    dependencies; a Done state is copied with its value and error and every
    other state becomes Pending.  A step of a [Load] on the clone changes no
    cell of a loader that lives in the old heap (the source, an earlier clone),
    and a step of a [Load] on such a loader changes no cell of the clone. *)
Theorem Clone_independent h a :
  allocated h a →
  ∃ news a2, Clone h a = Ok (h ++ news, a2) ∧ dom a2 = dom a ∧
    (∀ n l, a !! n = Some l →
       ∃ l2 c c2, a2 !! n = Some l2 ∧ length h ≤ l2 ∧
         h !! l = Some c ∧ (h ++ news) !! l2 = Some c2 ∧
         fn c2 = fn c ∧ result c2 = result c ∧ dependencies c2 = dependencies c ∧
         state c2 = match state c with Done v e => Done v e | _ => Pending end) ∧
    (∀ b, allocated h b →
       ∀ m tid t m', threads m !! tid = Some t → step tid m = Ok m' →
         (loader_of t = Some a2 → ∀ n l, b !! n = Some l → cells m' !! l = cells m !! l) ∧
         (loader_of t = Some b → ∀ n l2, a2 !! n = Some l2 → cells m' !! l2 = cells m !! l2)).
Proof.
  intros Hal. destruct (Clone_spec h a Hal) as (news & a2 & HC & Hdom & Hcells).
  assert (∀ n l2, a2 !! n = Some l2 → length h ≤ l2) as Hfresh.
  { intros n l2 Hl2.
    assert (is_Some (a !! n)) as [l Hl].
    { apply elem_of_dom. rewrite <- Hdom. apply elem_of_dom. eauto. }
    destruct (Hcells n l Hl) as (l2' & c & Hl2' & ? & ? & Hc2). congruence. }
  exists news, a2. split_and!; [done|done| |].
  - intros n l Hl. destruct (Hcells n l Hl) as (l2 & c & ? & ? & ? & ?).
    exists l2, c, (cloned c). split_and!; try done. apply state_cloned.
  - intros b Hb m tid t m' Ht Hs. split.
    + intros Hlo n l Hl. eapply step_frame; [done|done|done|].
      intros n' Hn'. apply Hfresh in Hn'. apply Hb in Hl. lia.
    + intros Hlo n l2 Hl2. eapply step_frame; [done|done|done|].
      intros n' Hn'. apply Hfresh in Hl2. apply Hb in Hn'. lia.
Qed.

(** Claim C10.  On a loader whose cells are allocated, whose dependencies are
    defined and which has no cycle, [WithOverwrites] returns a loader (it has no
    error result), the loader has the names of the source and no other, and it
    is the loader that the same values without the undefined keys give. *)
Theorem WithOverwrites_ignores_undefined_keys h a (values : gmap string any) :
  allocated h a → closed h a → acyclic h a →
  ∃ h2 a2, WithOverwrites h a values = Ok (h2, a2) ∧ dom a2 = dom a ∧
           WithOverwrites h a (defined_keys a values) = Ok (h2, a2).
Proof.
  intros Hal Hcl Hac.
  destruct (WithOverwrites_spec h a values Hal Hcl Hac) as (news & a2 & HW & Hdom & _).
  exists (h ++ news), a2. split_and!; [done|done|].
  rewrite <- HW. unfold WithOverwrites. apply overwrite_all_defined_keys; [done|done|].
  intros [n l] Hnl%elem_of_map_to_list. simpl. eauto.
Qed.

End Facts.

(** ** Witnesses, and the claims settled on inputs *)

(** Claim C1, a defect of the code.  In TestAcyclicLoader, after
    [Load("Plus7")] gave 12, [WithOverwrites({"StaticInt": 7})] leaves Plus7,
    which depends on the overwritten StaticInt, loaded with the nil value and no
    error (the spec: Pending), and [Load("Plus7")] on the derived loader returns
    (nil, nil) without a call of the constructor (the spec and the test: 14).
    On a loader where nothing was loaded, the overwritten StaticInt is Pending
    (the spec: Done 7), and [Load("Plus7")] returns 12, computed from the
    constructor of StaticInt and not from the overwrite. *)
Theorem WithOverwrites_keeps_loaded_flag :
  state_of "Plus7" Plus7_loaded = Ok (Some (Done (AInt 12) None)) ∧
  state_of "Plus7" (with_overwrites {["StaticInt" := AInt 7%Z]} Plus7_loaded)
    = Ok (Some (Done ANil None)) ∧
  result_of 2 (then_run [2] (and_Load "Plus7"
                 (with_overwrites {["StaticInt" := AInt 7%Z]} Plus7_loaded)))
    = Ok (Some (Returned ANil None)) ∧
  state_of "StaticInt"
    (with_overwrites {["StaticInt" := AInt 7%Z]}
       (built TestAcyclicLoader ["StaticInt"; "Plus7"] 5%Z))
    = Ok (Some Pending) ∧
  result_of 0 (then_run [0; 1; 1; 1; 0; 0; 0] (and_Load "Plus7"
                 (with_overwrites {["StaticInt" := AInt 7%Z]}
                    (built TestAcyclicLoader ["StaticInt"; "Plus7"] 5%Z))))
    = Ok (Some (Returned (AInt 12) None)).
Proof. repeat split; vm_compute; reflexivity. Qed.

(** Claim C2, a defect of the code.  A valid mapping of one component whose
    constructor returns (value, error) and returns the nil error: [New]
    succeeds, and [Load] panics at the type assertion on the nil interface;
    under no schedule does the caller return.  The same holds of a constructor
    that returns only the nil error. *)
Theorem Load_panics_on_nil_error :
  (∃ m a, one_Load value_and_nil_error ["Database"] tt "Database" = Ok (m, a) ∧
     run [0; 0] m = Panic ∧
     ∀ schedule, run schedule m = Panic ∨
       ∃ m', run schedule m = Ok m' ∧ not_returned m') ∧
  (∃ m a, one_Load only_nil_error ["Init"] tt "Init" = Ok (m, a) ∧
     run [0; 0] m = Panic ∧
     ∀ schedule, run schedule m = Panic ∨
       ∃ m', run schedule m = Ok m' ∧ not_returned m').
Proof.
  split.
  - eexists _, _. split; [vm_compute; reflexivity|].
    split; [vm_compute; reflexivity|].
    eapply panics_before_returning; try (vm_compute; reflexivity);
      intros v e; vm_compute; discriminate.
  - eexists _, _. split; [vm_compute; reflexivity|].
    split; [vm_compute; reflexivity|].
    eapply panics_before_returning; try (vm_compute; reflexivity);
      intros v e; vm_compute; discriminate.
Qed.

(** Claim C3, a defect of the code.  Two callers of [Load("Port")] that both
    enter before either stored its result invoke the constructor twice.  In the
    diamond A -> B, C and B -> C, one [Load("A")] spawns a load of C for A and
    another for B, the constructor of C runs twice, and A still returns its
    value. *)
Theorem constructor_invoked_twice :
  calls_of (then_run [0; 1; 0; 1; 0; 1] (two_Loads only_value ["Port"] tt "Port"))
    = Ok [Call 0 [] [AInt 1]; Call 0 [] [AInt 1]] ∧
  (do '(m, a) <- then_run [0; 1; 2; 3; 2; 3; 2; 3; 1; 1; 1; 0; 0; 0]
                   (one_Load diamond ["A"; "B"; "C"] tt "A");
   Ok (a !! "C", filter (fun k => call_cell k = 2) (calls m), threads m !! 0))
    = Ok (Some 2, [Call 2 [] [AInt 1]; Call 2 [] [AInt 1]], Some (Returned (AInt 2) None)).
Proof. split; vm_compute; reflexivity. Qed.



(** Claim C5.  When the graph of a mapping that passed the first two loops of
    [New] has a cycle through one of its names, [New] fails with a cycle error:
    its message joins the part of a duplicate-free path [p] of the graph from
    the first occurrence of the repeated name [d] to the end, followed by [d],
    and its component is [d].  The three tests of the repository give A -> A,
    B -> C -> B and A -> B -> C -> A. *)
Theorem cycle_reported :
  (∀ World (h : heap World) (comps : Components World) order h1 a h2,
     populate comps (merge_sort string_le order) h ∅ = Ok (h1, a) →
     resolve (merge_sort string_le order) h1 a = Ok h2 →
     (∃ x q, x ∈ order ∧ walk h2 a (x :: q ++ [x])) →
     ∃ p d i, walk h2 a (p ++ [d]) ∧ NoDup p ∧ p !! i = Some d ∧
       New h comps order =
         Fail (ComponentDefinitionError d (cycle_message (drop i p ++ [d])))) ∧
  New [] Tests.TestSelfDependency ["A"]
    = Fail (ComponentDefinitionError "A" "dependency cycle detected: 'A' -> 'A'") ∧
  New [] Tests.TestCyclicDependencies ["C"; "B"; "A"]
    = Fail (ComponentDefinitionError "B" "dependency cycle detected: 'B' -> 'C' -> 'B'") ∧
  New [] Tests.TestLongCyclicDependencies ["B"; "C"; "A"]
    = Fail (ComponentDefinitionError "A"
              "dependency cycle detected: 'A' -> 'B' -> 'C' -> 'A'").
Proof.
  split; [intros; by eapply cycle_reported_general|].
  repeat split; vm_compute; reflexivity.
Qed.

(** The general part of C5 at the mapping of TestSelfDependency. *)
Lemma cycle_reported_witness :
  populate Tests.TestSelfDependency (merge_sort string_le ["A"]) [] ∅ = Ok self_populated ∧
  resolve (merge_sort string_le ["A"]) self_populated.1 self_populated.2 = Ok self_resolved ∧
  walk self_resolved self_populated.2 ("A" :: [] ++ ["A"]) ∧
  ∃ p d i, walk self_resolved self_populated.2 (p ++ [d]) ∧ NoDup p ∧ p !! i = Some d ∧
    New [] Tests.TestSelfDependency ["A"] =
      Fail (ComponentDefinitionError d (cycle_message (drop i p ++ [d]))).
Proof.
  assert (populate Tests.TestSelfDependency (merge_sort string_le ["A"]) [] ∅
          = Ok (self_populated.1, self_populated.2)) as Ep by (vm_compute; reflexivity).
  assert (resolve (merge_sort string_le ["A"]) self_populated.1 self_populated.2
          = Ok self_resolved) as Er by (vm_compute; reflexivity).
  assert (walk self_resolved self_populated.2 ("A" :: [] ++ ["A"])) as Hw.
  { split; [|done]. eexists. split; [vm_compute; reflexivity|]. left. }
  split_and!; [vm_compute; reflexivity|done|done|].
  apply (proj1 cycle_reported unit [] Tests.TestSelfDependency ["A"] _ _ _ Ep Er).
  exists "A", []. split; [left|done].
Defined.

(** Claim C6 as the spec words it fails.  A depends on an undefined component
    and B is nil: the first error in name order is the one of A, [New] returns
    the one of B.  Within one component, A has a field of the wrong type before
    a field that names no component: the spec's order of checks puts the
    undefined dependency first, [New] returns the type mismatch. *)
Lemma first_error_not_in_name_order :
  (New [] two_faults ["A"; "B"]
     = Fail (ComponentDefinitionError "B"
               "expected definition of 'B' to be a function, but found nil") ∧
   has_undefined_dependency two_faults "A" ∧ string_le "A" "B" ∧ "A" ≠ "B") ∧
  (New [] two_faults_in_one ["A"; "B"]
     = Fail (ComponentDefinitionError "A"
               "'A' depends on component 'B' with type int, but 'A' expects string") ∧
   has_undefined_dependency two_faults_in_one "A").
Proof.
  split; split.
  - vm_compute. reflexivity.
  - split; [|done].
    eexists _, _, ("X", TInt). split_and!; [by vm_compute|by vm_compute|left|by vm_compute].
  - vm_compute. reflexivity.
  - eexists _, _, ("X", TInt).
    split_and!; [by vm_compute|by vm_compute|right; left|by vm_compute].
Qed.

(** Claim C7, a defect of the code.  Two callers of [Load("Port")] both passed
    the test of [loaded]; the first stored the value 0, and a later [Load]
    returns 0.  Then the second caller stores its own result 1 over the Done
    state, and a later [Load] on the same loader returns 1: the constructor ran
    twice and the cached pair changed. *)
Theorem Done_state_overwritten :
  state_of "Port" racing = Ok (Some (Done (AInt 0) None)) ∧
  result_of 2 (then_run [2] (and_Load "Port" racing)) = Ok (Some (Returned (AInt 0) None)) ∧
  state_of "Port" (then_run [1] racing) = Ok (Some (Done (AInt 1) None)) ∧
  result_of 2 (then_run [1; 2] (and_Load "Port" racing)) = Ok (Some (Returned (AInt 1) None)) ∧
  calls_of (then_run [1] racing) = Ok [Call 0 [] [AInt 0]; Call 0 [] [AInt 1]].
Proof. repeat split; vm_compute; reflexivity. Qed.

(** C8 at the loader of TestAcyclicLoader. *)
Lemma Clone_independent_witness :
  New [] TestAcyclicLoader ["StaticInt"; "Plus7"] = Ok test_built ∧
  ∃ news a2, Clone test_built.1 test_built.2 = Ok (test_built.1 ++ news, a2) ∧
    dom a2 = dom test_built.2 ∧
    ∀ n l, test_built.2 !! n = Some l →
       ∃ l2 c c2, a2 !! n = Some l2 ∧ length test_built.1 ≤ l2 ∧
         test_built.1 !! l = Some c ∧ (test_built.1 ++ news) !! l2 = Some c2 ∧
         fn c2 = fn c ∧ result c2 = result c ∧ dependencies c2 = dependencies c ∧
         state c2 = match state c with Done v e => Done v e | _ => Pending end.
Proof.
  assert (New [] TestAcyclicLoader ["StaticInt"; "Plus7"] = Ok (test_built.1, test_built.2))
    as E by (vm_compute; reflexivity).
  split; [vm_compute; reflexivity|].
  apply New_wf in E as (Hal & _).
  destruct (Clone_independent test_built.1 test_built.2 Hal) as (news & a2 & H1 & H2 & H3 & _).
  exists news, a2. split; [exact H1|]. split; [exact H2|exact H3].
Defined.

(** Claim C9.  A component with a field Init of type int, where Init is a
    component whose constructor returns only an error, or nothing: [New] panics
    in the message of the type mismatch, at [String] of the nil result type, in
    either order of the names. *)
Theorem New_panics_on_dependency_without_result :
  New [] depends_on_error_only ["Init"; "Server"] = Panic ∧
  New [] depends_on_error_only ["Server"; "Init"] = Panic ∧
  New [] depends_on_no_output ["Init"; "Server"] = Panic ∧
  New [] depends_on_no_output ["Server"; "Init"] = Panic.
Proof. repeat split; vm_compute; reflexivity. Qed.

(** C10 at the loader of TestAcyclicLoader with the undefined key Bogus. *)
Lemma WithOverwrites_ignores_undefined_keys_witness :
  New [] TestAcyclicLoader ["StaticInt"; "Plus7"] = Ok test_built ∧
  ∃ h2 a2,
    WithOverwrites test_built.1 test_built.2
      (<["StaticInt" := AInt 7%Z]> {["Bogus" := AInt 1%Z]}) = Ok (h2, a2) ∧
    dom a2 = dom test_built.2 ∧
    WithOverwrites test_built.1 test_built.2
      (defined_keys test_built.2 (<["StaticInt" := AInt 7%Z]> {["Bogus" := AInt 1%Z]}))
      = Ok (h2, a2).
Proof.
  assert (New [] TestAcyclicLoader ["StaticInt"; "Plus7"] = Ok (test_built.1, test_built.2))
    as E by (vm_compute; reflexivity).
  split; [vm_compute; reflexivity|].
  apply New_wf in E as (Hal & Hcl & Hac & _).
  exact (WithOverwrites_ignores_undefined_keys _ _ _ Hal Hcl Hac).
Defined.

(** * Further properties *)

Section Further.
Context {World : Type} {U : Unicode}.
Implicit Types (h : heap World) (a : gmap string nat) (m : machine World).

(** ** More on New: what a loader holds, and when there is one *)

Lemma outcome_bind_panic {A B} (x : outcome A) (k : A → outcome B) :
  (do y <- x; k y) = Panic → x = Panic ∨ ∃ y, x = Ok y ∧ k y = Panic.
Proof. destruct x; simpl; eauto; discriminate. Qed.

Lemma type_eqb_refl t : type_eqb t t = true.
Proof. by apply type_eqb_eq. Qed.

Lemma declared_result_value_type name t r :
  declared_result name t = Ok r → r = value_type t.
Proof.
  unfold declared_result, value_type.
  destruct (Out t) as [|o0 [|o1 [|o2 outs]]]; try done.
  - by intros [= <-].
  - by intros [= <-].
  - destruct (type_eqb o1 typeOfError); [by intros [= <-]|done].
Qed.

Lemma define_spec (comps : Components World) name c :
  define comps name = Ok c →
  comps !! name = Some (Some (fn c)) ∧ result c = value_type (dyn_type (fn c)) ∧
  dependencies c = [] ∧ value c = ANil ∧ err c = None ∧ loaded c = false ∧ loading c = false.
Proof.
  unfold define. destruct (comps !! name) as [[f|]|]; try done.
  destruct (negb _); [done|].
  intros (r & Hr & [= <-])%outcome_bind_ok. apply declared_result_value_type in Hr.
  by subst r.
Qed.

Lemma define_fail_name (comps : Components World) name e :
  define comps name = Fail e → ∃ msg, e = ComponentDefinitionError name msg.
Proof.
  unfold define. destruct (comps !! name) as [[f|]|]; try (intros [= <-]; eauto).
  destruct (negb _); [intros [= <-]; eauto|].
  intros [H|(r & _ & H)]%outcome_bind_fail; [|done].
  unfold declared_result in H.
  destruct (Out _) as [|o0 [|o1 [|o2 outs]]]; try done.
  - destruct (type_eqb o1 typeOfError); [done|]. injection H as <-. eauto.
  - injection H as <-. eauto.
Qed.

Lemma define_not_panic (comps : Components World) name : define comps name ≠ Panic.
Proof.
  unfold define. destruct (comps !! name) as [[f|]|]; try done.
  destruct (negb _); [done|].
  intros [H|(r & _ & H)]%outcome_bind_panic; [|done].
  unfold declared_result in H.
  destruct (Out _) as [|o0 [|o1 [|o2 outs]]]; try done.
  by destruct (type_eqb o1 typeOfError).
Qed.

Lemma populate_not_panic (comps : Components World) names : ∀ h a,
  populate comps names h a ≠ Panic.
Proof.
  induction names as [|n rest IH]; intros h a; simpl; [done|].
  intros [H|(c & _ & H)]%outcome_bind_panic; [by apply define_not_panic in H|].
  by apply IH in H.
Qed.


Lemma populate_built (comps : Components World) names h0 h1 a1 :
  populate comps names h0 ∅ = Ok (h1, a1) →
  built_from comps h1 a1 ∧ (∀ n c, cell h1 a1 n = Some c → dependencies c = []).
Proof.
  intros Hp.
  pose proof (populate_spec comps _ _ _ _ _ Hp) as (_ & _ & Hcells);
    [by intros ???%lookup_empty_Some|].
  assert (∀ n c, cell h1 a1 n = Some c → define comps n = Ok c) as Hdef.
  { intros n c. unfold cell. destruct (a1 !! n) as [l|] eqn:E; [|done].
    destruct (Hcells n l E) as [[?%lookup_empty_Some _]|(c' & Hc' & ?)]; [done|]. congruence. }
  split.
  - intros n c Hc. apply Hdef, define_spec in Hc. naive_solver.
  - intros n c Hc. apply Hdef, define_spec in Hc. naive_solver.
Qed.

Lemma populate_prefix (comps : Components World) names : ∀ h a h1 a1,
  populate comps names h a = Ok (h1, a1) →
  ∃ news, h1 = h ++ news ∧
    ∀ n l, a1 !! n = Some l → a !! n = Some l ∨ length h ≤ l.
Proof.
  induction names as [|name rest IH]; intros h a h1 a1; simpl.
  - intros [= <- <-]. exists []. split; [by rewrite app_nil_r|eauto].
  - intros (c & Hc & H)%outcome_bind_ok.
    apply IH in H as (news & -> & Hl). exists (c :: news).
    split; [by rewrite <- app_assoc|].
    intros n l Hn. destruct (Hl n l Hn) as [H|H].
    + rewrite lookup_insert in H. case_decide; [injection H as <-; by right|by left].
    + right. rewrite length_app in H. simpl in H. lia.
Qed.

Lemma check_fields_typed h a name fields : ∀ deps deps',
  check_fields h a name fields deps = Ok deps' →
  Forall (λ field, ∃ d, cell h a field.1 = Some d ∧ result d = Some field.2) fields.
Proof.
  induction fields as [|field rest IH]; intros deps deps'; simpl; [by constructor|].
  destruct (a !! field.1) as [l|] eqn:Hl; [|done].
  destruct (h !! l) as [dep|] eqn:Hd; [|done].
  destruct (same_type (result dep) field.2) eqn:Hs; simpl.
  - intros H. constructor; [|by eapply IH].
    exists dep. split; [unfold cell; by rewrite Hl|]. unfold same_type in Hs.
    destruct (result dep) as [r|]; [|done]. by apply type_eqb_eq in Hs as ->.
  - by intros (r & _ & ?)%outcome_bind_ok.
Qed.

Lemma check_fields_ok h a name fields : ∀ deps,
  Forall (λ field, ∃ d, cell h a field.1 = Some d ∧ result d = Some field.2) fields →
  check_fields h a name fields deps = Ok (deps ++ fields.*1).
Proof.
  induction fields as [|field rest IH]; intros deps Hf; simpl; [by rewrite app_nil_r|].
  apply Forall_cons in Hf as [(d & Hd & Hr) Hf]. unfold cell in Hd.
  destruct (a !! field.1) as [l|]; [|done]. rewrite Hd.
  unfold same_type. rewrite Hr, type_eqb_refl. simpl.
  rewrite IH by done. by rewrite <- app_assoc.
Qed.

Lemma check_fields_panic h a name fields : ∀ deps,
  allocated h a → check_fields h a name fields deps = Panic →
  ∃ field d, field ∈ fields ∧ cell h a field.1 = Some d ∧ result d = None.
Proof.
  induction fields as [|field rest IH]; intros deps Hal; simpl; [done|].
  destruct (a !! field.1) as [l|] eqn:Hl; [|done].
  destruct (h !! l) as [dep|] eqn:Hd.
  2:{ apply Hal in Hl. apply lookup_ge_None in Hd. lia. }
  destruct (same_type (result dep) field.2) eqn:Hs; simpl.
  - intros H. apply IH in H as (f & d & ? & ? & ?); [|done].
    exists f, d. split; [by right|done].
  - destruct (result dep) as [r|] eqn:Hr; [done|]. intros _.
    exists field, dep. split; [left|]. unfold cell. by rewrite Hl.
Qed.


Lemma resolve_one_inv h a name h' :
  resolve_one h a name = Ok h' →
  ∃ l c, a !! name = Some l ∧ h !! l = Some c ∧
    ((In_ (dyn_type (fn c)) = [] ∧ h' = h) ∨
     (∃ fields, In_ (dyn_type (fn c)) = [TStruct fields] ∧
        Forall (λ field, ∃ d, cell h a field.1 = Some d ∧ result d = Some field.2) fields ∧
        h' = <[l := set_dependencies c fields.*1]> h)).
Proof.
  unfold resolve_one. intros H. inv_bind H. apply nil_guard_ok in Hx.
  inv_bind H. apply nil_guard_ok in Hx0. exists x, x0. split_and!; [done..|].
  destruct (In_ (dyn_type (fn x0))) as [|input [|]] eqn:Hin; [left; by injection H as <-| |done].
  destruct input; try done. right. inv_bind H. injection H as <-.
  pose proof (check_fields_typed _ _ _ _ _ _ Hx1) as Ht.
  apply check_fields_spec in Hx1 as [-> _]. eauto.
Qed.

Lemma struct_fields_set_dependencies (c : component World) deps :
  struct_fields (set_dependencies c deps) = struct_fields c.
Proof. done. Qed.

Lemma set_dependencies_same (c : component World) :
  set_dependencies c (dependencies c) = c.
Proof. by destruct c. Qed.

Lemma resolve_one_cells h a name h' :
  resolve_one h a name = Ok h' → injective a →
  (∀ n c, cell h a n = Some c →
     dependencies c = [] ∨ dependencies c = (struct_fields c).*1) →
  ∀ n, cell h' a n =
       if decide (n = name)
       then (λ c, set_dependencies c (struct_fields c).*1) <$> cell h a n
       else cell h a n.
Proof.
  intros H Hinj Hdeps n.
  apply resolve_one_inv in H as (l & c & Hl & Hc & [[Hin ->]|(fields & Hin & _ & ->)]).
  - destruct (decide (n = name)) as [->|Hn]; [|done].
    assert (cell h a name = Some c) as Hcell by (unfold cell; by rewrite Hl).
    assert (struct_fields c = []) as Hs by (unfold struct_fields; by rewrite Hin).
    rewrite Hcell. simpl. rewrite Hs. simpl. f_equal.
    destruct (Hdeps _ _ Hcell) as [Hd|Hd]; rewrite ?Hs in Hd; simpl in Hd;
      rewrite <- Hd; by rewrite set_dependencies_same.
  - rewrite cell_insert. destruct (decide (n = name)) as [->|Hn].
    + unfold cell. rewrite Hl, Hc. simpl. rewrite decide_True by done.
      rewrite decide_True by (by eapply lookup_lt_Some).
      unfold struct_fields. by rewrite Hin.
    + unfold cell. destruct (a !! n) as [lx|] eqn:Hlx; [|done].
      rewrite decide_False; [done|]. intros ->. apply Hn. by eapply Hinj.
Qed.

Lemma resolve_cells names : ∀ h a h',
  resolve names h a = Ok h' → injective a →
  (∀ n c, cell h a n = Some c →
     dependencies c = [] ∨ dependencies c = (struct_fields c).*1) →
  ∀ n, cell h' a n =
       if decide (n ∈ names)
       then (λ c, set_dependencies c (struct_fields c).*1) <$> cell h a n
       else cell h a n.
Proof.
  induction names as [|name rest IH]; intros h a h' H Hinj Hdeps n; simpl in H.
  { injection H as <-. rewrite decide_False; [done|]. apply not_elem_of_nil. }
  inv_bind H.
  pose proof (resolve_one_cells _ _ _ _ Hx Hinj Hdeps) as H1.
  rewrite (IH _ _ _ H Hinj).
  2:{ intros k c. rewrite H1. case_decide.
      - destruct (cell h a k) as [c0|]; [|done]. intros [= <-]. by right.
      - apply Hdeps. }
  rewrite H1.
  destruct (decide (n = name)) as [->|Hn].
  - rewrite (decide_True (P := name ∈ name :: rest)) by left.
    case_decide; [|done]. by destruct (cell h a name).
  - case_decide as Hr.
    + by rewrite decide_True by (by right).
    + rewrite decide_False; [done|]. by intros [?|?]%elem_of_cons.
Qed.

Lemma resolve_prefix names k : ∀ h a h',
  resolve names h a = Ok h' → (∀ n l, a !! n = Some l → k ≤ l) → take k h' = take k h.
Proof.
  induction names as [|name rest IH]; intros h a h' H Hk; simpl in H.
  { by injection H as <-. }
  inv_bind H. rewrite (IH _ _ _ H Hk).
  apply resolve_one_inv in Hx as (l & c & Hl & Hc & [[Hin ->]|(fields & Hin & _ & ->)]); [done|].
  apply take_insert_ge. by eapply Hk.
Qed.


Lemma resolve_one_shape h a name h' :
  resolve_one h a name = Ok h' → injective a →
  (∀ n c, cell h a n = Some c →
     dependencies c = [] ∨ dependencies c = (struct_fields c).*1) →
  ∀ n c, cell h' a n = Some c →
     dependencies c = [] ∨ dependencies c = (struct_fields c).*1.
Proof.
  intros Hx Hinj Hdeps k c. rewrite (resolve_one_cells _ _ _ _ Hx Hinj Hdeps). case_decide.
  - destruct (cell h a k) as [c0|]; [|done]. intros [= <-]. by right.
  - apply Hdeps.
Qed.

Lemma resolve_one_result h a name h' :
  resolve_one h a name = Ok h' → injective a →
  (∀ n c, cell h a n = Some c →
     dependencies c = [] ∨ dependencies c = (struct_fields c).*1) →
  ∀ n d, cell h a n = Some d → ∃ d', cell h' a n = Some d' ∧ result d' = result d.
Proof.
  intros Hx Hinj Hdeps n d Hd. rewrite (resolve_one_cells _ _ _ _ Hx Hinj Hdeps), Hd.
  case_decide; simpl; eauto.
Qed.

Lemma resolve_result names h a h' :
  resolve names h a = Ok h' → injective a →
  (∀ n c, cell h a n = Some c →
     dependencies c = [] ∨ dependencies c = (struct_fields c).*1) →
  ∀ n d, cell h a n = Some d → ∃ d', cell h' a n = Some d' ∧ result d' = result d.
Proof.
  intros Hx Hinj Hdeps n d Hd. rewrite (resolve_cells _ _ _ _ Hx Hinj Hdeps), Hd.
  case_decide; simpl; eauto.
Qed.

Lemma resolve_resolved names : ∀ h a h',
  resolve names h a = Ok h' → injective a →
  (∀ n c, cell h a n = Some c →
     dependencies c = [] ∨ dependencies c = (struct_fields c).*1) →
  ∀ n c', n ∈ names → cell h' a n = Some c' → resolved h' a c'.
Proof.
  induction names as [|name rest IH]; intros h a h' H Hinj Hdeps n c' Hn Hc'; simpl in H.
  { by apply elem_of_nil in Hn. }
  inv_bind H.
  pose proof (resolve_one_shape _ _ _ _ Hx Hinj Hdeps) as Hdeps1.
  destruct (decide (n ∈ rest)) as [Hr|Hr]; [by eapply IH|].
  apply elem_of_cons in Hn as [->|?]; [|done].
  rewrite (resolve_cells _ _ _ _ H Hinj Hdeps1), decide_False in Hc' by done.
  assert (∀ field : string * type,
    (∃ d, cell h a field.1 = Some d ∧ result d = Some field.2) →
    ∃ d, cell h' a field.1 = Some d ∧ result d = Some field.2) as Hmove.
  { intros field (d & Hd & Hrd).
    destruct (resolve_one_result _ _ _ _ Hx Hinj Hdeps _ _ Hd) as (d1 & Hd1 & Hr1).
    destruct (resolve_result _ _ _ _ H Hinj Hdeps1 _ _ Hd1) as (d2 & Hd2 & Hr2).
    exists d2. split; [done|congruence]. }
  rewrite (resolve_one_cells _ _ _ _ Hx Hinj Hdeps), decide_True in Hc' by done.
  apply resolve_one_inv in Hx as (l & c & Hl & Hc & [[Hin ->]|(fields & Hin & Hty & ->)]).
  - unfold cell in Hc'. rewrite Hl, Hc in Hc'. simpl in Hc'. injection Hc' as <-.
    unfold resolved. simpl. rewrite struct_fields_set_dependencies.
    assert (struct_fields c = []) as -> by (unfold struct_fields; by rewrite Hin).
    split_and!; [by left|done|constructor].
  - unfold cell in Hc'. rewrite Hl, Hc in Hc'. simpl in Hc'. injection Hc' as <-.
    unfold resolved. simpl. rewrite struct_fields_set_dependencies.
    assert (struct_fields c = fields) as -> by (unfold struct_fields; by rewrite Hin).
    split_and!; [right; eauto|done|].
    eapply Forall_impl; [exact Hty|]. exact Hmove.
Qed.

Lemma New_inv h0 (comps : Components World) order h a :
  New h0 comps order = Ok (h, a) →
  ∃ h1, populate comps (merge_sort string_le order) h0 ∅ = Ok (h1, a) ∧
        resolve (merge_sort string_le order) h1 a = Ok h ∧
        injective a ∧
        (∀ n c, cell h1 a n = Some c →
           dependencies c = [] ∨ dependencies c = (struct_fields c).*1).
Proof.
  unfold New. intros H.
  apply outcome_bind_ok in H as ([h1 a1] & Hp & H).
  apply outcome_bind_ok in H as (h2 & Hr & H).
  apply outcome_bind_ok in H as ([] & Hc & [= <- <-]).
  exists h1. split_and!; [done|done| |].
  - eapply populate_injective; [done|by intros ???%lookup_empty_Some|].
    by intros ??? ?%lookup_empty_Some.
  - intros n c Hc'. left. by eapply populate_built.
Qed.

Lemma check_fields_fail_name h a name fields : ∀ deps e,
  check_fields h a name fields deps = Fail e → ∃ msg, e = ComponentDefinitionError name msg.
Proof.
  induction fields as [|field rest IH]; intros deps e; simpl; [done|].
  destruct (a !! field.1) as [l|]; [|intros [= <-]; eauto].
  destruct (h !! l) as [dep|]; [|done].
  destruct (negb _); [|apply IH].
  destruct (result dep); simpl; [intros [= <-]; eauto|done].
Qed.

Lemma resolve_one_fail_name h a name e :
  resolve_one h a name = Fail e → ∃ msg, e = ComponentDefinitionError name msg.
Proof.
  unfold resolve_one.
  intros [H|(l & _ & H)]%outcome_bind_fail; [by destruct (a !! name)|].
  apply outcome_bind_fail in H as [H|(c & _ & H)]; [by destruct (h !! l)|].
  destruct (In_ (dyn_type (fn c))) as [|input [|]]; [done| |injection H as <-; eauto].
  destruct input; try (injection H as <-; eauto).
  apply outcome_bind_fail in H as [H|(deps & _ & H)]; [|done].
  by eapply check_fields_fail_name.
Qed.

Lemma resolve_panic names : ∀ h a,
  resolve names h a = Panic →
  ∃ pre n post h', names = pre ++ n :: post ∧
    resolve pre h a = Ok h' ∧ resolve_one h' a n = Panic.
Proof.
  induction names as [|name rest IH]; intros h a; simpl; [done|].
  intros [H|(h1 & Hh1 & H)]%outcome_bind_panic.
  - exists [], name, rest, h. done.
  - apply IH in H as (pre & n & post & h' & -> & Hpre & Hn).
    exists (name :: pre), n, post, h'. split_and!; [done| |done]. simpl. by rewrite Hh1.
Qed.

Lemma resolve_app pre : ∀ post h a h',
  resolve (pre ++ post) h a = Ok h' →
  ∃ h1, resolve pre h a = Ok h1 ∧ resolve post h1 a = Ok h'.
Proof.
  induction pre as [|n pre IH]; intros post h a h'; simpl; [eauto|].
  intros (h1 & Hh1 & H)%outcome_bind_ok. rewrite Hh1. simpl. by apply IH.
Qed.

Lemma resolve_built (comps : Components World) names h a h' :
  resolve names h a = Ok h' → injective a →
  (∀ n c, cell h a n = Some c →
     dependencies c = [] ∨ dependencies c = (struct_fields c).*1) →
  built_from comps h a → built_from comps h' a.
Proof.
  intros Hr Hinj Hdeps Hb n c. rewrite (resolve_cells _ _ _ _ Hr Hinj Hdeps).
  case_decide; [|apply Hb].
  destruct (cell h a n) as [c0|] eqn:Hc0; [|done]. intros [= <-]. simpl. by apply Hb.
Qed.

Lemma resolve_shape names h a h' :
  resolve names h a = Ok h' → injective a →
  (∀ n c, cell h a n = Some c →
     dependencies c = [] ∨ dependencies c = (struct_fields c).*1) →
  ∀ n c, cell h' a n = Some c →
     dependencies c = [] ∨ dependencies c = (struct_fields c).*1.
Proof.
  intros Hr Hinj Hdeps n c. rewrite (resolve_cells _ _ _ _ Hr Hinj Hdeps).
  case_decide; [|apply Hdeps].
  destruct (cell h a n) as [c0|] eqn:Hc0; [|done]. intros [= <-]. by right.
Qed.

Lemma resolve_allocated names h a h' :
  resolve names h a = Ok h' → allocated h a → allocated h' a.
Proof. intros Hr Hal n l Hl. rewrite (resolve_length _ _ _ _ Hr). by eapply Hal. Qed.

(** The first two loops of [New] and what they leave. *)
Lemma New_loops h0 (comps : Components World) names h1 a :
  populate comps names h0 ∅ = Ok (h1, a) →
  allocated h1 a ∧ injective a ∧ closed h1 a ∧ dom a = list_to_set names ∧
  built_from comps h1 a ∧
  (∀ n c, cell h1 a n = Some c →
     dependencies c = [] ∨ dependencies c = (struct_fields c).*1) ∧
  (∀ n, n ∈ names ↔ is_Some (cell h1 a n)) ∧
  (∀ n c, cell h1 a n = Some c → define comps n = Ok c).
Proof.
  intros Hp.
  pose proof (populate_spec comps _ _ _ _ _ Hp) as (Hb & _ & Hcells);
    [by intros ???%lookup_empty_Some|].
  pose proof (populate_closed _ _ _ _ _ Hp) as (Hcl & Hn & Hd).
  pose proof (populate_built _ _ _ _ _ Hp) as [Hbu Hde].
  split_and!; try done.
  - eapply populate_injective; [done|by intros ???%lookup_empty_Some|].
    by intros ??? ?%lookup_empty_Some.
  - intros n c Hc. left. by eapply Hde.
  - intros n c. unfold cell. destruct (a !! n) as [l|] eqn:E; [|done].
    destruct (Hcells n l E) as [[?%lookup_empty_Some _]|(c' & Hc' & ?)]; [done|]. congruence.
Qed.

(** X6.  Every error [New] returns is a ComponentDefinitionError whose Component is
    one of the names of the mapping (for a cycle: the name the cycle starts
    and ends with), and its message is what [Error] gives; [AsLoader] panics
    with that error. *)
Theorem New_error_names_a_component h (comps : Components World) order e :
  New h comps order = Fail e →
  ∃ name msg, e = ComponentDefinitionError name msg ∧ name ∈ order ∧ Error e = msg ∧
    AsLoader h comps order = PanicsWith e.
Proof.
  intros HN.
  cut (∃ name msg, e = ComponentDefinitionError name msg ∧ name ∈ order).
  { intros (name & msg & -> & ?). exists name, msg. unfold AsLoader. by rewrite HN. }
  unfold New in HN.
  apply outcome_bind_fail in HN as [H|([h1 a] & Hpop & H)].
  { apply populate_fail in H as (pre & n & post & Hn & _ & Hd).
    apply define_fail_name in Hd as [msg ->]. exists n, msg. split; [done|].
    apply merge_sort_elem. rewrite Hn. apply elem_of_app. right. left. }
  pose proof (New_loops _ _ _ _ _ Hpop) as (Hal & Hinj & Hcl & Hdom & Hbu & Hsh & Hin & _).
  apply outcome_bind_fail in H as [H|(h2 & Hres & H)].
  { apply resolve_fail in H as (pre & n & post & h' & Hn & _ & Hd).
    apply resolve_one_fail_name in Hd as [msg ->]. exists n, msg. split; [done|].
    apply merge_sort_elem. rewrite Hn. apply elem_of_app. right. left. }
  apply outcome_bind_fail in H as [H|([] & _ & H)]; [|done].
  pose proof (resolve_closed _ _ _ _ Hres Hcl) as [Hcl2 Hin2].
  destruct (check_cycles_spec (S (size a)) h2 a Hcl2 ltac:(lia) (merge_sort string_le order))
    as [[Hok _]|(p & d & i & Hw & Hnd & Hi & (n & Hn & Hp) & Hf)].
  { intros n Hn. apply Hin2, Hin. done. }
  { congruence. }
  rewrite Hf in H. injection H as <-. eexists _, _. split; [done|].
  destruct p as [|n' p]; [done|]. injection Hp as ->.
  assert (is_Some (a !! d)) as Hd.
  { apply (walk_in_dom h2 a Hcl2 (p ++ [d]) n); [by apply Hin2, Hin|done|].
    apply elem_of_cons. right. apply elem_of_app. right. left. }
  apply merge_sort_elem. apply (elem_of_list_to_set (C := gset string)).
  rewrite <- Hdom. by apply elem_of_dom.
Qed.

Lemma value_type_None t :
  value_type t = None → length (Out t) ≤ 2 → Out t = [] ∨ Out t = [typeOfError].
Proof.
  unfold value_type. destruct (Out t) as [|o0 [|o1 [|o2 outs]]]; simpl; try done; [eauto| |lia].
  destruct (type_eqb o0 typeOfError) eqn:E; [|done]. apply type_eqb_eq in E as ->. eauto.
Qed.

Lemma define_outs (comps : Components World) name c :
  define comps name = Ok c →
  is_func (dyn_type (fn c)) = true ∧ length (Out (dyn_type (fn c))) ≤ 2 ∧
  ∀ o, Out (dyn_type (fn c)) !! 1 = Some o → o = typeOfError.
Proof.
  unfold define. destruct (comps !! name) as [[f|]|]; try done.
  destruct (is_func (dyn_type f)) eqn:Hf; simpl; [|done].
  intros (r & Hr & [= <-])%outcome_bind_ok. simpl. split; [done|].
  unfold declared_result in Hr.
  destruct (Out (dyn_type f)) as [|o0 [|o1 [|o2 outs]]]; simpl; try done.
  - split; [lia|done].
  - split; [lia|done].
  - destruct (type_eqb o1 typeOfError) eqn:E; [|done]. apply type_eqb_eq in E as ->.
    split; [lia|]. by intros o [= <-].
Qed.

(** X7.  [New] panics only in the way of the type-mismatch message: when some
    component has a field that names a component whose constructor declares no
    result (no output, or only an error).  Nothing else in [New] panics. *)
Theorem New_panics_only_on_dependency_without_result h (comps : Components World) order :
  New h comps order = Panic →
  ∃ name f fields field g,
    name ∈ order ∧ comps !! name = Some (Some f) ∧
    In_ (dyn_type f) = [TStruct fields] ∧ field ∈ fields ∧
    comps !! field.1 = Some (Some g) ∧
    (Out (dyn_type g) = [] ∨ Out (dyn_type g) = [typeOfError]).
Proof.
  unfold New. intros HN.
  apply outcome_bind_panic in HN as [H|([h1 a] & Hpop & H)]; [by apply populate_not_panic in H|].
  pose proof (New_loops _ _ _ _ _ Hpop) as (Hal & Hinj & Hcl & Hdom & Hbu & Hsh & Hin & Hdef).
  apply outcome_bind_panic in H as [H|(h2 & Hres & H)].
  - apply resolve_panic in H as (pre & n & post & h' & Hn & Hpre & Hd).
    pose proof (resolve_built comps _ _ _ _ Hpre Hinj Hsh Hbu) as Hbu'.
    pose proof (resolve_allocated _ _ _ _ Hpre Hal) as Hal'.
    assert (n ∈ merge_sort string_le order) as Hnin.
    { rewrite Hn. apply elem_of_app. right. left. }
    assert (is_Some (cell h' a n)) as [c Hc].
    { apply (resolve_closed _ _ _ _ Hpre Hcl), Hin. done. }
    unfold resolve_one in Hd. unfold cell in Hc.
    destruct (a !! n) as [l|] eqn:Hl; [|done]. simpl in Hd. rewrite Hc in Hd. simpl in Hd.
    destruct (In_ (dyn_type (fn c))) as [|input [|]] eqn:Hi; [done| |done].
    destruct input as [ | | | |fields|]; try done.
    apply outcome_bind_panic in Hd as [Hd|(deps & _ & Hd)]; [|done].
    apply check_fields_panic in Hd as (field & d & Hf & Hcd & Hrd); [|done].
    assert (cell h' a n = Some c) as Hcn by (unfold cell; by rewrite Hl).
    destruct (Hbu' n c Hcn) as (Hcomp & _).
    destruct (Hbu' _ d Hcd) as (Hcompd & Hres & _).
    exists n, (fn c), fields, field, (fn d). split_and!; try done; [by apply merge_sort_elem|].
    rewrite Hrd in Hres. apply value_type_None; [done|].
    (* the cell of the dependency was defined by the first loop *)
    pose proof (resolve_cells _ _ _ _ Hpre Hinj Hsh field.1) as Heq. rewrite Hcd in Heq.
    destruct (cell h1 a field.1) as [d1|] eqn:Hd1; [|by case_decide].
    apply Hdef, define_outs in Hd1 as (_ & Hlen & _).
    case_decide; simpl in Heq; injection Heq as ->; done.
  - apply outcome_bind_panic in H as [H|([] & _ & H)]; [|done].
    pose proof (resolve_closed _ _ _ _ Hres Hcl) as [Hcl2 Hin2].
    destruct (check_cycles_spec (S (size a)) h2 a Hcl2 ltac:(lia) (merge_sort string_le order))
      as [[Hok _]|(p & d & i & _ & _ & _ & _ & Hf)]; [|congruence..].
    intros n Hn. apply Hin2, Hin. done.
Qed.

Lemma populate_first_failure (comps : Components World) name e names : ∀ h a,
  name ∈ names → define comps name = Fail e →
  (∀ n, n ∈ names → string_le n name → n ≠ name → ∃ c, define comps n = Ok c) →
  Sorted string_le names →
  populate comps names h a = Fail e.
Proof.
  induction names as [|n rest IH]; intros h a Hin Hd Hok Hs; [by apply elem_of_nil in Hin|].
  simpl. destruct (decide (n = name)) as [->|Hn]; [by rewrite Hd|].
  apply elem_of_cons in Hin as [->|Hin]; [done|].
  apply Sorted_StronglySorted in Hs; [|apply _]. apply StronglySorted_inv in Hs as [Hs Hall].
  rewrite Forall_forall in Hall.
  destruct (Hok n) as [c ->]; [left|by apply Hall|done|]. simpl.
  apply IH; [done|done| |by apply StronglySorted_Sorted].
  intros n' Hn'. apply Hok. by right.
Qed.

(** X8.  The checks of the first loop come before every other check: when the
    definition of [name] fails them (nil, not a function, more than two
    results, a second result that is no error) and every name sorted before
    [name] passes them, [New] returns the error of [name], whatever is wrong
    with the dependencies of any component. *)
Theorem New_reports_least_definition_error h (comps : Components World) order name e :
  name ∈ order → define comps name = Fail e →
  (∀ n, n ∈ order → string_le n name → n ≠ name → ∃ c, define comps n = Ok c) →
  New h comps order = Fail e ∧ ∃ msg, e = ComponentDefinitionError name msg.
Proof.
  intros Hin Hd Hok. split; [|by eapply define_fail_name].
  unfold New. rewrite (populate_first_failure comps name e); [done|by apply merge_sort_elem|done| |].
  - intros n Hn. apply Hok. by apply merge_sort_elem.
  - apply Sorted_merge_sort. apply _.
Qed.

(** X1.  New terminates on every mapping, with or without cycles: the depth of
    [detectCycles] never exceeds the number of components, so [New] returns
    a loader, returns an error, or panics. *)
Theorem New_terminates_on_every_mapping h (comps : Components World) order :
  (∃ r, New h comps order = Ok r) ∨ (∃ e, New h comps order = Fail e) ∨
  New h comps order = Panic.
Proof.
  pose proof (New_terminates h comps order) as Hn.
  destruct (New h comps order); eauto. done.
Qed.

Lemma New_cell h0 (comps : Components World) order h a name :
  New h0 comps order = Ok (h, a) → name ∈ order →
  ∃ l c0, a !! name = Some l ∧ length h0 ≤ l ∧ define comps name = Ok c0 ∧
    h !! l = Some (set_dependencies c0 (struct_fields c0).*1).
Proof.
  intros HN Hn. pose proof (New_wf _ _ _ _ _ HN) as (_ & _ & _ & Hdom).
  destruct (New_inv _ _ _ _ _ HN) as (h1 & Hp & Hr & Hinj & Hdeps).
  destruct (populate_prefix _ _ _ _ _ _ Hp) as (news & -> & Hnew).
  pose proof (New_loops _ _ _ _ _ Hp) as (_ & _ & _ & _ & _ & _ & Hin & Hdef).
  assert (is_Some (a !! name)) as [l Hl].
  { apply elem_of_dom. rewrite Hdom. by apply elem_of_list_to_set. }
  assert (length h0 ≤ l) as Hge by (by destruct (Hnew name l Hl) as [?%lookup_empty_Some|?]).
  pose proof (resolve_cells _ _ _ _ Hr Hinj Hdeps name) as Hcell.
  rewrite decide_True in Hcell by (by apply merge_sort_elem).
  assert (is_Some (cell (h0 ++ news) a name)) as [c Hc].
  { apply Hin. by apply merge_sort_elem. }
  rewrite Hc in Hcell. simpl in Hcell. unfold cell in Hcell. rewrite Hl in Hcell.
  exists l, c. split_and!; [done|done|by apply Hdef|done].
Qed.

(** X2.  The loader [New] returns has exactly the names of the mapping.  The cell
    of each name is new (the cells that existed before are untouched) and holds
    the mapping's function, the result type the first loop reads off its
    outputs, the fields of its struct parameter as dependencies, and an empty
    cache: nothing is loaded or loading. *)
Theorem New_allocates_pending_components h0 (comps : Components World) order h a :
  New h0 comps order = Ok (h, a) →
  take (length h0) h = h0 ∧ dom a = list_to_set order ∧
  ∀ name, name ∈ order →
    ∃ l f, a !! name = Some l ∧ length h0 ≤ l ∧ comps !! name = Some (Some f) ∧
      h !! l = Some {| fn := f; result := value_type (dyn_type f);
                       dependencies :=
                         (match In_ (dyn_type f) with
                          | TStruct fields :: _ => fields
                          | _ => []
                          end).*1;
                       value := ANil; err := None; loaded := false; loading := false |} ∧
      state <$> h !! l = Some Pending.
Proof.
  intros HN. pose proof (New_wf _ _ _ _ _ HN) as (_ & _ & _ & Hdom).
  split_and!; [|done|].
  - destruct (New_inv _ _ _ _ _ HN) as (h1 & Hp & Hr & Hinj & Hdeps).
    destruct (populate_prefix _ _ _ _ _ _ Hp) as (news & -> & Hnew).
    erewrite resolve_prefix; [|done|].
    + by rewrite take_app_length.
    + intros n l Hl. by destruct (Hnew n l Hl) as [?%lookup_empty_Some|?].
  - intros name Hn.
    destruct (New_cell _ _ _ _ _ _ HN Hn) as (l & c & Hl & Hge & Hc & Hcell).
    apply define_spec in Hc as (Hf & Hres & Hd & Hv & He & Hld & Hlg).
    exists l, (fn c). split_and!; [done|done|done| |].
    2:{ rewrite Hcell. simpl. unfold state. simpl. by rewrite Hld, Hlg. }
    rewrite Hcell. f_equal. unfold set_dependencies, struct_fields.
    destruct c; simpl in *. by subst.
Qed.

Lemma New_resolved h0 (comps : Components World) order h a name c :
  New h0 comps order = Ok (h, a) → cell h a name = Some c → resolved h a c.
Proof.
  intros HN Hc. pose proof (New_wf _ _ _ _ _ HN) as (_ & _ & _ & Hdom).
  destruct (New_inv _ _ _ _ _ HN) as (h1 & Hp & Hr & Hinj & Hdeps).
  assert (name ∈ merge_sort string_le order) as Hn.
  { apply merge_sort_elem. apply (elem_of_list_to_set (C := gset string)).
    rewrite <- Hdom. apply elem_of_dom. eapply cell_is_Some_dom. eauto. }
  exact (resolve_resolved _ _ _ _ Hr Hinj Hdeps name c Hn Hc).
Qed.

(** X3.  In the loader [New] returns every constructor takes nothing or one
    struct; the dependencies of a component are the names of the fields of
    that struct, in order; and every field names a component of the loader
    whose result type is the type of the field. *)
Theorem New_wires_typed_dependencies h0 (comps : Components World) order h a name c :
  New h0 comps order = Ok (h, a) → cell h a name = Some c →
  (In_ (dyn_type (fn c)) = [] ∨ ∃ fields, In_ (dyn_type (fn c)) = [TStruct fields]) ∧
  dependencies c = (struct_fields c).*1 ∧
  ∀ k field, struct_fields c !! k = Some field →
    dependencies c !! k = Some field.1 ∧
    ∃ d, cell h a field.1 = Some d ∧ result d = Some field.2.
Proof.
  intros HN Hc. destruct (New_resolved _ _ _ _ _ _ _ HN Hc) as (Hin & Hd & Hty).
  split_and!; [done|done|].
  intros k field Hk. split.
  - rewrite Hd, list_lookup_fmap, Hk. done.
  - rewrite Forall_lookup in Hty. by eapply Hty.
Qed.

(** X4.  The loader [New] returns has no dependency cycle: no chain of
    dependencies leads from a name back to itself, and every dependency is a
    component of the loader. *)
Theorem New_loader_is_acyclic h0 (comps : Components World) order h a :
  New h0 comps order = Ok (h, a) →
  (∀ x q, ¬ walk h a (x :: q ++ [x])) ∧
  (∀ x y, edge h a x y → is_Some (cell h a y)).
Proof.
  intros HN. pose proof (New_wf _ _ _ _ _ HN) as (_ & Hcl & Hac & _).
  split; [|exact Hcl].
  intros x q Hw. apply (NoDup_closed_walk x q). apply Hac; [|done].
  destruct q as [|y q]; simpl in Hw; destruct Hw as [(c & Hc & _) _]; eauto.
Qed.

Lemma valid_define (comps : Components World) n :
  valid_component comps n → ∃ c, define comps n = Ok c.
Proof.
  intros (f & Hf & Hfun & Hlen & Hsnd & _). unfold define. rewrite Hf, Hfun. simpl.
  unfold declared_result.
  destruct (Out (dyn_type f)) as [|o0 [|o1 [|o2 outs]]]; simpl in *; eauto; [|lia].
  rewrite (Hsnd o1 eq_refl), type_eqb_refl. simpl. eauto.
Qed.

Lemma populate_ok (comps : Components World) names : ∀ h a,
  (∀ n, n ∈ names → ∃ c, define comps n = Ok c) →
  ∃ h1 a1, populate comps names h a = Ok (h1, a1).
Proof.
  induction names as [|n rest IH]; intros h a Hd; simpl; [eauto|].
  destruct (Hd n) as [c ->]; [left|]. simpl. apply IH. intros n' Hn'. apply Hd. by right.
Qed.

Lemma allocated_cell h a n : allocated h a → is_Some (a !! n) → is_Some (cell h a n).
Proof.
  intros Hal [l Hl]. unfold cell. rewrite Hl. apply lookup_lt_is_Some. by eapply Hal.
Qed.

Lemma resolve_one_valid (comps : Components World) h a name :
  valid_component comps name →
  allocated h a → dom a = dom comps → built_from comps h a →
  ∃ h', resolve_one h a name = Ok h'.
Proof.
  intros (f & Hf & _ & _ & _ & Hin) Hal Hdom Hbu.
  assert (∀ n g, comps !! n = Some (Some g) → ∃ c, cell h a n = Some c ∧ fn c = g) as Hcell.
  { intros n g Hg.
    destruct (allocated_cell h a n Hal) as [c Hc].
    { apply elem_of_dom. rewrite Hdom. apply elem_of_dom. eauto. }
    exists c. split; [done|]. destruct (Hbu n c Hc) as (Hg' & _). congruence. }
  destruct (Hcell name f Hf) as (c & Hc & <-).
  unfold resolve_one. unfold cell in Hc. destruct (a !! name) as [l|]; [|done].
  simpl. rewrite Hc. simpl.
  destruct Hin as [->|(fields & -> & Hty)]; [eauto|].
  rewrite (check_fields_ok h a name fields []); [simpl; eauto|].
  apply Forall_forall. intros field Hfield.
  destruct (Hty field Hfield) as (g & Hg & Hv).
  destruct (Hcell _ g Hg) as (d & Hd & <-). exists d. split; [done|].
  destruct (Hbu _ d Hd) as (_ & -> & _). done.
Qed.

Lemma resolve_single h a name : resolve [name] h a = resolve_one h a name.
Proof. simpl. by destruct (resolve_one h a name). Qed.

Lemma resolve_valid (comps : Components World) names : ∀ h a,
  (∀ n, n ∈ names → valid_component comps n) →
  allocated h a → injective a → dom a = dom comps → built_from comps h a →
  (∀ n c, cell h a n = Some c →
     dependencies c = [] ∨ dependencies c = (struct_fields c).*1) →
  ∃ h', resolve names h a = Ok h'.
Proof.
  induction names as [|name rest IH]; intros h a Hv Hal Hinj Hdom Hbu Hsh; simpl; [eauto|].
  destruct (resolve_one_valid comps h a name) as [h1 H1]; try done; [apply Hv; left|].
  rewrite H1. simpl. rewrite <- resolve_single in H1.
  apply IH; try done.
  - intros n Hn. apply Hv. by right.
  - by eapply resolve_allocated.
  - by eapply resolve_built.
  - by eapply resolve_shape.
Qed.

Lemma walk_drop h a i : ∀ p, walk h a p → walk h a (drop i p).
Proof.
  induction i as [|i IH]; intros p Hw; [by rewrite drop_0|].
  destruct p as [|x p]; [done|]. simpl. apply IH. by destruct Hw.
Qed.

Lemma walk_chain (comps : Components World) h a :
  (∀ x y, edge h a x y → depends_on comps x y) → ∀ p, walk h a p → chain comps p.
Proof.
  intros He. induction p as [|x p IH]; [done|]. intros [Hx Hw]. split; [|by apply IH].
  destruct p; [done|]. by apply He.
Qed.

Lemma chain_walk (comps : Components World) h a :
  (∀ x y, depends_on comps x y → edge h a x y) → ∀ p, chain comps p → walk h a p.
Proof.
  intros He. induction p as [|x p IH]; [done|]. intros [Hx Hw]. split; [|by apply IH].
  destruct p; [done|]. by apply He.
Qed.

Lemma resolved_edge (comps : Components World) h a x y :
  built_from comps h a → (∀ n c, cell h a n = Some c → resolved h a c) →
  edge h a x y → depends_on comps x y.
Proof.
  intros Hbu Hre (c & Hc & Hy). destruct (Hbu x c Hc) as (Hf & _).
  destruct (Hre x c Hc) as ([Hin|[fields Hin]] & Hd & _).
  - exfalso. unfold struct_fields in Hd. rewrite Hin in Hd. rewrite Hd in Hy.
    by apply elem_of_nil in Hy.
  - exists (fn c), fields. split_and!; [done|done|].
    unfold struct_fields in Hd. rewrite Hin in Hd. by rewrite <- Hd.
Qed.

(** X5.  [New] returns a loader exactly for the valid acyclic mappings: every
    definition is a function with at most two results, the second an error,
    and with no parameter or one struct each of whose fields names a
    component of the field's type; and no chain of such fields leads from a
    name back to itself.  [AsLoader] then returns the same loader. *)
Theorem New_succeeds_iff_valid h (comps : Components World) order :
  ranges comps order →
  (∃ r, New h comps order = Ok r ∧ AsLoader h comps order = Returns r) ↔
  (∀ name, name ∈ order → valid_component comps name) ∧
  (∀ x q, ¬ chain comps (x :: q ++ [x])).
Proof.
  intros [_ Hrange]. split.
  - intros ([h2 a] & HN & _).
    pose proof (New_wf _ _ _ _ _ HN) as (Hal & Hcl & Hac & Hdom).
    destruct (New_inv _ _ _ _ _ HN) as (h1 & Hp & Hr & Hinj & Hsh).
    pose proof (New_loops _ _ _ _ _ Hp) as (_ & _ & _ & _ & Hbu & _ & Hin & Hdef).
    pose proof (resolve_built comps _ _ _ _ Hr Hinj Hsh Hbu) as Hbu2.
    assert (∀ n c, cell h2 a n = Some c → resolved h2 a c) as Hres.
    { intros n c Hc. apply (resolve_resolved _ _ _ _ Hr Hinj Hsh n c); [|done].
      apply Hin. rewrite (resolve_cells _ _ _ _ Hr Hinj Hsh) in Hc.
      case_decide; [by destruct (cell h1 a n)|eauto]. }
    split.
    + intros name Hname.
      assert (is_Some (cell h2 a name)) as [c Hc].
      { apply allocated_cell; [done|]. apply elem_of_dom. rewrite Hdom.
        by apply elem_of_list_to_set. }
      destruct (Hbu2 name c Hc) as (Hf & _).
      destruct (Hres name c Hc) as (Hshape & _ & Hty).
      assert (∃ c1, define comps name = Ok c1 ∧ fn c1 = fn c) as (c1 & Hc1 & Hfn).
      { pose proof (resolve_cells _ _ _ _ Hr Hinj Hsh name) as Heq. rewrite Hc in Heq.
        destruct (cell h1 a name) as [c1|] eqn:E1; [|by case_decide].
        exists c1. split; [by apply Hdef|]. case_decide; by injection Heq as ->. }
      apply define_outs in Hc1 as (Hfun & Hlen & Hsnd). rewrite Hfn in Hfun, Hlen, Hsnd.
      exists (fn c). split_and!; try done.
      destruct Hshape as [?|[fields Hfields]]; [by left|right].
      exists fields. split; [done|]. intros field Hfield.
      unfold struct_fields in Hty. rewrite Hfields in Hty. rewrite Forall_forall in Hty.
      destruct (Hty field Hfield) as (d & Hd & Hrd).
      destruct (Hbu2 _ d Hd) as (Hg & Hv & _). exists (fn d). split; [done|congruence].
    + intros x q Hch. apply (NoDup_closed_walk x q).
      assert (walk h2 a (x :: q ++ [x])) as Hw.
      { eapply chain_walk; [|exact Hch].
        intros x' y' (f & fields & Hf & Hfields & Hy).
        assert (is_Some (cell h2 a x')) as [c Hc].
        { apply allocated_cell; [done|]. apply elem_of_dom. rewrite Hdom, <- Hrange.
          apply elem_of_dom. eauto. }
        exists c. split; [done|]. destruct (Hbu2 x' c Hc) as (Hf' & _).
        destruct (Hres x' c Hc) as (_ & -> & _). unfold struct_fields.
        assert (fn c = f) as -> by congruence. by rewrite Hfields. }
      apply Hac; [|done].
      destruct q as [|y q]; simpl in Hw; destruct Hw as [(c & Hc & _) _]; eauto.
  - intros [Hvalid Hacyc].
    cut (∃ r, New h comps order = Ok r).
    { intros [r Hr]. exists r. split; [done|]. unfold AsLoader. by rewrite Hr. }
    unfold New.
    destruct (populate_ok comps (merge_sort string_le order) h ∅) as (h1 & a & Hp).
    { intros n Hn. apply valid_define, Hvalid. by apply merge_sort_elem. }
    rewrite Hp. simpl.
    pose proof (New_loops _ _ _ _ _ Hp) as (Hal & Hinj & Hcl & Hdom & Hbu & Hsh & Hin & Hdef).
    assert (dom a = dom comps) as Hdom'.
    { rewrite Hdom, Hrange. apply set_eq. intros n. rewrite !elem_of_list_to_set.
      apply merge_sort_elem. }
    destruct (resolve_valid comps (merge_sort string_le order) h1 a) as [h2 Hr]; try done.
    { intros n Hn. apply Hvalid. by apply merge_sort_elem. }
    rewrite Hr. simpl.
    pose proof (resolve_closed _ _ _ _ Hr Hcl) as [Hcl2 Hin2].
    pose proof (resolve_built comps _ _ _ _ Hr Hinj Hsh Hbu) as Hbu2.
    assert (∀ n c, cell h2 a n = Some c → resolved h2 a c) as Hres.
    { intros n c Hc. apply (resolve_resolved _ _ _ _ Hr Hinj Hsh n c); [|done].
      apply Hin, Hin2. eauto. }
    destruct (check_cycles_spec (S (size a)) h2 a Hcl2 ltac:(lia) (merge_sort string_le order))
      as [[-> _]|(p & d & i & Hw & Hnd & Hi & _ & _)].
    { intros n Hn. apply Hin2, Hin. done. }
    { simpl. eauto. }
    exfalso. apply (walk_drop h2 a i) in Hw. rewrite drop_app_le in Hw.
    2:{ apply lookup_lt_Some in Hi. lia. }
    rewrite (drop_S _ _ _ Hi) in Hw.
    apply (Hacyc d (drop (S i) p)).
    eapply walk_chain; [|exact Hw]. intros x y. by apply resolved_edge.
Qed.

(** *** The first error of [New] *)

Lemma define_well_defined (comps : Components World) name c :
  define comps name = Ok c → well_defined comps name.
Proof.
  intros H. destruct (define_spec _ _ _ H) as (Hf & _).
  destruct (define_outs _ _ _ H) as (? & ? & ?). by exists (fn c).
Qed.

Lemma define_fail (comps : Components World) name e :
  define comps name = Fail e → definition_error comps name e.
Proof.
  unfold define. destruct (comps !! name) as [[f|]|] eqn:E.
  2,3: intros [= <-]; constructor; auto.
  destruct (is_func (dyn_type f)) eqn:Hf; simpl.
  2:{ intros [= <-]. by apply not_a_function. }
  unfold declared_result.
  destruct (Out (dyn_type f)) as [|o0 [|o1 [|o2 outs]]] eqn:Ho; cbn [bind]; try done.
  - destruct (type_eqb o1 typeOfError) eqn:Ht; cbn [bind]; [done|].
    intros [= <-]. eapply second_result_no_error; [done|done|done|].
    intros Heq. apply type_eqb_eq in Heq. congruence.
  - intros [= <-]. pose proof (too_many_results comps name f E Hf) as H.
    rewrite Ho in H. apply H. simpl. lia.
Qed.

(** The first field that fails decides the error of a component. *)
Lemma check_fields_fail h a name fields : ∀ deps e,
  check_fields h a name fields deps = Fail e →
  ∃ before field after, fields = before ++ field :: after ∧
    Forall (λ fd, ∃ d, cell h a fd.1 = Some d ∧ result d = Some fd.2) before ∧
    ((a !! field.1 = None ∧
      e = ComponentDefinitionError name
            ("'" +:+ name +:+ "' depends on undefined component '" +:+ field.1 +:+ "'")) ∨
     (∃ d r, cell h a field.1 = Some d ∧ result d = Some r ∧ r ≠ field.2 ∧
        e = ComponentDefinitionError name
              ("'" +:+ name +:+ "' depends on component '" +:+ field.1 +:+ "' with type " +:+
               type_String r +:+ ", but '" +:+ name +:+ "' expects " +:+
               type_String field.2))).
Proof.
  induction fields as [|field rest IH]; intros deps e; simpl; [done|].
  destruct (a !! field.1) as [l|] eqn:El.
  2:{ intros [= <-]. exists [], field, rest. split_and!; [done|constructor|]. by left. }
  destruct (h !! l) as [dep|] eqn:Ed; [|done].
  assert (cell h a field.1 = Some dep) as Hcell by (unfold cell; by rewrite El).
  destruct (result dep) as [r|] eqn:Er; simpl.
  - destruct (type_eqb r field.2) eqn:Ht; simpl.
    + apply type_eqb_eq in Ht as ->. intros H.
      apply IH in H as (before & fd & after & -> & Hb & He).
      exists (field :: before), fd, after. split_and!; [done| |done].
      constructor; [|done]. eauto.
    + intros [= <-]. exists [], field, rest. split_and!; [done|constructor|].
      right. exists dep, r. split_and!; try done.
      intros ->. assert (type_eqb field.2 field.2 = true) by (by apply type_eqb_eq).
      congruence.
  - done.
Qed.

Lemma dom_names (a : gmap string nat) names n :
  dom a = list_to_set names → n ∈ names ↔ is_Some (a !! n).
Proof. intros Hdom. by rewrite <- elem_of_dom, Hdom, elem_of_list_to_set. Qed.

(** What the cells of a loader under construction say of the mapping. *)
Lemma built_field_ok (comps : Components World) names h a field :
  built_from comps h a → dom a = list_to_set names →
  (∃ d, cell h a field.1 = Some d ∧ result d = Some field.2) →
  field_ok comps names field.
Proof.
  intros Hb Hdom (d & Hd & Hr). destruct (Hb _ _ Hd) as (Hc & Hres & _). split.
  - apply (dom_names a); [done|].
    unfold cell in Hd. destruct (a !! field.1); [eauto|done].
  - exists (fn d). split; [done|]. congruence.
Qed.

Lemma resolve_one_fail (comps : Components World) names h a name e :
  built_from comps h a → dom a = list_to_set names →
  resolve_one h a name = Fail e → dependency_error comps names name e.
Proof.
  intros Hb Hdom. unfold resolve_one.
  destruct (a !! name) as [l|] eqn:El; [|done]. simpl.
  destruct (h !! l) as [c|] eqn:Ec; [|done]. simpl.
  assert (cell h a name = Some c) as Hcell by (unfold cell; by rewrite El).
  destruct (Hb _ _ Hcell) as (Hc & _).
  destruct (In_ (dyn_type (fn c))) as [|input [|input2 ins]] eqn:Hin; [done| |].
  - destruct input as [ | | | |fields|ins outs];
      try (intros [= <-]; by apply (parameter_no_struct _ _ _ (fn c) _ Hc Hin)).
    intros [H|(deps & H & ?)]%outcome_bind_fail; [|done].
    apply check_fields_fail in H as (before & field & after & -> & Hbef & He).
    assert (Forall (field_ok comps names) before) as Hok.
    { eapply Forall_impl; [exact Hbef|]. intros fd. by apply built_field_ok. }
    destruct He as [[Hn ->]|(d & r & Hd & Hr & Hne & ->)].
    + eapply undefined_dependency; [done|done|done|].
      intros [l' Hl']%(dom_names a); [congruence|done].
    + destruct (Hb _ _ Hd) as (Hcd & Hres & _).
      eapply dependency_type_mismatch; [done|done|done| |done| |done].
      * apply (dom_names a); [done|].
        unfold cell in Hd. destruct (a !! field.1); [eauto|done].
      * congruence.
  - intros [= <-]. pose proof (too_many_parameters comps names name (fn c) Hc) as H.
    rewrite Hin in H. apply H. simpl. lia.
Qed.

Lemma resolve_one_ok (comps : Components World) names h a name h' :
  built_from comps h a → dom a = list_to_set names →
  resolve_one h a name = Ok h' → dependencies_ok comps names name.
Proof.
  intros Hb Hdom H.
  destruct (resolve_one_inv _ _ _ _ H) as (l & c & Hl & Hc & Hcases).
  assert (cell h a name = Some c) as Hcell by (unfold cell; by rewrite Hl).
  destruct (Hb _ _ Hcell) as (Hcomp & _). exists (fn c). split; [done|].
  destruct Hcases as [[Hin _]|(fields & Hin & Hfs & _)]; [by left|right].
  exists fields. split; [done|]. eapply Forall_impl; [exact Hfs|].
  intros fd. by apply built_field_ok.
Qed.

Lemma resolve_ok (comps : Components World) names pre : ∀ h a h',
  injective a →
  (∀ n c, cell h a n = Some c →
     dependencies c = [] ∨ dependencies c = (struct_fields c).*1) →
  built_from comps h a → dom a = list_to_set names →
  resolve pre h a = Ok h' →
  Forall (dependencies_ok comps names) pre ∧ built_from comps h' a.
Proof.
  induction pre as [|n pre IH]; intros h a h' Hinj Hsh Hb Hdom; simpl.
  - intros [= <-]. by split.
  - intros H. inv_bind H. rename x into h1.
    assert (resolve [n] h a = Ok h1) as H1 by (by rewrite resolve_single).
    assert (dependencies_ok comps names n) as Hn by (by eapply resolve_one_ok).
    destruct (IH h1 a h' Hinj) as [Hpre Hb'];
      [by eapply resolve_shape|by eapply resolve_built|done|done|].
    split; [by constructor|done].
Qed.

(** Claim C6, amended.  [New] does not depend on the order in which the map
    hands the names out: it sorts them.  Its error is the first one in the
    order of its three loops, each of which runs over all the sorted names
    before the next one starts.  An error of the first loop is the one of the
    first name whose definition fails a check (nil, no function, more than two
    results, a second result that is no error), the names before it being well
    defined.  An error of the second loop comes only when every name is well
    defined; it is the one of the first name whose parameters fail a check,
    and within that name the one of the first field that fails, be it for
    naming no component or for its type: the fields before it pass both
    checks, whatever the fields after it are.  An error of the third loop
    comes only when every name passed the first two, and is the cycle found
    from the first name that has one. *)
Theorem New_first_error_by_loops h (comps : Components World) order1 order2 :
  order1 ≡ₚ order2 →
  New h comps order1 = New h comps order2 ∧
  ∃ names, names = merge_sort string_le order1 ∧ Sorted string_le names ∧ names ≡ₚ order1 ∧
    ∀ e, New h comps order1 = Fail e →
      (∃ pre n post, names = pre ++ n :: post ∧
         Forall (well_defined comps) pre ∧ definition_error comps n e) ∨
      (Forall (well_defined comps) names ∧
       ∃ pre n post, names = pre ++ n :: post ∧
         Forall (dependencies_ok comps names) pre ∧ dependency_error comps names n e) ∨
      (Forall (well_defined comps) names ∧ Forall (dependencies_ok comps names) names ∧
       ∃ h1 a h2 pre n post cycle, populate comps names h ∅ = Ok (h1, a) ∧
         resolve names h1 a = Ok h2 ∧ names = pre ++ n :: post ∧
         check_cycles (S (size a)) pre h2 a = Ok tt ∧
         detectCycles (S (size a)) h2 a (a !! n) [n] = Ok (Some cycle) ∧
         e = ComponentDefinitionError (default "" (head cycle)) (cycle_message cycle)).
Proof.
  intros Hp. split; [unfold New; by rewrite (sort_order _ _ Hp)|].
  exists (merge_sort string_le order1).
  split_and!; [done|apply Sorted_merge_sort; apply _|apply merge_sort_Permutation|].
  set (names := merge_sort string_le order1).
  intros e. unfold New. fold names.
  intros [H|([h1 a] & Hpop & H)]%outcome_bind_fail.
  { left. apply populate_fail in H as (pre & n & post & ? & Hpre & Hn).
    exists pre, n, post. split_and!; [done| |by apply define_fail].
    eapply Forall_impl; [exact Hpre|]. intros n' [c Hc]. by eapply define_well_defined. }
  right.
  destruct (New_loops _ _ _ _ _ Hpop) as (Hal & Hinj & _ & Hdom & Hb & Hsh & Hin & Hdef).
  assert (Forall (well_defined comps) names) as Hwd.
  { apply Forall_forall. intros n [c Hc]%Hin. eapply define_well_defined. by eapply Hdef. }
  apply outcome_bind_fail in H as [H|(h2 & Hres & H)].
  { left. split; [done|].
    apply resolve_fail in H as (pre & n & post & h' & ? & Hpre & Hn).
    destruct (resolve_ok comps names pre h1 a h') as [Hok Hb']; try done.
    exists pre, n, post. split_and!; [done|done|]. by eapply resolve_one_fail. }
  right. split; [done|].
  destruct (resolve_ok comps names names h1 a h2) as [Hok _]; try done.
  split; [done|].
  apply outcome_bind_fail in H as [H|([] & _ & H)]; [|done].
  apply check_cycles_fail in H as (pre & n & post & cycle & ? & ? & ? & ?).
  exists h1, a, h2, pre, n, post, cycle. done.
Qed.

(** X9.  [detectCycles] from a component [x], in a loader whose dependencies are
    all defined, with a depth of at least the number of components: it
    returns (no panic, depth not exhausted), and it decides whether a cycle
    can be reached from [x].  When it returns nil, no chain of dependencies
    from [x] visits a name twice.  When it returns a cycle, the cycle starts
    and ends with the same name [d], it is a chain of dependencies, no other
    name repeats in it, and it is the end of a chain that starts at [x]. *)
Theorem detectCycles_decides_reachable_cycle h a x fuel :
  closed h a → is_Some (cell h a x) → size a ≤ fuel →
  (detectCycles fuel h a (a !! x) [x] = Ok None ∧
   ∀ q, walk h a (x :: q) → NoDup (x :: q)) ∨
  (∃ d mid pre,
     detectCycles fuel h a (a !! x) [x] = Ok (Some (d :: mid ++ [d])) ∧
     walk h a (d :: mid ++ [d]) ∧ NoDup (d :: mid) ∧
     walk h a (pre ++ d :: mid ++ [d]) ∧ head (pre ++ [d]) = Some x).
Proof.
  intros Hcl Hx Hsz.
  destruct (detectCycles_ok fuel h a Hcl [] x) as [r Hr].
  { apply NoDup_singleton. }
  { by intros y ->%list_elem_of_singleton. }
  { simpl. lia. }
  simpl in Hr. destruct r as [cycle|].
  - right.
    pose proof (detectCycles_some fuel h a [] x cycle) as Hs. simpl in Hs.
    destruct Hs as (q & d & i & Hw & Hnd & Hi & ->); [apply NoDup_singleton|done|].
    exists d, (drop (S i) (x :: q)), (take i (x :: q)).
    rewrite Hr, (drop_S _ _ _ Hi).
    assert (take i (x :: q) ++ d :: drop (S i) (x :: q) = x :: q) as Heq.
    { rewrite <- (drop_S _ _ _ Hi). apply take_drop. }
    split_and!.
    + done.
    + pose proof (walk_drop h a i ((x :: q) ++ [d]) Hw) as Hw'.
      rewrite drop_app_le in Hw' by (apply lookup_lt_Some in Hi; lia).
      by rewrite (drop_S _ _ _ Hi) in Hw'.
    + rewrite <- (drop_S _ _ _ Hi). eapply sublist_NoDup; [exact Hnd|apply sublist_drop].
    + change (d :: drop (S i) (x :: q) ++ [d]) with ((d :: drop (S i) (x :: q)) ++ [d]).
      rewrite app_assoc, Heq. done.
    + destruct i as [|i]; simpl in *; [by injection Hi as ->|done].
  - left. split; [done|]. intros q Hw.
    apply (detectCycles_none fuel h a [] x); [apply NoDup_singleton|done|done].
Qed.

(** ** More on WithOverwrites and Clone *)

Lemma purge_over_inv (recur : string → outcome bool) deps b :
  purge_over recur deps = Ok b →
  if b then ∃ d, d ∈ deps ∧ recur d = Ok true
  else ∀ d, d ∈ deps → recur d = Ok false.
Proof.
  revert b. induction deps as [|d deps IH]; intros b; simpl.
  - intros [= <-]. by intros ? ?%elem_of_nil.
  - intros (p & Hp & H)%outcome_bind_ok. destruct p.
    + injection H as <-. exists d. split; [left|done].
    + specialize (IH b H). destruct b.
      * destruct IH as (d' & ? & ?). exists d'. split; [by right|done].
      * intros d' [->|?]%elem_of_cons; [done|by apply IH].
Qed.

Lemma needsPurging_reaches h a values : ∀ fuel x b,
  needsPurging fuel h a values x = Ok b →
  (b = true ↔ reaches_overwrite h a values x).
Proof.
  induction fuel as [|fuel IH]; intros x b; simpl; [done|].
  destruct (values !! x) as [v|] eqn:Hv.
  { intros [= <-]. split; [|done]. intros _. exists [], x. split_and!; [done|done|eauto]. }
  intros (c & Hc & H)%outcome_bind_ok. apply nil_guard_ok in Hc.
  apply purge_over_inv in H. destruct b.
  - split; [|done]. intros _. destruct H as (d & Hd & Hr).
    apply IH in Hr. destruct (proj1 Hr eq_refl) as (q & y & Hw & Hl & Hy).
    exists (d :: q), y. split_and!; [|done|done].
    split; [|done]. by exists c.
  - split; [done|]. intros (q & y & Hw & Hl & Hy). exfalso.
    destruct q as [|d q].
    + simpl in Hl. injection Hl as <-. rewrite Hv in Hy. by destruct Hy.
    + destruct Hw as [(c' & Hc' & Hd) Hw]. assert (c' = c) as -> by congruence.
      specialize (H d Hd). apply IH in H.
      assert (false = true) as Hft; [|done]. apply H. by exists q, y.
Qed.

(** X10.  [WithOverwrites] as the code has it.  The derived loader has the names
    of the source, in new cells; the source's cells are untouched.  A
    component keeps its constructor, result type, dependencies and its
    loaded flag ([loading] becomes [loaded]).  Its value and error are: the
    overwrite value and no error when its name is a key of [values]; nil and
    no error when it is no key but depends, through any chain, on a key; and
    the source's value and error otherwise. *)
Theorem WithOverwrites_cells h a (values : gmap string any) :
  allocated h a → closed h a → acyclic h a →
  ∃ news a2, WithOverwrites h a values = Ok (h ++ news, a2) ∧ dom a2 = dom a ∧
    ∀ name c, cell h a name = Some c →
      ∃ l2 c2, a2 !! name = Some l2 ∧ length h ≤ l2 ∧ (h ++ news) !! l2 = Some c2 ∧
        fn c2 = fn c ∧ result c2 = result c ∧ dependencies c2 = dependencies c ∧
        loaded c2 = loaded c ∧ loading c2 = loaded c ∧
        (∀ val, values !! name = Some val → value c2 = val ∧ err c2 = None) ∧
        (values !! name = None → reaches_overwrite h a values name →
           value c2 = ANil ∧ err c2 = None) ∧
        (¬ reaches_overwrite h a values name → value c2 = value c ∧ err c2 = err c).
Proof.
  intros Hal Hcl Hac.
  destruct (WithOverwrites_spec h a values Hal Hcl Hac) as (news & a2 & HW & Hdom & Hcells).
  exists news, a2. split_and!; [done|done|].
  intros name c Hc. unfold cell in Hc. destruct (a !! name) as [l|] eqn:Hl; [|done].
  destruct (Hcells name l Hl) as (l2 & c' & purge & Hl2 & Hge & Hc' & Hp & Hnew).
  assert (c' = c) as -> by congruence.
  apply needsPurging_reaches in Hp.
  exists l2, (overwritten values name c purge). split_and!; try done.
  - intros val Hval. unfold overwritten. simpl. by rewrite Hval.
  - intros Hnone Hreach. apply Hp in Hreach as ->. unfold overwritten. simpl.
    by rewrite Hnone.
  - intros Hnot. destruct purge; [exfalso; by apply Hnot, Hp|].
    assert (values !! name = None) as Hnone.
    { destruct (values !! name) eqn:E; [|done]. exfalso. apply Hnot.
      exists [], name. split_and!; [done|done|]. rewrite E. eauto. }
    unfold overwritten. simpl. by rewrite Hnone.
Qed.

Lemma overwrite_empty_is_clone fuel a entries : ∀ h acc,
  allocated h a →
  Forall (λ e : string * nat, ∃ b, needsPurging fuel h a ∅ e.1 = Ok b) entries →
  overwrite_all fuel a ∅ entries h acc = clone_all entries h acc.
Proof.
  induction entries as [|[n0 l0] rest IH]; intros h acc Hal Hall; simpl; [done|].
  apply Forall_cons in Hall as [[b Hb] Hall]. simpl in Hb.
  destruct (h !! l0) as [c0|]; simpl; [|done]. rewrite Hb. simpl.
  assert (b = false) as ->.
  { destruct b; [|done]. apply needsPurging_reaches in Hb.
    destruct (proj1 Hb eq_refl) as (q & y & _ & _ & [v Hv]). by rewrite lookup_empty in Hv. }
  assert (overwritten ∅ n0 c0 false = cloned c0) as ->.
  { unfold overwritten, cloned. simpl. by rewrite lookup_empty. }
  apply IH; [by apply allocated_app|].
  eapply Forall_impl; [done|]. intros e [b' He]. exists b'. by rewrite needsPurging_app.
Qed.

(** X11.  [WithOverwrites] with no value to overwrite is [Clone]. *)
Theorem WithOverwrites_nothing_is_Clone h a :
  allocated h a → closed h a → acyclic h a →
  WithOverwrites h a ∅ = Clone h a.
Proof.
  intros Hal Hcl Hac. unfold WithOverwrites, Clone. apply overwrite_empty_is_clone; [done|].
  apply Forall_forall. intros [n l] Hnl%elem_of_map_to_list. cbn [fst snd].
  apply needsPurging_ok; [done| |].
  - unfold cell. rewrite Hnl. apply lookup_lt_is_Some. by apply (Hal n).
  - intros q Hw. etrans; [apply (acyclic_walk_length h a n q)|]; try done; [|lia].
    unfold cell. rewrite Hnl. apply lookup_lt_is_Some. by apply (Hal n).
Qed.

Lemma overwrite_all_injective fuel a values entries : ∀ h acc h' a2,
  overwrite_all fuel a values entries h acc = Ok (h', a2) →
  (∀ n l, acc !! n = Some l → l < length h) → injective acc → injective a2.
Proof.
  induction entries as [|[n0 l0] rest IH]; intros h acc h' a2; simpl.
  - by intros [= <- <-].
  - intros H Hb Hinj. inv_bind H. inv_bind H. eapply IH; [done| |].
    + intros n l. rewrite lookup_insert. case_decide.
      * intros [= <-]. rewrite length_app. simpl. lia.
      * intros ?%Hb. rewrite length_app. lia.
    + intros n n' l. rewrite !lookup_insert. repeat case_decide; subst; try done.
      * intros [= <-] ?%Hb. lia.
      * intros ?%Hb [= <-]. lia.
      * apply Hinj.
Qed.

Lemma clone_all_injective entries : ∀ h acc h' a2,
  clone_all entries h acc = Ok (h', a2) →
  (∀ n l, acc !! n = Some l → l < length h) → injective acc → injective a2.
Proof.
  induction entries as [|[n0 l0] rest IH]; intros h acc h' a2; simpl.
  - by intros [= <- <-].
  - intros H Hb Hinj. inv_bind H. eapply IH; [done| |].
    + intros n l. rewrite lookup_insert. case_decide.
      * intros [= <-]. rewrite length_app. simpl. lia.
      * intros ?%Hb. rewrite length_app. lia.
    + intros n n' l. rewrite !lookup_insert. repeat case_decide; subst; try done.
      * intros [= <-] ?%Hb. lia.
      * intros ?%Hb [= <-]. lia.
      * apply Hinj.
Qed.

(** A loader with the names of [a] whose cells have the specs of the cells
    of [a] has the graph of [a]. *)
Lemma derived_graph h a h2 a2 :
  allocated h a → dom a2 = dom a →
  (∀ n c, cell h a n = Some c → ∃ c2, cell h2 a2 n = Some c2 ∧ same_spec c c2) →
  (closed h a → closed h2 a2) ∧ (acyclic h a → acyclic h2 a2) ∧
  (wired h a → wired h2 a2) ∧ allocated h2 a2.
Proof.
  intros Hal Hdom Hfw.
  assert (∀ n c2, cell h2 a2 n = Some c2 → ∃ c, cell h a n = Some c ∧ same_spec c c2) as Hbw.
  { intros n c2 Hc2.
    destruct (allocated_cell h a n Hal) as [c Hc].
    { apply elem_of_dom. rewrite <- Hdom. apply elem_of_dom. eapply cell_is_Some_dom. eauto. }
    exists c. split; [done|]. destruct (Hfw n c Hc) as (c2' & ? & ?). congruence. }
  assert (∀ x y, edge h2 a2 x y ↔ edge h a x y) as Hedge.
  { intros x y. split.
    - intros (c2 & Hc2 & Hy). destruct (Hbw x c2 Hc2) as (c & Hc & _ & _ & Hd).
      exists c. split; [done|congruence].
    - intros (c & Hc & Hy). destruct (Hfw x c Hc) as (c2 & Hc2 & _ & _ & Hd).
      exists c2. split; [done|congruence]. }
  assert (∀ p, walk h2 a2 p ↔ walk h a p) as Hwalk.
  { induction p as [|x p IH]; [done|]. simpl. rewrite IH. destruct p; [done|].
    by rewrite Hedge. }
  assert (∀ n, is_Some (cell h2 a2 n) ↔ is_Some (cell h a n)) as Hsome.
  { intros n. split.
    - intros [c2 Hc2]. destruct (Hbw n c2 Hc2) as (c & ? & _). eauto.
    - intros [c Hc]. destruct (Hfw n c Hc) as (c2 & ? & _). eauto. }
  split_and!.
  - intros Hcl x y He. apply Hsome. apply (Hcl x). by apply Hedge.
  - intros Hac x q Hx Hw. apply Hac; [by apply Hsome|by apply Hwalk].
  - intros Hw n c2 Hc2 Hd. destruct (Hbw n c2 Hc2) as (c & Hc & Hf & _ & Hdeps).
    rewrite Hf, Hdeps. apply (Hw n c Hc). congruence.
  - intros n l2 Hl2.
    assert (is_Some (cell h2 a2 n)) as [c2 Hc2].
    { apply Hsome. apply allocated_cell; [done|]. apply elem_of_dom. rewrite <- Hdom.
      apply elem_of_dom. eauto. }
    unfold cell in Hc2. rewrite Hl2 in Hc2. by eapply lookup_lt_Some.
Qed.

(** X12.  What [Clone] and [WithOverwrites] return is again a loader: its cells
    are allocated, no two names share a cell, every dependency is a component,
    the dependencies are the fields of the constructor's struct, and there is
    no cycle; so it can be loaded, cloned and overwritten in turn.  The cells of the source are left as they are. *)
Theorem derived_loaders_are_loaders h a (values : gmap string any) :
  well_formed h a → acyclic h a →
  (∃ news a2, Clone h a = Ok (h ++ news, a2) ∧
     well_formed (h ++ news) a2 ∧ acyclic (h ++ news) a2) ∧
  (∃ news a2, WithOverwrites h a values = Ok (h ++ news, a2) ∧
     well_formed (h ++ news) a2 ∧ acyclic (h ++ news) a2).
Proof.
  intros (Hal & Hcl & Hinj & Hwi) Hac. split.
  - destruct (Clone_spec h a Hal) as (news & a2 & HC & Hdom & Hcells).
    exists news, a2. split; [done|].
    destruct (derived_graph h a (h ++ news) a2 Hal Hdom) as (H1 & H2 & H3 & H4).
    { intros n c Hc. unfold cell in Hc. destruct (a !! n) as [l|] eqn:Hl; [|done].
      destruct (Hcells n l Hl) as (l2 & c' & Hl2 & _ & Hc' & Hnew).
      assert (c' = c) as -> by congruence.
      exists (cloned c). unfold cell. rewrite Hl2. done. }
    split; [|by apply H2]. split_and!; [done|by apply H1| |by apply H3].
    unfold Clone in HC. eapply clone_all_injective; [done|by intros ???%lookup_empty_Some|].
    by intros ??? ?%lookup_empty_Some.
  - destruct (WithOverwrites_spec h a values Hal Hcl Hac) as (news & a2 & HW & Hdom & Hcells).
    exists news, a2. split; [done|].
    destruct (derived_graph h a (h ++ news) a2 Hal Hdom) as (H1 & H2 & H3 & H4).
    { intros n c Hc. unfold cell in Hc. destruct (a !! n) as [l|] eqn:Hl; [|done].
      destruct (Hcells n l Hl) as (l2 & c' & purge & Hl2 & _ & Hc' & _ & Hnew).
      assert (c' = c) as -> by congruence.
      exists (overwritten values n c purge). unfold cell. rewrite Hl2. done. }
    split; [|by apply H2]. split_and!; [done|by apply H1| |by apply H3].
    unfold WithOverwrites in HW.
    eapply overwrite_all_injective; [done|by intros ???%lookup_empty_Some|].
    by intros ??? ?%lookup_empty_Some.
Qed.

(** ** More on Load *)

(** The threads of the machine after a transition: the thread that moved
    has a new state, threads may have been spawned, and a broadcast may have
    woken waiting threads. *)
Lemma step_threads tid m m' :
  step tid m = Ok m' →
  threads m' = threads m ∨
  ∃ t extra, threads m' = <[tid := t]> (threads m) ++ extra ∨
             ∃ b, threads m' = wake b <$> (<[tid := t]> (threads m) ++ extra).
Proof.
  unfold step. destruct (threads m !! tid) as [[b n|b n i inp|b n i inp|b n i|b n v e|v e]|] eqn:Ht;
    try (intros [= <-]; by left).
  - destruct (b !! n) as [l|].
    2:{ intros [= <-]. right. eexists _, []. left. simpl. by rewrite app_nil_r. }
    intros H. inv_bind H. destruct (loaded x).
    { injection H as <-. right. eexists _, []. left. simpl. by rewrite app_nil_r. }
    case_decide.
    2:{ injection H as <-. right. eexists _, []. left. simpl. by rewrite app_nil_r. }
    inv_bind H. inv_bind H. inv_bind H. injection H as <-.
    right. destruct x2; simpl; eauto 10.
  - intros H. inv_bind H. inv_bind H. inv_bind H. inv_bind H. injection H as <-.
    right. destruct x2; simpl; eauto 10.
  - intros H. inv_bind H. inv_bind H. destruct (negb _); [done|].
    inv_bind H. destruct x1 as [v e]. injection H as <-.
    right. eexists _, []. left. simpl. by rewrite app_nil_r.
  - intros H. inv_bind H. inv_bind H. injection H as <-.
    right. eexists _, []. right. eexists. simpl. by rewrite app_nil_r.
Qed.

Lemma step_keeps_idle tid' tid m m' t :
  step tid' m = Ok m' → tid ≠ tid' → threads m !! tid = Some t →
  (∀ b, wake b t = t) → threads m' !! tid = Some t.
Proof.
  intros Hs Hne Ht Hw.
  destruct (step_threads _ _ _ Hs) as [->|(t' & extra & [->|[b ->]])]; [done| |].
  - rewrite lookup_app_l by (rewrite length_insert; by eapply lookup_lt_Some).
    by rewrite list_lookup_insert_ne.
  - rewrite list_lookup_fmap, lookup_app_l by (rewrite length_insert; by eapply lookup_lt_Some).
    rewrite list_lookup_insert_ne by done. rewrite Ht. simpl. by rewrite Hw.
Qed.

Lemma step_returned tid m v e :
  threads m !! tid = Some (Returned v e) → step tid m = Ok m.
Proof. unfold step. by intros ->. Qed.

Lemma run_keeps_returned schedule : ∀ m m' tid v e,
  run schedule m = Ok m' → threads m !! tid = Some (Returned v e) →
  threads m' !! tid = Some (Returned v e).
Proof.
  induction schedule as [|t rest IH]; intros m m' tid v e; simpl.
  - by intros [= <-].
  - intros H Ht. inv_bind H. eapply IH; [done|].
    destruct (decide (tid = t)) as [->|Hne].
    + rewrite (step_returned _ _ _ _ Ht) in Hx. by injection Hx as <-.
    + by eapply step_keeps_idle.
Qed.

(** X13.  A [Load] of a name the loader does not define returns the nil value
    and an UndefinedComponentError for that name in its first critical
    section: no cell, no call and nothing of the world changes, and no
    thread is spawned or woken.  Whatever the other goroutines do, the call
    has returned this error once it was scheduled, and [MustLoad] panics
    with it. *)
Theorem Load_of_undefined_component m a name :
  a !! name = None →
  step (length (threads m)) (go_Load a name m) =
    Ok {| cells := cells m; world := world m;
          threads := threads m ++ [Returned ANil (Some (UndefinedComponentError name))];
          calls := calls m |} ∧
  (∀ schedule m', run schedule (go_Load a name m) = Ok m' →
     length (threads m) ∈ schedule →
     threads m' !! length (threads m) =
       Some (Returned ANil (Some (UndefinedComponentError name)))) ∧
  MustLoad (Returned ANil (Some (UndefinedComponentError name))) =
    Some (PanicsWith (UndefinedComponentError name)) ∧
  Error (UndefinedComponentError name) = "cannot load undefined component '" +:+ name +:+ "'".
Proof.
  intros Hn.
  assert (∀ m0, threads m0 !! length (threads m) = Some (Start a name) →
    ∃ m1, step (length (threads m)) m0 = Ok m1 ∧ cells m1 = cells m0 ∧
      world m1 = world m0 ∧ calls m1 = calls m0 ∧
      threads m1 = <[length (threads m) :=
                      Returned ANil (Some (UndefinedComponentError name))]> (threads m0)) as Hstep.
  { intros m0 Ht. unfold step. rewrite Ht, Hn. eauto 10. }
  split_and!; [| |done|done].
  - destruct (Hstep (go_Load a name m)) as (m1 & -> & Hc & Hw & Hcs & Ht).
    { simpl. by rewrite lookup_app_r, Nat.sub_diag. }
    destruct m1 as [c1 w1 t1 cs1]. simpl in *. subst. f_equal.
    rewrite insert_app_r_alt, Nat.sub_diag by done. done.
  - intros schedule.
    assert (threads (go_Load a name m) !! length (threads m) = Some (Start a name)) as H0.
    { simpl. by rewrite lookup_app_r, Nat.sub_diag. }
    revert H0. generalize (go_Load a name m). generalize (length (threads m)) as tid.
    intros tid m0 H0. revert m0 H0.
    induction schedule as [|t rest IH]; intros m0 H0 m' Hrun Hin; [by apply elem_of_nil in Hin|].
    simpl in Hrun. inv_bind Hrun.
    destruct (decide (t = tid)) as [->|Hne].
    + eapply run_keeps_returned; [done|].
      unfold step in Hx. rewrite H0, Hn in Hx. injection Hx as <-. simpl.
      apply list_lookup_insert_eq. by eapply lookup_lt_Some.
    + apply elem_of_cons in Hin as [->|Hin]; [done|].
      eapply IH; [|done|done]. by eapply step_keeps_idle.
Qed.

(** X14.  Memoization when no other call is under way: in a machine whose calls of
    [Load] have all returned, a [Load] of a loaded component returns the
    stored pair, a stored error like a stored value, under every schedule
    that lets it run.  No constructor is invoked and no cell changes, so
    every further [Load] returns the same pair again. *)
Theorem Load_memoizes_when_quiescent m a name c :
  Forall (λ t, ∃ v e, t = Returned v e) (threads m) →
  cell (cells m) a name = Some c → loaded c = true →
  ∀ schedule, length (threads m) ∈ schedule →
    run schedule (go_Load a name m) =
      Ok {| cells := cells m; world := world m;
            threads := threads m ++ [Returned (value c) (err c)];
            calls := calls m |} ∧
    MustLoad (Returned (value c) (err c)) =
      Some (match err c with None => Returns (value c) | Some e => PanicsWith e end).
Proof.
  intros Hq Hc Hl schedule Hin. split; [|by destruct (err c)].
  assert (∀ m0 : machine World, Forall (λ t, ∃ v e, t = Returned v e) (threads m0) →
            ∀ s, run s m0 = Ok m0) as Hidle.
  { intros m0 H0 s. induction s as [|t s IH]; [done|]. simpl.
    assert (step t m0 = Ok m0) as ->; [|done].
    unfold step. destruct (threads m0 !! t) as [th|] eqn:Ht; [|done].
    rewrite Forall_lookup in H0. by destruct (H0 _ _ Ht) as (v & e & ->). }
  set (m1 := {| cells := cells m; world := world m;
                threads := threads m ++ [Returned (value c) (err c)];
                calls := calls m |}).
  assert (step (length (threads m)) (go_Load a name m) = Ok m1) as Hstep.
  { unfold step. simpl. rewrite lookup_app_r, Nat.sub_diag by done. simpl.
    unfold cell in Hc. destruct (a !! name) as [l|]; [|done]. rewrite Hc. simpl.
    rewrite Hl. unfold m1. do 2 f_equal.
    by rewrite insert_app_r_alt, Nat.sub_diag by done. }
  assert (Forall (λ t, ∃ v e, t = Returned v e) (threads m1)) as Hq1.
  { unfold m1. simpl. apply Forall_app. split; [done|]. repeat constructor. eauto. }
  induction schedule as [|t rest IH]; [by apply elem_of_nil in Hin|].
  cbn [run]. destruct (decide (t = length (threads m))) as [->|Hne].
  - rewrite Hstep. cbn [bind]. by apply Hidle.
  - apply elem_of_cons in Hin as [Heq|Hin]; [by symmetry in Heq|].
    assert (step t (go_Load a name m) = Ok (go_Load a name m)) as ->;
      [|cbn [bind]; by apply IH].
    unfold step. simpl.
    destruct (decide (t < length (threads m))) as [Hlt|Hge].
    + rewrite lookup_app_l by done.
      destruct (threads m !! t) as [th|] eqn:Ht; [|done].
      rewrite Forall_lookup in Hq. by destruct (Hq _ _ Ht) as (v & e & ->).
    + rewrite lookup_ge_None_2; [done|]. rewrite length_app. simpl. lia.
Qed.

Lemma values_of_cons h a dk (ck : component World) rest :
  cell h a dk = Some ck → values_of h a (dk :: rest) = value ck :: values_of h a rest.
Proof. intros Hck. unfold values_of. cbn [omap list_omap]. by rewrite Hck. Qed.

(** The wait loop passes the dependencies that are ready. *)
Lemma wait_for_ready h a name deps fields j : ∀ n i input,
  j = i + n → j ≤ length deps →
  (∀ k, i ≤ k < j → ∃ dk ck fk, deps !! k = Some dk ∧ cell h a dk = Some ck ∧
     loaded ck = true ∧ err ck = None ∧ fields !! k = Some fk ∧
     exported fk.1 = true ∧ assignable (value ck) fk.2 = true) →
  wait_for h a name (drop i deps) (drop i fields) i input =
  wait_for h a name (drop j deps) (drop j fields) j
    (input ++ values_of h a (take n (drop i deps))).
Proof.
  induction n as [|n IH]; intros i input Hj Hlen Hready.
  - rewrite Nat.add_0_r in Hj. subst j. rewrite take_0. unfold values_of. simpl.
    by rewrite app_nil_r.
  - destruct (Hready i ltac:(lia)) as (dk & ck & fk & Hdk & Hck & Hlk & Hek & Hfk & Hex & Has).
    rewrite (drop_S _ _ _ Hdk), (drop_S _ _ _ Hfk). simpl.
    rewrite Hck. simpl. rewrite Hlk, Hek, Hex, Has. simpl.
    rewrite (IH (S i)); [|lia|done|intros k Hk; apply Hready; lia].
    by rewrite <- app_assoc.
Qed.

Lemma spawn_loads_spawned h a deps :
  (∀ d, d ∈ deps → is_Some (cell h a d)) → spawn_loads h a deps = Ok (spawned h a deps).
Proof.
  induction deps as [|dep deps IH]; intros H; simpl; [done|].
  destruct (H dep) as [d Hd]; [left|]. unfold spawned. simpl. rewrite Hd. simpl.
  rewrite IH by (intros; apply H; by right). simpl. by destruct (loading d).
Qed.

Lemma ready_cell h a (c : component World) k :
  ready h a c k → ∃ dk, dependencies c !! k = Some dk ∧ is_Some (cell h a dk).
Proof. intros (dk & ck & fk & ? & ? & _). eauto. Qed.

(** The first critical section of a call that finds the dependencies from
    [i] to [j] ready: it goes on in the wait loop at [j]. *)
Lemma step_to_dependency m tid a name l c i input j :
  well_formed (cells m) a →
  a !! name = Some l → cells m !! l = Some c →
  (threads m !! tid = Some (Woken a name i input) ∨
   (threads m !! tid = Some (Start a name) ∧ loaded c = false ∧ i = 0 ∧ input = [])) →
  i ≤ j → j ≤ length (dependencies c) → 0 < length (dependencies c) →
  (∀ k, i ≤ k < j → ready (cells m) a c k) →
  step tid m =
    do w <- wait_for (cells m) a name (drop j (dependencies c)) (drop j (struct_fields c)) j
              (input ++ values_of (cells m) a (take (j - i) (drop i (dependencies c))));
    Ok (after_wait m tid a name l c
          (match threads m !! tid with
           | Some (Start _ _) => spawned (cells m) a (dependencies c)
           | _ => []
           end) w).
Proof.
  intros (Hal & Hcl & Hinj & Hwi) Hl Hc Hth Hij Hj Hpos Hready.
  assert (cell (cells m) a name = Some c) as Hcell by (unfold cell; by rewrite Hl).
  destruct (Hwi name c Hcell) as (fields & Hin & Hd).
  { intros E. rewrite E in Hpos. simpl in Hpos. lia. }
  assert (input_fields c = Ok fields) as Hif by (unfold input_fields; by rewrite Hin).
  assert (struct_fields c = fields) as Hsf by (unfold struct_fields; by rewrite Hin).
  assert (wait_for (cells m) a name (drop i (dependencies c)) (drop i fields) i input =
          wait_for (cells m) a name (drop j (dependencies c)) (drop j fields) j
            (input ++ values_of (cells m) a (take (j - i) (drop i (dependencies c)))))
    as Hwait.
  { apply (wait_for_ready _ _ _ _ _ j (j - i)); [lia|done|].
    intros k Hk. destruct (Hready k Hk) as (dk & ck & fk & ? & ? & ? & ? & Hfk & ? & ?).
    rewrite Hsf in Hfk. eauto 10. }
  rewrite Hsf, <- Hwait.
  unfold step. destruct Hth as [Ht|(Ht & Hlc & -> & ->)]; rewrite Ht.
  - rewrite Hl. simpl. rewrite Hc. simpl. rewrite Hif. done.
  - rewrite Hl, Hc. simpl. rewrite Hlc. rewrite decide_True by done.
    rewrite Hif. simpl. rewrite spawn_loads_spawned.
    2:{ intros x Hx. apply (Hcl name). by exists c. }
    cbn [bind]. by rewrite !drop_0.
Qed.

(** X15.  The success path of [Load]: a call that has not yet read its
    dependencies (it starts on a component that is not loaded, or it was
    woken at dependency [i]) and finds the remaining ones loaded without error
    marks the component as loading, invokes the constructor once, with the
    values of the dependencies in the order of the fields, stores the pair
    read off the outputs, and returns it.  The three transitions are the
    critical section before the call, the call, and the one after it.  After
    the first one, [m1], the loading flag of the component is set and nothing
    else of it has changed, no other cell has changed and the constructor has
    not been invoked; the flag is still set at the end. *)
Theorem Load_calls_constructor_with_dependency_values
    m tid a name l c i input args ret v e :
  well_formed (cells m) a →
  a !! name = Some l → cells m !! l = Some c →
  ((threads m !! tid = Some (Woken a name i input) ∧ i < length (dependencies c)) ∨
   (threads m !! tid = Some (Start a name) ∧ loaded c = false ∧ i = 0 ∧ input = [])) →
  (dependencies c = [] → In_ (dyn_type (fn c)) = []) →
  (∀ k, i ≤ k < length (dependencies c) → ready (cells m) a c k) →
  args = input ++ values_of (cells m) a (drop i (dependencies c)) →
  ret = (dyn_call (fn c) (world m) args).1 →
  interpret c ret = Ok (v, e) →
  ∃ m1 c1 m', step tid m = Ok m1 ∧
    cells m1 !! l = Some c1 ∧ loading c1 = true ∧ loaded c1 = loaded c ∧
    value c1 = value c ∧ err c1 = err c ∧ same_spec c c1 ∧
    (∀ l', l' ≠ l → cells m1 !! l' = cells m !! l') ∧
    calls m1 = calls m ∧ world m1 = world m ∧
    run [tid; tid] m1 = Ok m' ∧
    run [tid; tid; tid] m = Ok m' ∧
    threads m' !! tid = Some (Returned v e) ∧
    calls m' = calls m ++ [Call l args ret] ∧
    world m' = (dyn_call (fn c) (world m) args).2 ∧
    ∃ c', cells m' !! l = Some c' ∧ state c' = Done v e ∧ loading c' = true ∧
      same_spec c c' ∧
      ∀ l', l' ≠ l → cells m' !! l' = cells m !! l'.
Proof.
  intros Hwf Hl Hc Hth Hnil Hready -> -> Hint.
  assert (cell (cells m) a name = Some c) as Hcell by (unfold cell; by rewrite Hl).
  assert (tid < length (threads m)) as Htid.
  { destruct Hth as [[Ht _]|[Ht _]]; by eapply lookup_lt_Some. }
  assert (l < length (cells m)) as Hlt by (by eapply lookup_lt_Some).
  set (args := input ++ values_of (cells m) a (drop i (dependencies c))) in *.
  (* the first critical section ends in [Calling] *)
  assert (∃ extra in_, step tid m = Ok
            {| cells := <[l := set_loading c]> (cells m); world := world m;
               threads := <[tid := Calling a name in_]> (threads m) ++ extra;
               calls := calls m |} ∧
            concat in_ = args ∧ length in_ = length (In_ (dyn_type (fn c))))
    as (extra & in_ & Hs1 & Hargs & Hlen).
  { destruct (decide (0 < length (dependencies c))) as [Hpos|Hzero].
    - eexists _, [args]. split_and!.
      + rewrite (step_to_dependency m tid a name l c i input (length (dependencies c)));
          try done.
        * rewrite drop_all. simpl. unfold args. by rewrite take_ge by (rewrite length_drop; lia).
        * destruct Hth as [[? ?]|?]; [by left|by right].
        * destruct Hth as [[_ ?]|(_ & _ & -> & _)]; lia.
      + simpl. by rewrite app_nil_r.
      + destruct Hwf as (_ & _ & _ & Hwi). destruct (Hwi name c Hcell) as (fields & -> & _); [|done].
        intros E. rewrite E in Hpos. simpl in Hpos. lia.
    - assert (dependencies c = []) as Hd by (destruct (dependencies c); [done|simpl in Hzero; lia]).
      destruct Hth as [[_ Hi]|(Ht & Hlc & -> & ->)]; [rewrite Hd in Hi; simpl in Hi; lia|].
      exists [], []. split_and!.
      + unfold step. rewrite Ht, Hl, Hc. simpl. rewrite Hlc, decide_False by done.
        by rewrite app_nil_r.
      + unfold args. by rewrite Hd.
      + by rewrite Hnil.
  }
  set (ret := dyn_call (fn c) (world m) args) in *.
  set (m1 := {| cells := <[l := set_loading c]> (cells m); world := world m;
                threads := <[tid := Calling a name in_]> (threads m) ++ extra;
                calls := calls m |}) in *.
  set (m2 := {| cells := cells m1; world := ret.2;
                threads := <[tid := Called a name v e]> (threads m1);
                calls := calls m ++ [Call l args ret.1] |}).
  assert (step tid m1 = Ok m2) as Hs2.
  { unfold step. unfold m1 at 1. cbn [threads].
    rewrite lookup_app_l by (by rewrite length_insert).
    rewrite list_lookup_insert_eq by done.
    unfold cell. rewrite Hl. cbn [cells m1]. rewrite list_lookup_insert_eq by done.
    cbn [nil_guard bind fn set_loading]. rewrite Hlen, Nat.eqb_refl. cbn [negb].
    rewrite Hargs. cbn [world m1]. fold ret.
    assert (interpret (set_loading c) ret.1 = Ok (v, e)) as -> by exact Hint.
    done. }
  set (m3 := {| cells := <[l := set_done (set_loading c) v e]> (cells m2);
                world := world m2;
                threads := wake a <$> (<[tid := Returned v e]> (threads m2));
                calls := calls m2 |}).
  assert (step tid m2 = Ok m3) as Hs3.
  { unfold step. unfold m2 at 1. cbn [threads].
    rewrite list_lookup_insert_eq
      by (unfold m1; cbn [threads]; rewrite length_app, length_insert; lia).
    rewrite Hl. cbn [nil_guard bind]. unfold m2 at 1. cbn [cells]. unfold m1 at 1. cbn [cells].
    rewrite list_lookup_insert_eq by done. cbn [bind]. reflexivity. }
  exists m1, (set_loading c), m3.
  split; [exact Hs1|].
  split; [unfold m1; cbn [cells]; by apply list_lookup_insert_eq|].
  split; [reflexivity|]. split; [reflexivity|]. split; [reflexivity|].
  split; [reflexivity|]. split; [done|].
  split; [intros l' Hne; unfold m1; cbn [cells]; by rewrite list_lookup_insert_ne by done|].
  split; [reflexivity|]. split; [reflexivity|].
  split; [cbn [run]; rewrite Hs2; cbn [bind]; by rewrite Hs3|].
  split; [cbn [run]; rewrite Hs1; cbn [bind]; rewrite Hs2; cbn [bind]; by rewrite Hs3|].
  split.
  { unfold m3. cbn [threads]. rewrite list_lookup_fmap.
    rewrite list_lookup_insert_eq; [done|].
    unfold m2, m1. cbn [threads]. rewrite length_insert, length_app, length_insert. lia. }
  split; [done|]. split; [done|].
  exists (set_done (set_loading c) v e). split_and!.
  - unfold m3. cbn [cells]. apply list_lookup_insert_eq.
    unfold m2, m1. cbn [cells]. by rewrite length_insert.
  - done.
  - reflexivity.
  - done.
  - intros l' Hne. unfold m3, m2, m1. cbn [cells]. by rewrite !list_lookup_insert_ne by done.
Qed.

(** X16.  A call that finds a dependency not loaded waits for it: the call that
    has read the dependencies before [j] (all loaded without error) and finds
    dependency [j] not loaded goes to sleep in [Wait] at [j].  No constructor
    is invoked, no cell changes (the component is not marked as loading), and
    the thread stays blocked until a broadcast.  A call in its first critical
    section has started a [Load] for every dependency that is not loading; a
    woken call starts none. *)
Theorem Load_waits_for_unloaded_dependency m tid a name l c i input j dep d :
  well_formed (cells m) a →
  a !! name = Some l → cells m !! l = Some c →
  (threads m !! tid = Some (Woken a name i input) ∨
   (threads m !! tid = Some (Start a name) ∧ loaded c = false ∧ i = 0 ∧ input = [])) →
  i ≤ j → dependencies c !! j = Some dep →
  cell (cells m) a dep = Some d → loaded d = false →
  (∀ k, i ≤ k < j → ready (cells m) a c k) →
  ∃ m' extra, step tid m = Ok m' ∧
    cells m' = cells m ∧ calls m' = calls m ∧ world m' = world m ∧
    threads m' =
      <[tid := Waiting a name j
                 (input ++ values_of (cells m) a (take (j - i) (drop i (dependencies c))))]>
        (threads m) ++ extra ∧
    (threads m !! tid = Some (Start a name) → extra = spawned (cells m) a (dependencies c)) ∧
    (threads m !! tid = Some (Woken a name i input) → extra = []) ∧
    step tid m' = Ok m'.
Proof.
  intros Hwf Hl Hc Hth Hij Hj Hd Hld Hready.
  assert (tid < length (threads m)) as Htid.
  { destruct Hth as [Ht|[Ht _]]; by eapply lookup_lt_Some. }
  eexists _, _. split.
  { rewrite (step_to_dependency m tid a name l c i input j); try done.
    - rewrite (drop_S _ _ _ Hj). simpl. rewrite Hd. simpl. by rewrite Hld.
    - apply lookup_lt_Some in Hj. lia.
    - apply lookup_lt_Some in Hj. lia. }
  simpl. split_and!; try done.
  - by intros ->.
  - by intros ->.
  - unfold step. simpl. rewrite lookup_app_l by (by rewrite length_insert).
    by rewrite list_lookup_insert_eq.
Qed.

(** X17.  A dependency that is loaded without error but whose value cannot be set
    into the field of the argument struct makes the call panic: the field is
    not exported (its name does not start with an upper-case letter), or the
    value is nil or of another type than the field ([reflect.Value.Set]
    panics).  [New] checks neither; a nil value is, for one, what
    [WithOverwrites] leaves in a loaded component it purges. *)
Theorem Load_panics_on_unsettable_field m tid a name l c i input j dep d field :
  well_formed (cells m) a →
  a !! name = Some l → cells m !! l = Some c →
  (threads m !! tid = Some (Woken a name i input) ∨
   (threads m !! tid = Some (Start a name) ∧ loaded c = false ∧ i = 0 ∧ input = [])) →
  i ≤ j → dependencies c !! j = Some dep →
  cell (cells m) a dep = Some d → loaded d = true → err d = None →
  struct_fields c !! j = Some field →
  exported field.1 = false ∨ assignable (value d) field.2 = false →
  (∀ k, i ≤ k < j → ready (cells m) a c k) →
  step tid m = Panic.
Proof.
  intros Hwf Hl Hc Hth Hij Hj Hd Hld Hed Hf Hbad Hready.
  rewrite (step_to_dependency m tid a name l c i input j); try done.
  - rewrite (drop_S _ _ _ Hj), (drop_S _ _ _ Hf). simpl. rewrite Hd. simpl.
    rewrite Hld, Hed. simpl. by destruct Hbad as [-> | ->]; [|rewrite andb_false_r].
  - apply lookup_lt_Some in Hj. lia.
  - apply lookup_lt_Some in Hj. lia.
Qed.

Lemma step_cells_flags tid m m' :
  step tid m = Ok m' →
  cells m' = cells m ∨
  ∃ l c c', cells m !! l = Some c ∧ same_spec c c' ∧
    (loaded c = true → loaded c' = true) ∧ (loading c = true → loading c' = true) ∧
    cells m' = <[l := c']> (cells m).
Proof.
  unfold step.
  destruct (threads m !! tid) as [[a name|a name i input|a name i input|a name in_|a name v e|v e]|];
    try (intros [= <-]; by left).
  - destruct (a !! name) as [l|] eqn:El; [|intros [= <-]; by left].
    intros H. inv_bind H. apply nil_guard_ok in Hx.
    destruct (loaded x) eqn:Hlx; [injection H as <-; by left|].
    case_decide.
    + inv_bind H. inv_bind H. inv_bind H. injection H as <-.
      destruct x2 as [j inp|e'|inp]; simpl; [by left| |]; right.
      * exists l, x, (set_done (set_loading x) ANil (Some e')). done.
      * exists l, x, (set_loading x). done.
    + injection H as <-. right. exists l, x, (set_loading x). done.
  - intros H. inv_bind H. apply nil_guard_ok in Hx. inv_bind H. apply nil_guard_ok in Hx0.
    inv_bind H. inv_bind H. injection H as <-.
    destruct x2 as [j inp|e'|inp]; simpl; [by left| |]; right.
    + exists x, x0, (set_done (set_loading x0) ANil (Some e')). done.
    + exists x, x0, (set_loading x0). done.
  - intros H. inv_bind H. inv_bind H. destruct (negb _); [done|].
    inv_bind H. destruct x1. injection H as <-. by left.
  - intros H. inv_bind H. apply nil_guard_ok in Hx. inv_bind H. apply nil_guard_ok in Hx0.
    injection H as <-. right. exists x, x0, (set_done x0 v e). done.
Qed.

Lemma step_calls tid m m' :
  step tid m = Ok m' → ∃ more, calls m' = calls m ++ more.
Proof.
  unfold step.
  destruct (threads m !! tid) as [[a name|a name i input|a name i input|a name in_|a name v e|v e]|];
    try (intros [= <-]; exists []; by rewrite app_nil_r).
  - destruct (a !! name) as [l|] eqn:El; [|intros [= <-]; exists []; by rewrite app_nil_r].
    intros H. inv_bind H.
    destruct (loaded x); [injection H as <-; exists []; by rewrite app_nil_r|].
    case_decide.
    + inv_bind H. inv_bind H. inv_bind H. injection H as <-.
      exists []. rewrite app_nil_r. by destruct x2.
    + injection H as <-. exists []. by rewrite app_nil_r.
  - intros H. inv_bind H. inv_bind H. inv_bind H. inv_bind H. injection H as <-.
    exists []. rewrite app_nil_r. by destruct x2.
  - intros H. inv_bind H. inv_bind H. destruct (negb _); [done|].
    inv_bind H. destruct x1. injection H as <-. simpl. eauto.
  - intros H. inv_bind H. inv_bind H. injection H as <-. exists []. by rewrite app_nil_r.
Qed.

(** X19.  What no run of the loader undoes.  Under every schedule the heap keeps
    its size; a cell keeps its constructor, result type and dependencies; a
    component that is loaded stays loaded and one that is loading stays
    loading; the log of constructor calls only grows; and a call of [Load]
    that has returned keeps its result. *)
Theorem Load_never_resets_a_component schedule : ∀ m m',
  run schedule m = Ok m' →
  length (cells m') = length (cells m) ∧
  (∀ l c, cells m !! l = Some c →
     ∃ c', cells m' !! l = Some c' ∧ same_spec c c' ∧
       (loaded c = true → loaded c' = true) ∧ (loading c = true → loading c' = true)) ∧
  (∃ more, calls m' = calls m ++ more) ∧
  (∀ tid v e, threads m !! tid = Some (Returned v e) →
     threads m' !! tid = Some (Returned v e)).
Proof.
  induction schedule as [|t rest IH]; intros m m'; simpl.
  - intros [= <-]. split_and!; [done| |exists []; by rewrite app_nil_r|done].
    intros l c Hc. exists c. done.
  - intros H. inv_bind H. destruct (IH _ _ H) as (Hlen & Hcells & [more Hcalls] & Hret).
    assert (length (cells x) = length (cells m) ∧
            ∀ l c, cells m !! l = Some c →
              ∃ c', cells x !! l = Some c' ∧ same_spec c c' ∧
                (loaded c = true → loaded c' = true) ∧ (loading c = true → loading c' = true))
      as [Hlen1 Hcells1].
    { destruct (step_cells_flags _ _ _ Hx) as [->|(l0 & c0 & c0' & Hc0 & Hsp & Hl1 & Hl2 & ->)].
      - split; [done|]. intros l c Hc. exists c. done.
      - split; [by rewrite length_insert|]. intros l c Hc.
        destruct (decide (l = l0)) as [->|Hne].
        + exists c0'. rewrite list_lookup_insert_eq by (by eapply lookup_lt_Some).
          assert (c0 = c) as -> by congruence. done.
        + exists c. rewrite list_lookup_insert_ne by done. done. }
    split_and!.
    + congruence.
    + intros l c Hc. destruct (Hcells1 l c Hc) as (c1 & Hc1 & (Hf1 & Hr1 & Hd1) & Hl1 & Hg1).
      destruct (Hcells l c1 Hc1) as (c2 & Hc2 & (Hf2 & Hr2 & Hd2) & Hl2 & Hg2).
      exists c2. split_and!; [done| |by auto|by auto].
      split_and!; congruence.
    + destruct (step_calls _ _ _ Hx) as [more1 Hm1]. exists (more1 ++ more).
      by rewrite Hcalls, Hm1, app_assoc.
    + intros tid v e Ht. apply Hret.
      destruct (decide (tid = t)) as [->|Hne].
      * rewrite (step_returned _ _ _ _ Ht) in Hx. by injection Hx as <-.
      * by eapply step_keeps_idle.
Qed.

(** X18.  A component whose constructor takes a struct without fields passes
    [New], and every [Load] of it panics: it has no dependencies, so [Load]
    calls the function without an argument, and [Call] panics on the missing
    one. *)
Theorem Load_panics_on_empty_struct_parameter h0 (comps : Components World) order h a name f :
  New h0 comps order = Ok (h, a) → name ∈ order →
  comps !! name = Some (Some f) → In_ (dyn_type f) = [TStruct []] →
  ∀ w ths cs, run [length ths; length ths] (go_Load a name (Machine h w ths cs)) = Panic.
Proof.
  intros HN Hn Hf Hin w ths cs.
  destruct (New_cell _ _ _ _ _ _ HN Hn) as (l & c & Hl & _ & Hc & Hcell).
  apply define_spec in Hc as (Hf' & _ & _ & _ & _ & Hld & _).
  assert (fn c = f) as Hfn by congruence.
  assert (struct_fields c = []) as Hsf by (unfold struct_fields; by rewrite Hfn, Hin).
  rewrite Hsf in Hcell. simpl in Hcell.
  cbn [run]. unfold step at 1. cbn [go_Load threads cells].
  rewrite lookup_app_r, Nat.sub_diag by done. cbn [lookup list_lookup].
  rewrite Hl, Hcell. cbn [nil_guard bind loaded set_dependencies]. rewrite Hld.
  rewrite decide_False by (simpl; lia). cbn [bind].
  unfold step. cbn [threads]. rewrite insert_app_r_alt, Nat.sub_diag by done.
  rewrite lookup_app_r, Nat.sub_diag by done. cbn [insert list_insert lookup list_lookup].
  unfold cell. rewrite Hl. cbn [cells]. rewrite list_lookup_insert_eq by (by eapply lookup_lt_Some).
  cbn [nil_guard bind fn set_loading set_dependencies]. by rewrite Hfn, Hin.
Qed.

Lemma append_assoc (s1 s2 s3 : string) : (s1 +:+ s2) +:+ s3 = s1 +:+ (s2 +:+ s3).
Proof.
  induction s1 as [|c s1 IH]; [done|].
  change (String c (s1 +:+ s2) +:+ s3 = String c (s1 +:+ s2 +:+ s3)).
  change (String c ((s1 +:+ s2) +:+ s3) = String c (s1 +:+ s2 +:+ s3)).
  by rewrite IH.
Qed.

(** X21.  The message of the error [Load] stores for a failed dependency is one
    flat chain.  For an error of the dependency's constructor it is
    "failed to load dependency name -> dep: " followed by the message of that
    error.  For a DependencyLoadError of the dependency it is the message of
    that error with "name -> " put before its trace: the prefix
    "failed to load dependency" occurs once, not once per level. *)
Theorem wrapped_error_message name dep e :
  (∀ trace e', e = DependencyLoadError trace e' → trace ≠ []) →
  ∃ rest,
    Error (wrap name dep e) = "failed to load dependency " +:+ name +:+ " -> " +:+ rest ∧
    (is_DependencyLoadError e = false → rest = dep +:+ ": " +:+ Error e) ∧
    (is_DependencyLoadError e = true → Error e = "failed to load dependency " +:+ rest).
Proof.
  intros Hne.
  assert (∀ e0 : error, is_DependencyLoadError e0 = false →
    wrap name dep e0 = DependencyLoadError [name; dep] (Some e0)) as Hplain
    by (by intros []).
  destruct e as [msg|trace e'|c|c msg].
  2:{ destruct trace as [|t ts]; [by destruct (Hne [] e')|].
      exists (Join (t :: ts) " -> " +:+ ": " +:+
              match e' with Some e0 => Error e0 | None => "%!s(<nil>)" end).
      split_and!; [|done|done].
      cbn [wrap extend app Error]. change (Join (name :: t :: ts) " -> ")
        with (name +:+ " -> " +:+ Join (t :: ts) " -> ").
      by rewrite !append_assoc. }
  all: eexists; split_and!; [rewrite Hplain by done|intros _; reflexivity|done].
  all: cbn [Error Join]; by rewrite !append_assoc.
Qed.

(** X22.  [Components.MustLoad] caches nothing between calls: each call builds a
    loader of its own, in new cells, whatever loaders the program already
    holds.  So for a component without parameter, every call invokes the
    constructor: the call is logged on a new cell, and [MustLoad] returns the
    value or panics with the error the constructor returned. *)
Theorem Components_MustLoad_caches_nothing
    (comps : Components World) order name m m1 a c v e :
  Components_MustLoad comps order name m = Returns (m1, a) →
  name ∈ order → define comps name = Ok c → In_ (dyn_type (fn c)) = [] →
  interpret c (dyn_call (fn c) (world m) []).1 = Ok (v, e) →
  ∃ l m', a !! name = Some l ∧ length (cells m) ≤ l ∧
    take (length (cells m)) (cells m1) = cells m ∧
    run [length (threads m); length (threads m); length (threads m)] m1 = Ok m' ∧
    calls m' = calls m ++ [Call l [] (dyn_call (fn c) (world m) []).1] ∧
    threads m' !! length (threads m) = Some (Returned v e) ∧
    MustLoad (Returned v e) =
      Some (match e with None => Returns v | Some err => PanicsWith err end).
Proof.
  unfold Components_MustLoad, AsLoader.
  destruct (New (cells m) comps order) as [[h a']| | |] eqn:HN; try done.
  intros [= <- <-] Hn Hc Hin Hint.
  destruct (New_cell _ _ _ _ _ _ HN Hn) as (l & c' & Hl & Hge & Hc' & Hcell).
  assert (c' = c) as -> by congruence.
  assert (struct_fields c = []) as Hsf by (unfold struct_fields; by rewrite Hin).
  rewrite Hsf in Hcell. simpl in Hcell.
  apply define_spec in Hc as (_ & _ & _ & _ & _ & Hld & _).
  assert (l < length h) as Hlt by (by eapply lookup_lt_Some).
  exists l. eexists. split_and!; [done|done| | | | |by destruct e].
  - destruct (New_inv _ _ _ _ _ HN) as (h1 & Hp & Hr & Hinj & Hdeps).
    destruct (populate_prefix _ _ _ _ _ _ Hp) as (news & -> & Hnew).
    cbn [go_Load cells]. erewrite resolve_prefix; [|done|].
    + by rewrite take_app_length.
    + intros n l' Hl'. by destruct (Hnew n l' Hl') as [?%lookup_empty_Some|?].
  - cbn [run]. unfold step at 1. cbn [go_Load threads cells].
    rewrite lookup_app_r, Nat.sub_diag by done. cbn [lookup list_lookup].
    rewrite Hl, Hcell. cbn [nil_guard bind loaded set_dependencies]. rewrite Hld.
    rewrite decide_False by (simpl; lia). cbn [bind].
    unfold step at 1. cbn [threads]. rewrite insert_app_r_alt, Nat.sub_diag by done.
    rewrite lookup_app_r, Nat.sub_diag by done. cbn [insert list_insert lookup list_lookup].
    unfold cell. rewrite Hl. cbn [cells]. rewrite list_lookup_insert_eq by done.
    cbn [nil_guard bind fn set_loading set_dependencies]. rewrite Hin.
    cbn [length Nat.eqb negb concat world go_Load calls cells threads].
    assert (interpret (set_loading (set_dependencies c []))
              (dyn_call (fn c) (world m) []).1 = Ok (v, e)) as -> by exact Hint.
    cbn [bind]. unfold step. cbn [threads].
    rewrite list_lookup_insert_eq by (rewrite length_app; simpl; lia).
    rewrite Hl. cbn [nil_guard bind cells]. rewrite list_lookup_insert_eq by done.
    cbn [bind]. reflexivity.
  - done.
  - cbn [threads]. rewrite list_lookup_fmap, list_lookup_insert_eq; [done|].
    rewrite length_insert, length_app. simpl. lia.
Qed.

(** ** When Load cannot panic *)



















End Further.

(** The amended C6 at a component with two faulty fields, the names in both
    orders. *)
Lemma New_first_error_by_loops_witness :
  ["A"; "B"] ≡ₚ ["B"; "A"] ∧
  New [] two_faults_in_one ["A"; "B"] = New [] two_faults_in_one ["B"; "A"] ∧
  ∃ names, names = merge_sort string_le ["A"; "B"] ∧ Sorted string_le names ∧
    names ≡ₚ ["A"; "B"] ∧
    ∀ e, New [] two_faults_in_one ["A"; "B"] = Fail e →
      (∃ pre n post, names = pre ++ n :: post ∧
         Forall (well_defined two_faults_in_one) pre ∧
         definition_error two_faults_in_one n e) ∨
      (Forall (well_defined two_faults_in_one) names ∧
       ∃ pre n post, names = pre ++ n :: post ∧
         Forall (dependencies_ok two_faults_in_one names) pre ∧
         dependency_error two_faults_in_one names n e) ∨
      (Forall (well_defined two_faults_in_one) names ∧
       Forall (dependencies_ok two_faults_in_one names) names ∧
       ∃ h1 a h2 pre n post cycle, populate two_faults_in_one names [] ∅ = Ok (h1, a) ∧
         resolve names h1 a = Ok h2 ∧ names = pre ++ n :: post ∧
         check_cycles (S (size a)) pre h2 a = Ok tt ∧
         detectCycles (S (size a)) h2 a (a !! n) [n] = Ok (Some cycle) ∧
         e = ComponentDefinitionError (default "" (head cycle)) (cycle_message cycle)).
Proof.
  split; [apply Permutation_swap|].
  apply (New_first_error_by_loops [] two_faults_in_one ["A"; "B"] ["B"; "A"]).
  apply Permutation_swap.
Defined.

(** ** The further properties at inputs *)

Lemma test_built_New :
  New [] TestAcyclicLoader ["StaticInt"; "Plus7"] = Ok (test_built.1, test_built.2).
Proof. vm_compute. reflexivity. Qed.

Lemma run_well_formed {World} {U : Unicode} (a : gmap string nat) schedule : ∀ m m' : machine World,
  well_formed (cells m) a → run schedule m = Ok m' → well_formed (cells m') a.
Proof.
  induction schedule as [|tid rest IH]; intros m m' Hwf; simpl.
  - by intros [= <-].
  - intros H. inv_bind H. eapply IH; [|done]. by eapply step_well_formed.
Qed.

(** The cells [New] allocates for TestAcyclicLoader. *)
Lemma New_allocates_pending_components_witness :
  New [] TestAcyclicLoader ["StaticInt"; "Plus7"] = Ok (test_built.1, test_built.2) ∧
  dom test_built.2 = list_to_set ["StaticInt"; "Plus7"] ∧
  ∃ l f, test_built.2 !! "Plus7" = Some l ∧
    TestAcyclicLoader !! "Plus7" = Some (Some f) ∧
    state <$> test_built.1 !! l = Some Pending.
Proof.
  split; [exact test_built_New|].
  destruct (New_allocates_pending_components _ _ _ _ _ test_built_New) as (_ & Hdom & Hcells).
  split; [exact Hdom|].
  destruct (Hcells "Plus7") as (l & f & Hl & _ & Hf & _ & Hst).
  { apply elem_of_cons. right. apply elem_of_cons. by left. }
  exists l, f. split; [exact Hl|]. split; [exact Hf|exact Hst].
Defined.

(** The dependencies of Plus7 in the loader of TestAcyclicLoader. *)
Lemma New_wires_typed_dependencies_witness :
  New [] TestAcyclicLoader ["StaticInt"; "Plus7"] = Ok (test_built.1, test_built.2) ∧
  ∃ c, cell test_built.1 test_built.2 "Plus7" = Some c ∧
    dependencies c = (struct_fields c).*1 ∧
    ∀ k field, struct_fields c !! k = Some field →
      dependencies c !! k = Some field.1 ∧
      ∃ d, cell test_built.1 test_built.2 field.1 = Some d ∧ result d = Some field.2.
Proof.
  split; [exact test_built_New|].
  eexists. split; [vm_compute; reflexivity|].
  eapply (New_wires_typed_dependencies _ _ _ _ _ "Plus7"); [exact test_built_New|].
  vm_compute. reflexivity.
Defined.

(** The loader of TestAcyclicLoader has no cycle. *)
Lemma New_loader_is_acyclic_witness :
  New [] TestAcyclicLoader ["StaticInt"; "Plus7"] = Ok (test_built.1, test_built.2) ∧
  (∀ x q, ¬ walk test_built.1 test_built.2 (x :: q ++ [x])) ∧
  (∀ x y, edge test_built.1 test_built.2 x y → is_Some (cell test_built.1 test_built.2 y)).
Proof.
  split; [exact test_built_New|].
  exact (New_loader_is_acyclic _ _ _ _ _ test_built_New).
Defined.

(** The error of [New] for A depending on an undefined X and a nil B. *)
Lemma New_error_names_a_component_witness :
  New [] two_faults ["A"; "B"] =
    Fail (ComponentDefinitionError "B"
            "expected definition of 'B' to be a function, but found nil") ∧
  ∃ name msg,
    ComponentDefinitionError "B" "expected definition of 'B' to be a function, but found nil"
      = ComponentDefinitionError name msg ∧
    name ∈ ["A"; "B"].
Proof.
  assert (New [] two_faults ["A"; "B"] =
    Fail (ComponentDefinitionError "B"
            "expected definition of 'B' to be a function, but found nil")) as E
    by (vm_compute; reflexivity).
  split; [exact E|].
  destruct (New_error_names_a_component _ _ _ _ E) as (name & msg & H1 & H2 & _).
  exists name, msg. split; [exact H1|exact H2].
Defined.

(** The panic of [New] for a Server that depends on an error-only Init. *)
Lemma New_panics_only_on_dependency_without_result_witness :
  New [] depends_on_error_only ["Init"; "Server"] = Panic ∧
  ∃ name f fields field g,
    name ∈ ["Init"; "Server"] ∧ depends_on_error_only !! name = Some (Some f) ∧
    In_ (dyn_type f) = [TStruct fields] ∧ field ∈ fields ∧
    depends_on_error_only !! field.1 = Some (Some g) ∧
    (Out (dyn_type g) = [] ∨ Out (dyn_type g) = [typeOfError]).
Proof.
  assert (New [] depends_on_error_only ["Init"; "Server"] = Panic) as E
    by (vm_compute; reflexivity).
  split; [exact E|].
  exact (New_panics_only_on_dependency_without_result _ _ _ E).
Defined.

(** The nil definition of B is reported although A, sorted before it, depends
    on an undefined component. *)
Lemma New_reports_least_definition_error_witness :
  "B" ∈ ["A"; "B"] ∧
  define two_faults "B" =
    Fail (ComponentDefinitionError "B"
            "expected definition of 'B' to be a function, but found nil") ∧
  (∃ c, define two_faults "A" = Ok c) ∧
  New [] two_faults ["A"; "B"] =
    Fail (ComponentDefinitionError "B"
            "expected definition of 'B' to be a function, but found nil").
Proof.
  assert ("B" ∈ ["A"; "B"]) as Hin by (apply elem_of_cons; right; apply elem_of_cons; by left).
  assert (define two_faults "B" =
    Fail (ComponentDefinitionError "B"
            "expected definition of 'B' to be a function, but found nil")) as Hd
    by (vm_compute; reflexivity).
  assert (∃ c, define two_faults "A" = Ok c) as Ha by (eexists; vm_compute; reflexivity).
  split; [exact Hin|]. split; [exact Hd|]. split; [exact Ha|].
  apply (New_reports_least_definition_error [] two_faults ["A"; "B"] "B" _ Hin Hd).
  intros n Hn _ Hne.
  apply elem_of_cons in Hn as [->|Hn]; [exact Ha|].
  apply elem_of_cons in Hn as [->|Hn]; [by destruct Hne|].
  by apply elem_of_nil in Hn.
Defined.

Lemma test_ranges : ranges TestAcyclicLoader ["StaticInt"; "Plus7"].
Proof.
  split.
  - apply NoDup_cons. split; [|apply NoDup_singleton].
    intros H. apply list_elem_of_singleton in H. discriminate H.
  - vm_compute. reflexivity.
Qed.

(** TestAcyclicLoader is a valid acyclic mapping. *)
Lemma New_succeeds_iff_valid_witness :
  ranges TestAcyclicLoader ["StaticInt"; "Plus7"] ∧
  (∃ r, New [] TestAcyclicLoader ["StaticInt"; "Plus7"] = Ok r ∧
        AsLoader [] TestAcyclicLoader ["StaticInt"; "Plus7"] = Returns r) ∧
  (∀ name, name ∈ ["StaticInt"; "Plus7"] → valid_component TestAcyclicLoader name) ∧
  (∀ x q, ¬ chain TestAcyclicLoader (x :: q ++ [x])).
Proof.
  split; [exact test_ranges|].
  assert (∃ r, New [] TestAcyclicLoader ["StaticInt"; "Plus7"] = Ok r ∧
               AsLoader [] TestAcyclicLoader ["StaticInt"; "Plus7"] = Returns r) as H.
  { eexists. split; vm_compute; reflexivity. }
  split; [exact H|].
  exact (proj1 (New_succeeds_iff_valid [] TestAcyclicLoader _ test_ranges) H).
Defined.

Lemma test_built_wf :
  allocated test_built.1 test_built.2 ∧ closed test_built.1 test_built.2 ∧
  acyclic test_built.1 test_built.2 ∧ well_formed test_built.1 test_built.2 ∧
  fresh test_built.1 test_built.2.
Proof.
  pose proof (New_wf _ _ _ _ _ test_built_New) as (? & ? & ? & _).
  pose proof (New_well_formed _ _ _ _ _ test_built_New) as (? & ? & _).
  done.
Qed.

(** No cycle is found from Plus7. *)
Lemma detectCycles_decides_reachable_cycle_witness :
  closed test_built.1 test_built.2 ∧ is_Some (cell test_built.1 test_built.2 "Plus7") ∧
  size test_built.2 ≤ 3 ∧
  detectCycles 3 test_built.1 test_built.2 (test_built.2 !! "Plus7") ["Plus7"] = Ok None ∧
  ∀ q, walk test_built.1 test_built.2 ("Plus7" :: q) → NoDup ("Plus7" :: q).
Proof.
  destruct test_built_wf as (_ & Hcl & _).
  assert (is_Some (cell test_built.1 test_built.2 "Plus7")) as Hc
    by (eexists; vm_compute; reflexivity).
  assert (size test_built.2 ≤ 3) as Hs by (vm_compute; lia).
  split; [exact Hcl|]. split; [exact Hc|]. split; [exact Hs|].
  destruct (detectCycles_decides_reachable_cycle test_built.1 test_built.2 "Plus7" 3 Hcl Hc Hs)
    as [H|(d & mid & pre & H & _)]; [exact H|].
  exfalso. vm_compute in H. discriminate H.
Defined.

(** Overwriting StaticInt in the loader of TestAcyclicLoader. *)
Lemma WithOverwrites_cells_witness :
  allocated test_built.1 test_built.2 ∧ closed test_built.1 test_built.2 ∧
  acyclic test_built.1 test_built.2 ∧
  ∃ news a2,
    WithOverwrites test_built.1 test_built.2 {["StaticInt" := AInt 7%Z]}
      = Ok (test_built.1 ++ news, a2) ∧
    dom a2 = dom test_built.2.
Proof.
  destruct test_built_wf as (Hal & Hcl & Hac & _).
  split; [exact Hal|]. split; [exact Hcl|]. split; [exact Hac|].
  destruct (WithOverwrites_cells test_built.1 test_built.2 {["StaticInt" := AInt 7%Z]}
              Hal Hcl Hac) as (news & a2 & H1 & H2 & _).
  exists news, a2. split; [exact H1|exact H2].
Defined.

(** Overwriting nothing in the loader of TestAcyclicLoader clones it. *)
Lemma WithOverwrites_nothing_is_Clone_witness :
  allocated test_built.1 test_built.2 ∧ closed test_built.1 test_built.2 ∧
  acyclic test_built.1 test_built.2 ∧
  WithOverwrites test_built.1 test_built.2 ∅ = Clone test_built.1 test_built.2.
Proof.
  destruct test_built_wf as (Hal & Hcl & Hac & _).
  split; [exact Hal|]. split; [exact Hcl|]. split; [exact Hac|].
  exact (WithOverwrites_nothing_is_Clone _ _ Hal Hcl Hac).
Defined.

(** The clone and the overwritten loader of TestAcyclicLoader are loaders. *)
Lemma derived_loaders_are_loaders_witness :
  well_formed test_built.1 test_built.2 ∧ acyclic test_built.1 test_built.2 ∧
  (∃ news a2, Clone test_built.1 test_built.2 = Ok (test_built.1 ++ news, a2) ∧
     well_formed (test_built.1 ++ news) a2 ∧ acyclic (test_built.1 ++ news) a2) ∧
  (∃ news a2, WithOverwrites test_built.1 test_built.2 {["StaticInt" := AInt 7%Z]}
                = Ok (test_built.1 ++ news, a2) ∧
     well_formed (test_built.1 ++ news) a2 ∧ acyclic (test_built.1 ++ news) a2).
Proof.
  destruct test_built_wf as (_ & _ & Hac & Hwf & _).
  split; [exact Hwf|]. split; [exact Hac|].
  exact (derived_loaders_are_loaders _ _ _ Hwf Hac).
Defined.

(** [Load("Bogus")] on the loader of TestAcyclicLoader. *)
Lemma Load_of_undefined_component_witness :
  test_built.2 !! "Bogus" = None ∧
  step 0 (go_Load test_built.2 "Bogus" test_fresh) =
    Ok {| cells := cells test_fresh; world := world test_fresh;
          threads := threads test_fresh ++
                       [Returned ANil (Some (UndefinedComponentError "Bogus"))];
          calls := calls test_fresh |} ∧
  Error (UndefinedComponentError "Bogus") = "cannot load undefined component 'Bogus'".
Proof.
  assert (test_built.2 !! "Bogus" = None) as Hn by (vm_compute; reflexivity).
  split; [exact Hn|].
  destruct (Load_of_undefined_component test_fresh test_built.2 "Bogus" Hn)
    as (H1 & _ & _ & H2).
  split; [exact H1|exact H2].
Defined.

(** A second [Load("Plus7")] after the first returned 12. *)
Lemma Load_memoizes_when_quiescent_witness :
  Forall (λ t, ∃ v e, t = Returned v e) (threads test_loaded) ∧
  ∃ c, cell (cells test_loaded) test_built.2 "Plus7" = Some c ∧ loaded c = true ∧
    value c = AInt 12 ∧ err c = None ∧
    run [2] (go_Load test_built.2 "Plus7" test_loaded) =
      Ok {| cells := cells test_loaded; world := world test_loaded;
            threads := threads test_loaded ++ [Returned (value c) (err c)];
            calls := calls test_loaded |}.
Proof.
  assert (Forall (λ t, ∃ v e, t = Returned v e) (threads test_loaded)) as Hq.
  { vm_compute. repeat constructor; eexists _, _; reflexivity. }
  split; [exact Hq|].
  eexists. split; [vm_compute; reflexivity|]. split; [reflexivity|].
  split; [reflexivity|]. split; [reflexivity|].
  eapply (proj1 (Load_memoizes_when_quiescent test_loaded test_built.2 "Plus7" _ Hq _ _ [2] _)).
  Unshelve.
  - vm_compute. reflexivity.
  - reflexivity.
  - apply elem_of_cons. left. vm_compute. reflexivity.
Defined.

Lemma test_ready_wf : well_formed (cells test_ready) test_built.2.
Proof.
  destruct test_built_wf as (_ & _ & _ & Hwf & _).
  change (well_formed (cells StaticInt_loaded) test_built.2).
  apply (run_well_formed test_built.2 [0; 0; 0]
           (go_Load test_built.2 "StaticInt" test_fresh) StaticInt_loaded); [exact Hwf|].
  vm_compute. reflexivity.
Qed.

(** [Load("Plus7")] when StaticInt is loaded with 5: the constructor is
    called with 5 and the call returns 12. *)
Lemma Load_calls_constructor_with_dependency_values_witness :
  well_formed (cells test_ready) test_built.2 ∧
  test_built.2 !! "Plus7" = Some 0 ∧
  ∃ c, cells test_ready !! 0 = Some c ∧
    threads test_ready !! 1 = Some (Start test_built.2 "Plus7") ∧ loaded c = false ∧
    ready (cells test_ready) test_built.2 c 0 ∧
    ∃ m1 c1 m', step 1 test_ready = Ok m1 ∧
      cells m1 !! 0 = Some c1 ∧ loading c1 = true ∧ loaded c1 = loaded c ∧
      calls m1 = calls test_ready ∧
      run [1; 1; 1] test_ready = Ok m' ∧
      threads m' !! 1 = Some (Returned (AInt 12) None) ∧
      calls m' = calls test_ready ++ [Call 0 [AInt 5%Z] [AInt 12%Z]].
Proof.
  split; [exact test_ready_wf|]. split; [vm_compute; reflexivity|].
  eexists. split; [vm_compute; reflexivity|].
  split; [vm_compute; reflexivity|]. split; [reflexivity|].
  match goal with |- ready ?h ?a ?c 0 ∧ _ =>
    assert (ready h a c 0) as Hready
  end.
  { eexists _, _, _. split_and!; vm_compute; reflexivity. }
  split; [exact Hready|].
  edestruct (fun c => Load_calls_constructor_with_dependency_values test_ready 1 test_built.2
               "Plus7" 0 c 0 [] [AInt 5%Z] [AInt 12%Z] (AInt 12%Z) None test_ready_wf)
    as (m1 & c1 & m' & Hs1 & Hc1 & Hlg & Hld & _ & _ & _ & _ & Hcalls1 & _ & _ &
        Hrun & Hth & Hcalls & _).
  - vm_compute. reflexivity.
  - vm_compute. reflexivity.
  - right. split_and!; [vm_compute; reflexivity|reflexivity|reflexivity|reflexivity].
  - intros H. discriminate H.
  - intros k Hk. simpl in Hk. assert (k = 0) as -> by lia. exact Hready.
  - vm_compute. reflexivity.
  - vm_compute. reflexivity.
  - vm_compute. reflexivity.
  - exists m1, c1, m'. split; [exact Hs1|]. split; [exact Hc1|]. split; [exact Hlg|].
    split; [exact Hld|]. split; [exact Hcalls1|]. split; [exact Hrun|].
    split; [exact Hth|exact Hcalls].
Defined.

(** [Load("Plus7")] on the loader where nothing is loaded waits for
    StaticInt. *)
Lemma Load_waits_for_unloaded_dependency_witness :
  well_formed (cells (go_Load test_built.2 "Plus7" test_fresh)) test_built.2 ∧
  ∃ c d, cells (go_Load test_built.2 "Plus7" test_fresh) !! 0 = Some c ∧
    dependencies c !! 0 = Some "StaticInt" ∧
    cell (cells (go_Load test_built.2 "Plus7" test_fresh)) test_built.2 "StaticInt" = Some d ∧
    loaded d = false ∧
    ∃ m' extra, step 0 (go_Load test_built.2 "Plus7" test_fresh) = Ok m' ∧
      cells m' = cells (go_Load test_built.2 "Plus7" test_fresh) ∧
      calls m' = calls (go_Load test_built.2 "Plus7" test_fresh) ∧
      threads m' = [Waiting test_built.2 "Plus7" 0 []] ++ extra ∧
      step 0 m' = Ok m'.
Proof.
  destruct test_built_wf as (_ & _ & _ & Hwf & _).
  split; [exact Hwf|].
  eexists _, _. split; [vm_compute; reflexivity|]. split; [reflexivity|].
  split; [vm_compute; reflexivity|]. split; [reflexivity|].
  edestruct (fun c d => Load_waits_for_unloaded_dependency
               (go_Load test_built.2 "Plus7" test_fresh)
               0 test_built.2 "Plus7" 0 c 0 [] 0 "StaticInt" d Hwf)
    as (m' & extra & Hs & Hc & Hcs & _ & Hth & _ & _ & Hb).
  - vm_compute. reflexivity.
  - vm_compute. reflexivity.
  - right. split_and!; [vm_compute; reflexivity|reflexivity|reflexivity|reflexivity].
  - lia.
  - reflexivity.
  - vm_compute. reflexivity.
  - reflexivity.
  - intros k Hk. lia.
  - exists m', extra. split; [exact Hs|]. split; [exact Hc|]. split; [exact Hcs|].
    split; [exact Hth|exact Hb].
Defined.

Lemma field_built_New :
  New [] unexported_field ["Server"; "port"] = Ok (field_built.1, field_built.2).
Proof. vm_compute. reflexivity. Qed.

Lemma field_woken_wf : well_formed (cells field_woken) field_built.2.
Proof.
  pose proof (New_well_formed _ _ _ _ _ field_built_New) as (Hwf & _).
  apply (run_well_formed field_built.2 [0; 1; 1; 1]
           (go_Load field_built.2 "Server" (Machine field_built.1 tt [] [])) field_woken);
    [exact Hwf|].
  vm_compute. reflexivity.
Qed.

(** The woken [Load("Server")] panics when it sets the field [port]. *)
Lemma Load_panics_on_unsettable_field_witness :
  New [] unexported_field ["Server"; "port"] = Ok (field_built.1, field_built.2) ∧
  well_formed (cells field_woken) field_built.2 ∧
  threads field_woken !! 0 = Some (Woken field_built.2 "Server" 0 []) ∧
  exported "port" = false ∧
  step 0 field_woken = Panic.
Proof.
  split; [exact field_built_New|]. split; [exact field_woken_wf|].
  split; [vm_compute; reflexivity|]. split; [reflexivity|].
  eapply (Load_panics_on_unsettable_field field_woken 0 field_built.2 "Server" 0 _ 0 [] 0
            "port" _ ("port", TInt) field_woken_wf).
  - vm_compute. reflexivity.
  - vm_compute. reflexivity.
  - left. vm_compute. reflexivity.
  - lia.
  - reflexivity.
  - vm_compute. reflexivity.
  - reflexivity.
  - reflexivity.
  - reflexivity.
  - left. reflexivity.
  - intros k Hk. lia.
Defined.

(** The run in which [Load("Plus7")] returns 12. *)
Lemma Load_never_resets_a_component_witness :
  run [0; 1; 1; 1; 0; 0; 0] (go_Load test_built.2 "Plus7" test_fresh) = Ok test_loaded ∧
  length (cells test_loaded) = length (cells (go_Load test_built.2 "Plus7" test_fresh)) ∧
  ∃ more, calls test_loaded = calls (go_Load test_built.2 "Plus7" test_fresh) ++ more.
Proof.
  assert (run [0; 1; 1; 1; 0; 0; 0] (go_Load test_built.2 "Plus7" test_fresh) = Ok test_loaded)
    as E by (vm_compute; reflexivity).
  split; [exact E|].
  destruct (Load_never_resets_a_component _ _ _ E) as (H1 & _ & H2 & _).
  split; [exact H1|exact H2].
Defined.

Lemma empty_struct_New :
  New [] empty_struct ["A"] = Ok (empty_struct_built.1, empty_struct_built.2).
Proof. vm_compute. reflexivity. Qed.

(** [New] accepts [func(struct{}) int], and [Load] of it panics. *)
Lemma Load_panics_on_empty_struct_parameter_witness :
  New [] empty_struct ["A"] = Ok (empty_struct_built.1, empty_struct_built.2) ∧
  run [0; 0] (go_Load empty_struct_built.2 "A" (Machine empty_struct_built.1 tt [] [])) = Panic.
Proof.
  split; [exact empty_struct_New|].
  refine (Load_panics_on_empty_struct_parameter [] empty_struct ["A"] _ _ "A"
            (Dyn (TFunc [TStruct []] [TInt]) (fun w _ => ([AInt 1], w)))
            empty_struct_New _ _ _ tt [] []).
  - apply elem_of_cons. by left.
  - vm_compute. reflexivity.
  - reflexivity.
Defined.

(** The message of A's error when B failed on X with "boom". *)
Lemma wrapped_error_message_witness :
  Error (wrap "A" "B" (DependencyLoadError ["B"; "X"] (Some (ForeignError "boom"))))
    = "failed to load dependency A -> B -> X: boom" ∧
  ∃ rest,
    Error (wrap "A" "B" (DependencyLoadError ["B"; "X"] (Some (ForeignError "boom"))))
      = "failed to load dependency " +:+ "A" +:+ " -> " +:+ rest ∧
    Error (DependencyLoadError ["B"; "X"] (Some (ForeignError "boom")))
      = "failed to load dependency " +:+ rest.
Proof.
  split; [vm_compute; reflexivity|].
  destruct (wrapped_error_message "A" "B"
              (DependencyLoadError ["B"; "X"] (Some (ForeignError "boom"))))
    as (rest & H1 & _ & H2).
  - intros trace e' H. injection H as <- _. discriminate.
  - exists rest. split; [exact H1|]. apply H2. reflexivity.
Defined.

(** The second [MustLoad("Port")] of the counting constructor calls it
    again: it returns 1 where the first returned 0. *)
Lemma Components_MustLoad_caches_nothing_witness :
  Components_MustLoad counter ["Port"] "Port" counter_once
    = Returns (counter_twice.1, counter_twice.2) ∧
  calls counter_once = [Call 0 [] [AInt 0%Z]] ∧
  ∃ l m', counter_twice.2 !! "Port" = Some l ∧ length (cells counter_once) ≤ l ∧
    run [1; 1; 1] counter_twice.1 = Ok m' ∧
    calls m' = calls counter_once ++ [Call l [] [AInt 1%Z]] ∧
    threads m' !! 1 = Some (Returned (AInt 1%Z) None).
Proof.
  assert (Components_MustLoad counter ["Port"] "Port" counter_once
            = Returns (counter_twice.1, counter_twice.2)) as E by (vm_compute; reflexivity).
  split; [exact E|]. split; [vm_compute; reflexivity|].
  edestruct (fun c => Components_MustLoad_caches_nothing counter ["Port"] "Port" counter_once
               counter_twice.1 counter_twice.2 c (AInt 1%Z) None E)
    as (l & m' & Hl & Hge & _ & Hrun & Hcalls & Hth & _).
  - apply elem_of_cons. by left.
  - vm_compute. reflexivity.
  - reflexivity.
  - vm_compute. reflexivity.
  - exists l, m'. split; [exact Hl|]. split; [exact Hge|]. split; [exact Hrun|].
    split; [exact Hcalls|exact Hth].
Defined.



